(** * Simon's Algorithm notebooks: the classical glue code

    A shallow embedding of the script cells of the Simon's Algorithm
    notebooks (circuit construction, tally of the measurement counts,
    recovery of the hidden string, GF(2) post-processing, and the device
    runs a notebook makes), with the properties that hold of them.

    Python values are modelled as follows:
    - [str] as [string]; an index or a conversion that raises is [None];
    - [int] as [Z];
    - a [dict] as an association list in insertion order with distinct keys
      (the order is observable: [keys()] is unpacked and [sort] is stable);
    - a sympy number as a canonical rational [Qc] (an Integer has
      denominator 1);
    - a circuit as the list of its gates in the order they were appended;
    - the SDK's simulator, which is not part of the sources, by the
      amplitudes of the basis states after each gate. *)

From Stdlib Require Import ZArith QArith Qcanon Qround Lia Ascii String List.
From stdpp Require Import base tactics option list strings pretty sorting.

Local Open Scope string_scope.
Local Open Scope list_scope.
Local Open Scope Z_scope.
Set Default Proof Using "Type".

(** ** Python built-ins used by the cells *)

Module Py.

(** [int(c)] on a one-character string: a decimal digit gives its value,
    any other ASCII character raises [ValueError].  Strings are strings of
    ASCII characters, as the bit strings of the cells are; the decimal digits
    of other scripts, which [int] also accepts, are outside the model. *)
Definition int_of_char (c : ascii) : option Z :=
  let k := Z.of_nat (nat_of_ascii c) in
  if (48 <=? k) && (k <=? 57) then Some (k - 48) else None.

(** [int(s)] on a string of decimal digits: its value in base 10, leading
    zeros allowed.  The empty string raises [ValueError].  The signs,
    surrounding blanks and underscores that [int] also accepts do not occur
    in measurement strings; they count as errors here. *)
Fixpoint int_digits (acc : Z) (s : string) : option Z :=
  match s with
  | EmptyString => Some acc
  | String c s' =>
      match int_of_char c with
      | Some d => int_digits (10 * acc + d) s'
      | None => None
      end
  end.

Definition int (s : string) : option Z :=
  match s with
  | EmptyString => None
  | _ => int_digits 0 s
  end.

(** [s[i]]: [IndexError] outside [0 <= i < len(s)]. *)
Definition index (s : string) (i : nat) : option ascii := String.get i s.

(** [s[:n]]: the first [n] characters, or all of [s] when it is shorter. *)
Definition slice_to (n : nat) (s : string) : string := String.substring 0 n s.

(** ["0" * n] *)
Fixpoint repeat0 (n : nat) : string :=
  match n with
  | O => EmptyString
  | S n' => String "0" (repeat0 n')
  end.

(** [sep.join(l)] *)
Definition join (sep : string) (l : list string) : string := String.concat sep l.

(** [str(i)] for an integer. *)
Definition str_nat (i : nat) : string := pretty i.
Definition str_Z (i : Z) : string := pretty i.

(** The characters of a string, as iterated by [for c in k]. *)
Definition chars (s : string) : list ascii := list_ascii_of_string s.

End Py.

(** A bit string: every character is '0' or '1'. *)
Definition is_bit (c : ascii) : bool := (Ascii.eqb c "0" || Ascii.eqb c "1")%bool.

Definition is_bitstring (s : string) : bool := forallb is_bit (Py.chars s).

(** The bit a character stands for. *)
Definition bit_of_char (c : ascii) : bool := Ascii.eqb c "1".

Definition bits_of (s : string) : list bool := bit_of_char <$> Py.chars s.

Definition popcount (s : string) : nat := length (List.filter bit_of_char (Py.chars s)).

(** ** Circuit construction *)

Module Circuit.

Inductive gate : Type :=
| H (target : nat)
| CNot (control target : nat).

Definition circuit := list gate.

(** [Circuit()] *)
Definition empty : circuit := [].

(** [circ.h(range(n))]: one Hadamard per qubit of the range, in order. *)
Definition h_range (n : nat) (circ : circuit) : circuit := circ ++ (H <$> seq 0 n).

(** [circ.cnot(control, target)] *)
Definition cnot (control target : nat) (circ : circuit) : circuit :=
  circ ++ [CNot control target].

(** [for j in range(n): circ.cnot(i, n + j)] *)
Definition inner_loop (n i : nat) (circ : circuit) : circuit :=
  foldl (fun c j => cnot i (n + j) c) circ (seq 0 n).

(** One iteration of the outer loop: [if int(s[i]) == 1: ...]. *)
Definition oracle_iter (s : string) (n : nat) (circ : circuit) (i : nat) : option circuit :=
  ch ← Py.index s i;
  d ← Py.int_of_char ch;
  Some (if d =? 1 then inner_loop n i circ else circ).

(** [for i in range(n): ...] *)
Definition oracle_loop (s : string) (n : nat) (circ : circuit) : option circuit :=
  foldl (fun oc i => oc ≫= fun c => oracle_iter s n c i) (Some circ) (seq 0 n).

(** The whole cell: Hadamards, oracle, Hadamards. *)
Definition build (s : string) : option circuit :=
  let n := String.length s in
  c ← oracle_loop s n (h_range n empty);
  Some (h_range n c).

Definition is_cnot (g : gate) : bool :=
  match g with CNot _ _ => true | H _ => false end.

Definition count_cnot (circ : circuit) : nat := length (List.filter is_cnot circ).

(** The gates the oracle loop is meant to emit: [cnot(i, n + j)] for the
    pairs [(i, j)] with [s[i] == '1'], [i] increasing and then [j]. *)
Definition set_bit (s : string) (i : nat) : bool :=
  match Py.index s i with Some c => bit_of_char c | None => false end.

Definition oracle_pairs (s : string) : list (nat * nat) :=
  let n := String.length s in
  List.filter (fun p => set_bit s (fst p)) (list_prod (seq 0 n) (seq 0 n)).

Definition oracle_gates (s : string) : circuit :=
  (fun p => CNot (fst p) (String.length s + snd p)) <$> oracle_pairs s.

(** What one index [i] contributes to the circuit. *)
Definition row_gates (s : string) (n i : nat) : circuit :=
  if set_bit s i then (fun j => CNot i (n + j)) <$> seq 0 n else [].

(** *** The function the oracle computes

    On a computational-basis state a CNOT adds the control bit to the
    target bit; the oracle is run on [x] in the first register and zeros
    in the second, and [f x] is the content of the second register.  A
    Hadamard has no classical action. *)
Definition apply_gate (st : list bool) (g : gate) : option (list bool) :=
  match g with
  | H _ => None
  | CNot c t =>
      bc ← st !! c;
      bt ← st !! t;
      Some (<[t := xorb bt bc]> st)
  end.

Definition run (circ : circuit) (st : list bool) : option (list bool) :=
  foldl (fun ost g => ost ≫= fun st => apply_gate st g) (Some st) circ.

Definition f (s : string) (x : list bool) : option (list bool) :=
  let n := String.length s in
  c ← oracle_loop s n empty;
  st ← run c (x ++ replicate n false);
  Some (drop n st).

(** The parity of [s . x]: the sum modulo 2 of the bits of [x] at the set
    positions of [s]. *)
Definition dot_parity (s : string) (x : list bool) : bool :=
  foldr xorb false
        ((fun i => (set_bit s i && default false (x !! i))%bool) <$> seq 0 (String.length s)).

(** [x XOR s] on bit vectors. *)
Definition xor_bits (x y : list bool) : list bool := zip_with xorb x y.

(** All bit vectors of length [n]. *)
Fixpoint all_inputs (n : nat) : list (list bool) :=
  match n with
  | O => [[]]
  | S n' => (cons false <$> all_inputs n') ++ (cons true <$> all_inputs n')
  end.

(** The inputs of length [n] that [f] maps to [y]. *)
Definition preimages (s : string) (y : list bool) : list (list bool) :=
  List.filter (fun x => bool_decide (f s x = Some y)) (all_inputs (String.length s)).

End Circuit.

(** ** Dictionaries

    A Python [dict] keeps its keys in insertion order: assigning to an
    existing key keeps its place, a new key goes to the end. *)

Module Dict.

Definition t (V : Type) : Type := list (string * V).

Definition keys {V : Type} (d : t V) : list string := fst <$> d.

Definition values {V : Type} (d : t V) : list V := snd <$> d.

(** [d.items()] *)
Definition items {V : Type} (d : t V) : list (string * V) := d.

(** [d[k]]; [None] stands for [KeyError]. *)
Fixpoint get {V : Type} (d : t V) (k : string) : option V :=
  match d with
  | [] => None
  | (k', v) :: d' => if String.eqb k k' then Some v else get d' k
  end.

(** [k in d] *)
Definition mem {V : Type} (d : t V) (k : string) : bool :=
  match get d k with Some _ => true | None => false end.

(** [d[k] = v] *)
Fixpoint set {V : Type} (d : t V) (k : string) (v : V) : t V :=
  match d with
  | [] => [(k, v)]
  | (k', v') :: d' =>
      if String.eqb k k' then (k', v) :: d' else (k', v') :: set d' k v
  end.

(** The keys of a dictionary are distinct. *)
Definition wf {V : Type} (d : t V) : Prop := NoDup (keys d).

(** [c[k]] on a [Counter]: a missing key counts 0. *)
Definition count (c : t Z) (k : string) : Z := default 0 (get c k).

End Dict.

(** [sum(l)] *)
Definition sum (l : list Z) : Z := foldr Z.add 0 l.

(** ** Tally of the first register *)

Module Tally.

(** The body of the loop over [result.measurement_counts.keys()]. *)
Definition step (n : nat) (measurement_counts answer_plot : Dict.t Z)
    (measresult : string) : option (Dict.t Z) :=
  let measresult_input := Py.slice_to n measresult in
  if Dict.mem answer_plot measresult_input then
    old ← Dict.get answer_plot measresult_input;
    Some (Dict.set answer_plot measresult_input
            (old + Dict.count measurement_counts measresult))
  else
    Some (Dict.set answer_plot measresult_input
            (Dict.count measurement_counts measresult)).

Definition loop (n : nat) (measurement_counts : Dict.t Z)
    (answer_plot : Dict.t Z) (l : list string) : option (Dict.t Z) :=
  foldl (fun oap k => oap ≫= fun ap => step n measurement_counts ap k)
        (Some answer_plot) l.

(** [answer_plot = {}] followed by the loop; [n] is [len(str(s))]. *)
Definition tally (n : nat) (measurement_counts : Dict.t Z) : option (Dict.t Z) :=
  loop n measurement_counts [] (Dict.keys measurement_counts).

(** The total count of the result strings of [mc] whose slice is [p]. *)
Definition group_count (n : nat) (mc : Dict.t Z) (p : string) : Z :=
  sum (snd <$> List.filter (fun kv => String.eqb (Py.slice_to n (fst kv)) p) mc).

(** The count gathered for the slice [p] from the result strings [l],
    each looked up in [mc]. *)
Definition gathered (n : nat) (mc : Dict.t Z) (l : list string) (p : string) : Z :=
  sum (Dict.count mc <$> List.filter (fun k => String.eqb (Py.slice_to n k) p) l).

(** The measurement counts recorded in the notebook for [s = '11011']. *)
Definition sample_counts : Dict.t Z :=
  [("1101111111", 4); ("0000000000", 3); ("1101100000", 1); ("0000011111", 1)].

End Tally.

(** ** Recovery of the hidden string *)

Module Recover.

(** [y1, y2 = l]: [ValueError] unless [l] has exactly two elements. *)
Definition unpack2 {A : Type} (l : list A) : option (A * A) :=
  match l with
  | [a; b] => Some (a, b)
  | _ => None
  end.

(** [y1,y2 = answer_plot.keys()] then [s_calc = int(y1)^int(y2)]. *)
Definition s_calc (answer_plot : Dict.t Z) : option Z :=
  ys ← unpack2 (Dict.keys answer_plot);
  a ← Py.int (fst ys);
  b ← Py.int (snd ys);
  Some (Z.lxor a b).

(** The bitwise XOR of two bit strings, character by character. *)
Fixpoint xor_strings (y1 y2 : string) : string :=
  match y1, y2 with
  | String c1 r1, String c2 r2 =>
      String (if xorb (bit_of_char c1) (bit_of_char c2) then "1" else "0")%char
             (xor_strings r1 r2)
  | _, _ => EmptyString
  end.

(** All bit strings of length [n]. *)
Fixpoint all_bitstrings (n : nat) : list string :=
  match n with
  | O => [EmptyString]
  | S n' => (String "0" <$> all_bitstrings n') ++ (String "1" <$> all_bitstrings n')
  end.

(** [int(y1)^int(y2)] *)
Definition decimal_xor (y1 y2 : string) : option Z :=
  a ← Py.int y1;
  b ← Py.int y2;
  Some (Z.lxor a b).

End Recover.

(** ** The sympy routines called by the post-processing cell *)

Module Sympy.

(** A sympy Integer or Rational: a fraction in lowest terms with a
    positive denominator. *)
Definition of_Z (z : Z) : Qc := Q2Qc (inject_Z z).

Definition one : Qc := of_Z 1.

(** [x.as_numer_denom()] *)
Definition numer (x : Qc) : Z := Qnum (this x).
Definition denom (x : Qc) : Z := Zpos (Qden (this x)).
Definition as_numer_denom (x : Qc) : Z * Z := (numer x, denom x).

(** [x == y] on numbers. *)
Definition eqb (x y : Qc) : bool := Qeq_bool (this x) (this y).

(** [x % m] on rationals: [x - m * floor(x / m)]. *)
Definition rmod (x m : Qc) : Qc := (x - m * of_Z (Qfloor (this (x / m))))%Qc.

(** Modelled from the spec: [mod_inverse] belongs to sympy, which is not
    part of the sources.  [mod_inverse(a, m)] is the [c] in [0, m) with
    [a * c = 1 (mod m)]; it raises [ValueError] when there is none. *)
Definition mod_inverse (a m : Z) : option Z :=
  List.find (fun c => (a * c) mod m =? 1) (Z.of_nat <$> seq 0 (Z.to_nat m)).

(** A matrix: the list of its rows. *)
Abbreviation matrix := (list (list Qc)).

Definition rows (mat : matrix) : nat := length mat.

Definition cols (mat : matrix) : nat :=
  match mat with
  | [] => 0
  | row :: _ => length row
  end.

(** [Matrix(Y)] for a list of lists of Python integers (the rows have
    one length). *)
Definition Matrix (Y : list (list Z)) : matrix :=
  (fun row : list Z => of_Z <$> row) <$> Y.

(** [mat[i, j]] *)
Definition entry (mat : matrix) (i j : nat) : Qc :=
  default (of_Z 0) (mat !! i ≫= fun row => row !! j).

Definition get_col (j : nat) (mat : matrix) : list Qc :=
  (fun row => default (of_Z 0) (row !! j)) <$> mat.

(** *** Row reduction

    [Matrix.rref] belongs to sympy and is not part of the sources.  The
    definitions of this section follow the library's row reduction as the cell
    calls it (pivots normalised last, zeros above and below each pivot). *)
Section RowReduce.
Variable iszerofunc : Qc -> bool.

(** The first entry of [col] that [iszerofunc] rejects, with its
    offset. *)
Definition find_reasonable_pivot (col : list Qc) : option (nat * Qc) :=
  list_find (fun x => iszerofunc x = false) col.

Definition row_swap (i j : nat) (mat : matrix) : matrix :=
  match mat !! i, mat !! j with
  | Some ri, Some rj => <[j := ri]> (<[i := rj]> mat)
  | _, _ => mat
  end.

(** [row[i] = a*row[i] - b*row[j]] *)
Definition cross_cancel (a : Qc) (i : nat) (b : Qc) (j : nat) (mat : matrix) : matrix :=
  match mat !! i, mat !! j with
  | Some ri, Some rj => <[i := zip_with (fun x y => (a * x - b * y)%Qc) ri rj]> mat
  | _, _ => mat
  end.

(** One round of the loop that zeroes the pivot column in [row]. *)
Definition zero_row (piv_row piv_col : nat) (pivot_val : Qc)
    (mat : matrix) (row : nat) : matrix :=
  if (row =? piv_row)%nat then mat
  else
    let val := entry mat row piv_col in
    if iszerofunc val then mat
    else cross_cancel pivot_val row val piv_row mat.

(** What the zeroing loop does to row [i], [pr] being the pivot row. *)
Definition zeroed_row (piv_row piv_col : nat) (pivot_val : Qc) (pr : list Qc)
    (i : nat) (row : list Qc) : list Qc :=
  if (i =? piv_row)%nat then row
  else
    let val := default (of_Z 0) (row !! piv_col) in
    if iszerofunc val then row
    else zip_with (fun x y => (pivot_val * x - val * y)%Qc) row pr.

Record state : Type := State {
  st_mat : matrix;
  piv_row : nat;
  piv_col : nat;
  pivot_cols : list nat
}.

(** The body of the main loop. *)
Definition step (st : state) : state :=
  let mat := st_mat st in
  match find_reasonable_pivot (drop (piv_row st) (get_col (piv_col st) mat)) with
  | None =>
      State mat (piv_row st) (S (piv_col st)) (pivot_cols st)
  | Some (pivot_offset, pivot_val) =>
      let mat1 :=
        if (pivot_offset =? 0)%nat then mat
        else row_swap (piv_row st) (pivot_offset + piv_row st) mat in
      let mat2 :=
        foldl (zero_row (piv_row st) (piv_col st) pivot_val) mat1 (seq 0 (rows mat)) in
      State mat2 (S (piv_row st)) (piv_col st) (pivot_cols st ++ [piv_col st])
  end.

(** [while piv_col < cols and piv_row < rows]; [None] when the fuel
    runs out before the loop ends. *)
Fixpoint loop (fuel : nat) (nrows ncols : nat) (st : state) : option state :=
  if ((piv_col st <? ncols)%nat && (piv_row st <? nrows)%nat)%bool then
    match fuel with
    | O => None
    | S fuel' => loop fuel' nrows ncols (step st)
    end
  else Some st.

(** The final pass on one pivot row: the pivot becomes one and the
    entries to its right are divided by it. *)
Definition normalize_row (piv_j : nat) (row : list Qc) : list Qc :=
  let pivot_val := default (of_Z 0) (row !! piv_j) in
  imap (fun p x =>
          if (p <? piv_j)%nat then x
          else if (p =? piv_j)%nat then one
          else (x / pivot_val)%Qc) row.

Definition normalize (pivots : list nat) (mat : matrix) : matrix :=
  foldl (fun m ij => alter (normalize_row (snd ij)) (fst ij) m) mat
        (imap pair pivots).

(** What the final pass does to row [i]. *)
Definition normalized_row (pivots : list nat) (i : nat) (row : list Qc) : list Qc :=
  match pivots !! i with
  | Some j => normalize_row j row
  | None => row
  end.

(** Modelled from the spec: [Matrix.rref] belongs to sympy, which is not
    part of the sources.  [mat.rref(iszerofunc=...)] returns the reduced
    matrix and its pivot columns, by the library's fraction-free elimination:
    the pivot of a column is its first entry, from the current pivot row
    down, that [iszerofunc] rejects; [cross_cancel] zeroes the column above
    and below the pivot; a final pass divides every pivot row by its pivot. *)
Definition rref (mat : matrix) : option (matrix * list nat) :=
  st ← loop (rows mat + cols mat) (rows mat) (cols mat) (State mat 0 0 []);
  Some (normalize (pivot_cols st) (st_mat st), pivot_cols st).

End RowReduce.

End Sympy.

(** ** Gaussian elimination over GF(2)

    The textbook row reduction of a bit matrix under modulo-2 arithmetic:
    column by column, the first row at or below the current pivot row with a
    1 in the column is swapped into place and added (XOR) to every other row
    that has a 1 in the column. *)

Module GF2.

Abbreviation matrix := (list (list bool)).

Definition bit (m : matrix) (i j : nat) : bool :=
  default false (m !! i ≫= fun row => row !! j).

Definition xor_row (r1 r2 : list bool) : list bool := zip_with xorb r1 r2.

(** The first row index [>= r] with a 1 in column [c]. *)
Definition find_row (c r : nat) (m : matrix) : option nat :=
  (fun p => (r + fst p)%nat) <$> list_find (fun row => row !! c = Some true) (drop r m).

Definition swap (i j : nat) (m : matrix) : matrix :=
  match m !! i, m !! j with
  | Some ri, Some rj => <[j := ri]> (<[i := rj]> m)
  | _, _ => m
  end.

(** Add row [r] to every other row that has a 1 in column [c]. *)
Definition clear_column (c r : nat) (m : matrix) : matrix :=
  match m !! r with
  | Some pr =>
      imap (fun i row =>
              if (negb (i =? r)%nat && default false (row !! c))%bool
              then xor_row row pr else row) m
  | None => m
  end.

(** The elimination over the columns [columns], with [r] the next pivot
    row: the reduced matrix and the pivot columns found. *)
Fixpoint eliminate (columns : list nat) (r : nat) (m : matrix) : matrix * list nat :=
  match columns with
  | [] => (m, [])
  | c :: columns' =>
      match find_row c r m with
      | None => eliminate columns' r m
      | Some i =>
          let res := eliminate columns' (S r) (clear_column c r (swap r i m)) in
          (fst res, c :: snd res)
      end
  end.

Definition rref (ncols : nat) (m : matrix) : matrix :=
  fst (eliminate (seq 0 ncols) 0 m).

Definition pivots (ncols : nat) (m : matrix) : list nat :=
  snd (eliminate (seq 0 ncols) 0 m).

(** A matrix is in reduced row-echelon form with pivot columns
    [pivots]: the pivot columns increase, row [i] has its leading 1 in
    column [pivots[i]], that column is zero elsewhere, and the rows
    without a pivot are zero. *)
Definition is_rref (pivots : list nat) (m : matrix) : Prop :=
  StronglySorted lt pivots
  /\ (length pivots <= length m)%nat
  /\ (forall i c, pivots !! i = Some c ->
        bit m i c = true
        /\ (forall j, (j < c)%nat -> bit m i j = false)
        /\ (forall i', i' <> i -> bit m i' c = false))
  /\ (forall i j, (length pivots <= i)%nat -> bit m i j = false).

(** The modulo-2 dot product of two bit vectors. *)
Definition dot (row s : list bool) : bool := foldr xorb false (zip_with andb row s).

(** [s] solves the system [m s = 0] over GF(2). *)
Definition solves (m : matrix) (s : list bool) : Prop :=
  Forall (fun row => dot row s = false) m.

End GF2.

(** ** The post-processing cell *)

Module PostProcessing.

(** [lambda x: x % 2 == 0] *)
Definition iszerofunc (x : Qc) : bool :=
  Sympy.eqb (Sympy.rmod x (Sympy.of_Z 2)) (Sympy.of_Z 0).

(** The helper [mod(x, modulus)] of the cell. *)
Definition mod_ (x : Qc) (modulus : Z) : option Z :=
  let (numer, denom) := Sympy.as_numer_denom x in
  inv ← Sympy.mod_inverse denom modulus;
  Some ((numer * inv) mod modulus).

(** [M.applyfunc(lambda x: mod(x,2))] *)
Definition applyfunc_mod2 (M : Sympy.matrix) : option (list (list Z)) :=
  mapM (mapM (fun x => mod_ x 2)) M.

(** [Y.rref(iszerofunc=...)] followed by [applyfunc]: the matrix [Y_new]. *)
Definition reduce_mod2 (Y : list (list Z)) : option (list (list Z)) :=
  Y_transformed ← Sympy.rref iszerofunc (Sympy.Matrix Y);
  applyfunc_mod2 (fst Y_transformed).

(** [[ (k,v) for k,v in answer_plot.items() if k != "0"*n ]] *)
Definition nonzero_items (n : nat) (answer_plot : Dict.t Z) : list (string * Z) :=
  List.filter (fun kv => negb (String.eqb (fst kv) (Py.repeat0 n))) (Dict.items answer_plot).

(** The order of [sort(key = lambda x: x[1], reverse=True)]: larger counts
    first. *)
Definition by_count_desc (x y : string * Z) : Prop := snd y <= snd x.

(** [lAnswer.sort(...)]: Python's sort is stable, also with
    [reverse=True]: elements with equal counts keep their order. *)
Fixpoint insert_by_count (x : string * Z) (l : list (string * Z)) : list (string * Z) :=
  match l with
  | [] => [x]
  | y :: l' => if snd x <? snd y then y :: insert_by_count x l' else x :: y :: l'
  end.

Definition sort_by_count (lAnswer : list (string * Z)) : list (string * Z) :=
  foldr insert_by_count [] lAnswer.

(** [[ int(c) for c in k ]] *)
Definition row_of_key (k : string) : option (list Z) :=
  mapM Py.int_of_char (Py.chars k).

(** The loop that appends one row per key to [Y]. *)
Definition build_Y (lAnswer : list (string * Z)) : option (list (list Z)) :=
  foldl (fun oY kv => oY ≫= fun Y => row ← row_of_key (fst kv); Some (Y ++ [row]))
        (Some []) lAnswer.

(** What the cell prints. *)
Inductive output : Type :=
| PrintMatrix (M : list (list Z))
| PrintLine (line : string).

(** [[ "s[ "+str(i)+" ]" for i, v in enumerate(row) if v == 1 ]] *)
Definition terms (row : list Z) : list string :=
  omap (fun iv => if snd iv =? 1
                  then Some ("s[ " +:+ Py.str_nat (fst iv) +:+ " ]")
                  else None)
       (imap pair row).

(** The body of the printing loop for one row: nothing is printed when
    [Yr] is empty. *)
Definition print_row (out : list output) (row : list Z) : list output :=
  let Yr := terms row in
  if (0 <? length Yr)%nat
  then out ++ [PrintLine (Py.join " + " Yr +:+ " " +:+ "= 0")]
  else out.

Definition header (n : nat) : string :=
  "The hidden bistring s[ 0 ], s[ 1 ]....s[" +:+ " " +:+ Py.str_Z (Z.of_nat n - 1)
    +:+ " " +:+ "] is the one satisfying the following system of linear equations:".

(** The whole cell. *)
Definition post_processing (n : nat) (answer_plot : Dict.t Z) : option (list output) :=
  let lAnswer := sort_by_count (nonzero_items n answer_plot) in
  Y ← build_Y lAnswer;
  Y_new ← reduce_mod2 Y;
  Some (foldl print_row [PrintMatrix Y; PrintMatrix Y_new; PrintLine (header n)] Y_new).

(** The equation a row stands for: the sum of the [s[ i ]] over the
    columns [i] where the row has a 1. *)
Definition ones (row : list Z) : list nat :=
  List.filter (fun i => bool_decide (row !! i = Some 1)) (seq 0 (length row)).

Definition equation (row : list Z) : string :=
  Py.join " + " ((fun i => "s[ " +:+ Py.str_nat i +:+ " ]") <$> ones row) +:+ " = 0".

Definition has_one (row : list Z) : bool := existsb (Z.eqb 1) row.

End PostProcessing.

(** ** Reading a sympy matrix modulo 2 *)

(** Every row has [ncols] entries. *)
Definition rect {A : Type} (ncols : nat) (m : list (list A)) : Prop :=
  Forall (fun row => length row = ncols) m.

(** The row that ends up at position [k] when rows [i] and [j] are
    exchanged. *)
Definition transp (i j k : nat) : nat :=
  if decide (k = i) then j else if decide (k = j) then i else k.

(** The residue modulo 2 of a fraction with an odd denominator: the parity
    of its numerator. *)
Definition parity (x : Qc) : bool := Z.odd (Sympy.numer x).

Definition bits_of_matrix (mat : Sympy.matrix) : GF2.matrix :=
  (fun row : list Qc => parity <$> row) <$> mat.

(** A sympy Integer. *)
Definition is_int (x : Qc) : Prop := Sympy.denom x = 1.

Definition int_matrix (mat : Sympy.matrix) : Prop := Forall (Forall is_int) mat.

(** A fraction whose denominator is odd. *)
Definition odd_denom (x : Qc) : Prop := Z.odd (Sympy.denom x) = true.

(** The entries of a matrix are 0 or 1. *)
Definition bit_matrix (Y : list (list Z)) : Prop :=
  Forall (Forall (fun v => v = 0 \/ v = 1)) Y.

(** The invariant of the elimination before column [c], with [r] pivot
    rows found in the columns [ps]: the first [r] rows are reduced with their
    leading 1 in the columns [ps], and the rows from [r] on are zero in the
    columns before [c]. *)
Definition echelon_upto (c r : nat) (ps : list nat) (m : GF2.matrix) : Prop :=
  length ps = r /\ (r <= length m)%nat
  /\ StronglySorted lt ps /\ Forall (fun j => (j < c)%nat) ps
  /\ (forall i j0, ps !! i = Some j0 ->
        GF2.bit m i j0 = true
        /\ (forall j, (j < j0)%nat -> GF2.bit m i j = false)
        /\ (forall i', i' <> i -> GF2.bit m i' j0 = false))
  /\ (forall i j, (r <= i)%nat -> (j < c)%nat -> GF2.bit m i j = false).

(** ** The notebooks as scripts

    A notebook run executes its code cells in order; what matters here are
    the calls it makes to a device.  A call [device.run(...)] is recorded
    with the device it goes to, the number of positional arguments and the
    keyword arguments with their values. *)

Module Script.

Inductive device : Type :=
| LocalSimulator
| AwsDevice (arn : string).

Record run_call : Type := RunCall {
  run_device : device;
  run_positional : nat;
  run_keywords : list (string * Z)
}.

Inductive action : Type :=
| Run (call : run_call)         (* task = device.run(...) *)
| Result                        (* task.result() *)
| TaskState                     (* task.state() *)
| Other.                        (* anything that calls no device *)

(** A notebook: its code cells, each the list of its actions. *)
Definition notebook : Type := list (list action).

(** [device.run(qc, shots=k)] on the local simulator. *)
Definition local_run (shots : Z) : action :=
  Run (RunCall LocalSimulator 1 [("shots", shots)]).

(** [ionq.run(circ, s3_folder, shots=100, poll_timeout_seconds=5*24*60*60)] *)
Definition ionq_run : run_call :=
  RunCall (AwsDevice "arn:aws:braket:::device/qpu/ionq/ionQdevice") 2
          [("shots", 100); ("poll_timeout_seconds", 5 * 24 * 60 * 60)].

(** The Simon notebook: [s = '110'], one run with [shots=2*n-1]. *)
Definition simon : notebook :=
  [ [Other];                              (* imports, device = LocalSimulator() *)
    [Other];                              (* circuit construction *)
    [local_run (2 * 3 - 1)];              (* task = device.run(circ, shots=2*n-1) *)
    [Result; Other];                      (* tally and plot *)
    [Other] ].                            (* recovery *)

(** Its checkpoint version: [s = '11011'], and a second run on the QPU. *)
Definition simon_checkpoint : notebook :=
  [ [Other];
    [Other];
    [local_run (2 * 5 - 1)];
    [Result; Other];
    [Other];
    [Other; Run ionq_run; TaskState; Other];   (* ionq_task = ionq.run(...) *)
    [TaskState; Other];
    [Result; Other];
    [Other] ].                            (* post-processing *)

(** The notebook on qubits and gates: one simulator run per example. *)
Definition basics : notebook :=
  [ [Other];
    [Other];
    [Other; local_run 100; Result; Other];
    [Other; local_run 100; Result; Other];
    [Other; local_run 100; Result; Other];
    [Other; local_run 100; Result; Other];
    [Other; local_run 100; Result; Other];
    [Other; local_run 100; Result; Other];
    [Other; local_run 10000; Result; Other];
    [Other] ].

Definition is_run (a : action) : bool :=
  match a with Run _ => true | _ => false end.

(** The device runs of one execution of a notebook, in order. *)
Definition runs (nb : notebook) : list action := List.filter is_run (concat nb).

(** The keywords of [AwsDevice.run] that configure the polling of the
    task. *)
Definition polling_keywords : list string :=
  ["poll_timeout_seconds"; "poll_interval_seconds"].

(** A call leaves the polling to the SDK when it passes none of them. *)
Definition leaves_polling_to_sdk (call : run_call) : bool :=
  forallb (fun k => negb (Dict.mem (run_keywords call) k)) polling_keywords.

End Script.

(** ** What the printed equations say

    The left-hand side of the equation [s[ i1 ] + ... + s[ ik ] = 0] printed
    for [row], evaluated modulo 2 at the bit vector [s]; the equation holds
    when it is [false]. *)
Definition lhs_mod2 (row : list Z) (s : list bool) : bool :=
  foldr xorb false ((fun i => default false (s !! i)) <$> PostProcessing.ones row).

(** ** The circuit on the simulator *)

Module Sim.

(** Modelled from the spec: the simulator belongs to the SDK, "an opaque
    library dependency", and is not part of the sources.  A state gives every
    basis state of the qubits its amplitude; qubit 0 is the first character
    of a measured string.  Amplitudes are kept up to the positive factor
    [2^(-k/2)] that [k] Hadamards contribute; this keeps them integers and
    does not change which outcomes can be measured. *)
Definition state : Type := list bool -> Z.

Definition sign (b : bool) : Z := if b then -1 else 1.

(** Modelled from the spec: the amplitude of [b] after a gate, by what the
    notebooks say of the two gates.  A Hadamard has the matrix
    [1/sqrt 2 * [[1, 1], [1, -1]]]: it sends [|0>] to [|0> + |1>] and [|1>] to
    [|0> - |1>].  A CNOT inverts the target when the control is 1: it
    permutes the basis states and is its own inverse, so the amplitude of [b]
    after it is the amplitude, before it, of the basis state it pairs with
    [b]. *)
Definition apply_gate (psi : state) (g : Circuit.gate) : state :=
  fun b =>
    match g with
    | Circuit.H t =>
        match b !! t with
        | Some v => psi (<[t := false]> b) + sign v * psi (<[t := true]> b)
        | None => 0
        end
    | Circuit.CNot _ _ =>
        match Circuit.apply_gate b g with
        | Some b' => psi b'
        | None => 0
        end
    end.

(** The gates act in the order they were appended. *)
Definition run (circ : Circuit.circuit) (psi : state) : state :=
  foldl apply_gate psi circ.





End Sim.

(** A character of the ASCII range. *)
Definition is_ascii (c : ascii) : Prop := (nat_of_ascii c < 128)%nat.

(** One of the characters ['0'] .. ['9']. *)
Definition is_digit (c : ascii) : Prop := (48 <= nat_of_ascii c <= 57)%nat.

(** * Properties *)

(** ** Bit strings *)

Lemma is_bit_int_of_char (c : ascii) :
  is_bit c = true ->
  Py.int_of_char c = Some (if bit_of_char c then 1 else 0).
Proof.
  unfold is_bit, bit_of_char. intros Hc.
  apply orb_true_iff in Hc as [Hc | Hc]; apply Ascii.eqb_eq in Hc; subst c; reflexivity.
Qed.

Lemma is_bitstring_cons (c : ascii) (s : string) :
  is_bitstring (String c s) = true <-> is_bit c = true /\ is_bitstring s = true.
Proof. unfold is_bitstring. simpl. apply andb_true_iff. Qed.

Lemma set_bit_0 (c : ascii) (s : string) : Circuit.set_bit (String c s) 0 = bit_of_char c.
Proof. reflexivity. Qed.

Lemma set_bit_S (c : ascii) (s : string) (i : nat) :
  Circuit.set_bit (String c s) (S i) = Circuit.set_bit s i.
Proof. reflexivity. Qed.

Lemma index_bitstring (s : string) (i : nat) :
  is_bitstring s = true -> (i < String.length s)%nat ->
  exists c, Py.index s i = Some c /\ is_bit c = true.
Proof.
  revert i. induction s as [|c s IH]; intros i Hs Hi; simpl in Hi; [lia|].
  apply is_bitstring_cons in Hs as [Hc Hs].
  destruct i as [|i]; simpl.
  - eauto.
  - apply IH; [done | lia].
Qed.

(** The number of set positions of [s] is its population count. *)
Lemma count_set_bits (s : string) (a : nat) :
  length (List.filter (fun i => Circuit.set_bit s (i - a)) (seq a (String.length s)))
  = popcount s.
Proof.
  revert a. induction s as [|c s IH]; intros a; [reflexivity|].
  cbn [String.length seq List.filter].
  replace (a - a)%nat with 0%nat by lia. rewrite set_bit_0.
  rewrite (filter_ext_in _ (fun i => Circuit.set_bit s (i - S a))).
  2:{ intros i Hi. apply in_seq in Hi.
      replace (i - a)%nat with (S (i - S a)) by lia. apply set_bit_S. }
  unfold popcount, Py.chars. cbn [list_ascii_of_string List.filter].
  specialize (IH (S a)). unfold popcount, Py.chars in IH.
  destruct (bit_of_char c); cbn [length]; rewrite IH; reflexivity.
Qed.

(** ** The oracle loop *)

Section OracleLoop.
Import Circuit.

Lemma inner_loop_gates (n i : nat) (l : list nat) (circ : circuit) :
  foldl (fun c j => cnot i (n + j) c) circ l
  = circ ++ ((fun j => CNot i (n + j)) <$> l).
Proof.
  revert circ. induction l as [|j l IH]; intros circ; simpl.
  - by rewrite app_nil_r.
  - rewrite IH. unfold cnot. by rewrite <- app_assoc.
Qed.

Lemma oracle_iter_gates (s : string) (n i : nat) (circ : circuit) :
  is_bitstring s = true -> (i < String.length s)%nat ->
  oracle_iter s n circ i = Some (circ ++ row_gates s n i).
Proof.
  intros Hs Hi. destruct (index_bitstring s i Hs Hi) as (c & Hc & Hb).
  unfold oracle_iter, row_gates, set_bit. rewrite Hc. simpl.
  rewrite (is_bit_int_of_char c Hb). simpl.
  destruct (bit_of_char c); simpl.
  - unfold inner_loop. apply f_equal, inner_loop_gates.
  - by rewrite app_nil_r.
Qed.

Lemma oracle_loop_gates (s : string) (n : nat) (l : list nat) (circ : circuit) :
  is_bitstring s = true -> Forall (fun i => i < String.length s)%nat l ->
  foldl (fun oc i => oc ≫= fun c => oracle_iter s n c i) (Some circ) l
  = Some (circ ++ concat (row_gates s n <$> l)).
Proof.
  intros Hs. revert circ. induction l as [|i l IH]; intros circ Hl; simpl.
  - by rewrite app_nil_r.
  - apply Forall_cons in Hl as [Hi Hl].
    rewrite (oracle_iter_gates s n i circ Hs Hi), (IH _ Hl).
    by rewrite <- app_assoc.
Qed.

Lemma filter_fst_list_prod {A B : Type} (p : A -> bool) (l1 : list A) (l2 : list B) :
  List.filter (fun q => p (fst q)) (list_prod l1 l2)
  = concat ((fun a => if p a then pair a <$> l2 else []) <$> l1).
Proof.
  induction l1 as [|a l1 IH]; [reflexivity|].
  cbn [list_prod fmap list_fmap concat]. rewrite List.filter_app, IH. f_equal.
  clear IH. destruct (p a) eqn:Hp.
  - induction l2 as [|b l2 IH2]; [reflexivity|].
    simpl. rewrite Hp. f_equal. apply IH2.
  - induction l2 as [|b l2 IH2]; [reflexivity|].
    simpl. rewrite Hp. apply IH2.
Qed.

Lemma cnot_pairs_rows (s : string) (n : nat) (l1 l2 : list nat) :
  (fun p => CNot (fst p) (n + snd p))
    <$> concat ((fun a => if set_bit s a then pair a <$> l2 else []) <$> l1)
  = concat ((fun i => if set_bit s i then (fun j => CNot i (n + j)) <$> l2 else []) <$> l1).
Proof.
  induction l1 as [|i l1 IH]; [reflexivity|].
  cbn [fmap list_fmap concat]. rewrite fmap_app. f_equal; [|apply IH].
  destruct (set_bit s i); [|reflexivity].
  rewrite <- list_fmap_compose. reflexivity.
Qed.

Lemma oracle_gates_rows (s : string) :
  oracle_gates s
  = concat (row_gates s (String.length s) <$> seq 0 (String.length s)).
Proof.
  unfold oracle_gates, oracle_pairs. rewrite filter_fst_list_prod.
  apply cnot_pairs_rows.
Qed.

Lemma count_cnot_app (c1 c2 : circuit) :
  count_cnot (c1 ++ c2) = (count_cnot c1 + count_cnot c2)%nat.
Proof. unfold count_cnot. by rewrite List.filter_app, length_app. Qed.

Lemma count_cnot_h_layer (l : list nat) : count_cnot (H <$> l) = 0%nat.
Proof. induction l; [reflexivity | assumption]. Qed.

Lemma count_cnot_oracle_gates (s : string) :
  count_cnot (oracle_gates s) = length (oracle_gates s).
Proof.
  unfold oracle_gates, count_cnot.
  induction (oracle_pairs s) as [|p l IH]; [reflexivity|].
  simpl. f_equal. exact IH.
Qed.

Lemma length_oracle_gates (s : string) :
  length (oracle_gates s) = (String.length s * popcount s)%nat.
Proof.
  rewrite oracle_gates_rows, <- (count_set_bits s 0).
  set (n := String.length s). generalize (seq 0 n). intros l.
  induction l as [|i l IH]; [simpl; lia|].
  cbn [fmap list_fmap concat List.filter]. rewrite length_app, IH. unfold row_gates.
  replace (i - 0)%nat with i by lia.
  destruct (set_bit s i); cbn [length]; [|lia].
  rewrite length_fmap, length_seq. lia.
Qed.

End OracleLoop.

(** C3. For a bit string [s] of length [n] the circuit cell builds exactly
    the Hadamards on qubits [0..n-1], then [cnot(i, n + j)] for the pairs
    [(i, j)] with [s[i] == '1'] and [j < n] ([i] increasing, then [j]), then
    the Hadamards again: [n * popcount s] CNOT gates, and no other gate
    between the two Hadamard layers. *)
Theorem oracle_loop_emits_cnots (s : string) :
  is_bitstring s = true ->
  let n := String.length s in
  Circuit.build s
  = Some ((Circuit.H <$> seq 0 n) ++ Circuit.oracle_gates s ++ (Circuit.H <$> seq 0 n))
  /\ Circuit.oracle_gates s
     = (fun p => Circuit.CNot (fst p) (n + snd p))
         <$> List.filter (fun p => Circuit.set_bit s (fst p)) (list_prod (seq 0 n) (seq 0 n))
  /\ length (Circuit.oracle_gates s) = (n * popcount s)%nat
  /\ (forall c, Circuit.build s = Some c -> Circuit.count_cnot c = (n * popcount s)%nat).
Proof.
  intros Hs n.
  assert (Hb : Circuit.build s
    = Some ((Circuit.H <$> seq 0 n) ++ Circuit.oracle_gates s ++ (Circuit.H <$> seq 0 n))).
  { unfold Circuit.build, Circuit.oracle_loop. fold n.
    rewrite (oracle_loop_gates s n (seq 0 n) _ Hs).
    2:{ apply Forall_forall. intros i Hi. apply list_elem_of_In, in_seq in Hi. lia. }
    simpl. unfold Circuit.h_range, Circuit.empty. simpl.
    rewrite oracle_gates_rows. fold n. by rewrite <- app_assoc. }
  split; [exact Hb|]. split; [reflexivity|]. split; [apply length_oracle_gates|].
  intros c Hc. rewrite Hb in Hc. injection Hc as <-.
  rewrite !count_cnot_app, !count_cnot_h_layer, count_cnot_oracle_gates, length_oracle_gates.
  fold n. lia.
Qed.

Lemma oracle_loop_emits_cnots_witness :
  is_bitstring "110" = true
  /\ Circuit.build "110"
     = Some ((Circuit.H <$> [0; 1; 2]) ++ (Circuit.CNot 0 <$> [3; 4; 5])
               ++ (Circuit.CNot 1 <$> [3; 4; 5]) ++ (Circuit.H <$> [0; 1; 2]))%nat
  /\ (Circuit.count_cnot <$> Circuit.build "110") = Some 6%nat.
Proof.
  split; [reflexivity|].
  destruct (oracle_loop_emits_cnots "110" eq_refl) as (Hb & _ & _ & Hn).
  split; [exact Hb|]. rewrite Hb. reflexivity.
Defined.

(** ** Dictionaries *)

Section DictFacts.
Context {V : Type}.
Implicit Types (d : Dict.t V) (k : string) (v : V).

Lemma dict_get_set_eq d k v : Dict.get (Dict.set d k v) k = Some v.
Proof.
  induction d as [|[k' v'] d IH]; simpl.
  - by rewrite String.eqb_refl.
  - destruct (String.eqb k k') eqn:E; simpl; rewrite E; [done | exact IH].
Qed.

Lemma dict_get_set_ne d k k' v :
  k <> k' -> Dict.get (Dict.set d k v) k' = Dict.get d k'.
Proof.
  intros Hne.
  assert (Hne' : String.eqb k' k = false) by (apply String.eqb_neq; congruence).
  induction d as [|[k0 v0] d IH]; simpl.
  - by rewrite Hne'.
  - destruct (String.eqb k k0) eqn:E; simpl.
    + apply String.eqb_eq in E. subst k0. by rewrite Hne'.
    + by rewrite IH.
Qed.

Lemma dict_get_None d k : Dict.get d k = None <-> k ∉ Dict.keys d.
Proof.
  induction d as [|[k' v'] d IH]; simpl.
  - split; [intros _; apply not_elem_of_nil | done].
  - rewrite not_elem_of_cons. destruct (String.eqb k k') eqn:E.
    + apply String.eqb_eq in E. split; [done | intros [? _]; done].
    + apply String.eqb_neq in E. rewrite IH. tauto.
Qed.

Lemma dict_mem_keys d k : Dict.mem d k = true <-> k ∈ Dict.keys d.
Proof.
  unfold Dict.mem. destruct (Dict.get d k) eqn:E.
  - split; [intros _ | done].
    destruct (decide (k ∈ Dict.keys d)) as [|Hn]; [done|].
    apply dict_get_None in Hn. congruence.
  - split; [done|]. intros Hin. apply dict_get_None in E. done.
Qed.

Lemma dict_keys_set d k v :
  Dict.keys (Dict.set d k v)
  = if Dict.mem d k then Dict.keys d else Dict.keys d ++ [k].
Proof.
  unfold Dict.mem. induction d as [|[k' v'] d IH]; simpl; [done|].
  destruct (String.eqb k k') eqn:E; simpl; [done|].
  unfold Dict.keys in *. rewrite IH. by destruct (Dict.get d k).
Qed.

Lemma dict_wf_set d k v : Dict.wf d -> Dict.wf (Dict.set d k v).
Proof.
  unfold Dict.wf. intros Hd. rewrite dict_keys_set.
  destruct (Dict.mem d k) eqn:E; [done|].
  apply NoDup_app. split; [done|]. split; [|apply NoDup_singleton].
  intros x Hx Hk. apply list_elem_of_singleton in Hk. subst x.
  apply dict_mem_keys in Hx. congruence.
Qed.

Lemma dict_get_items d :
  Dict.wf d -> Forall (fun kv => Dict.get d (fst kv) = Some (snd kv)) d.
Proof.
  unfold Dict.wf. induction d as [|[k v] d IH]; intros Hd; [constructor|].
  simpl in Hd. apply NoDup_cons in Hd as [Hk Hd].
  constructor; simpl.
  - by rewrite String.eqb_refl.
  - specialize (IH Hd). rewrite Forall_forall in IH |- *.
    intros [k' v'] Hin. simpl.
    destruct (String.eqb k' k) eqn:E; [|by apply (IH (k', v'))].
    apply String.eqb_eq in E. subst k'. exfalso. apply Hk.
    apply list_elem_of_fmap. by exists (k, v').
Qed.

End DictFacts.

Lemma dict_wf_decide {V : Type} (d : Dict.t V) :
  bool_decide (NoDup (Dict.keys d)) = true -> Dict.wf d.
Proof. apply bool_decide_eq_true_1. Qed.

Lemma sum_app (l1 l2 : list Z) : sum (l1 ++ l2) = sum l1 + sum l2.
Proof. unfold sum. induction l1 as [|x l1 IH]; simpl; [done | rewrite IH; lia]. Qed.

Lemma dict_sum_values_set (d : Dict.t Z) (k : string) (v : Z) :
  sum (Dict.values (Dict.set d k v)) = sum (Dict.values d) - Dict.count d k + v.
Proof.
  unfold Dict.count. induction d as [|[k' v'] d IH]; simpl; [lia|].
  destruct (String.eqb k k') eqn:E; simpl; [lia|].
  unfold Dict.values, sum in *. rewrite IH. lia.
Qed.

Lemma dict_count_set_eq (d : Dict.t Z) (k : string) (v : Z) :
  Dict.count (Dict.set d k v) k = v.
Proof. unfold Dict.count. by rewrite dict_get_set_eq. Qed.

Lemma dict_count_set_ne (d : Dict.t Z) (k k' : string) (v : Z) :
  k <> k' -> Dict.count (Dict.set d k v) k' = Dict.count d k'.
Proof. intros Hne. unfold Dict.count. by rewrite dict_get_set_ne. Qed.

(** ** The tally loop *)

Section TallyFacts.
Variables (n : nat) (mc : Dict.t Z).

Lemma tally_step_total (ap : Dict.t Z) (k : string) :
  Tally.step n mc ap k
  = Some (Dict.set ap (Py.slice_to n k)
            (Dict.count ap (Py.slice_to n k) + Dict.count mc k)).
Proof.
  unfold Tally.step, Dict.mem, Dict.count.
  by destruct (Dict.get ap (Py.slice_to n k)).
Qed.

Lemma tally_loop_spec (l : list string) (ap : Dict.t Z) :
  Dict.wf ap ->
  exists ap', Tally.loop n mc ap l = Some ap'
    /\ Dict.wf ap'
    /\ (forall p, p ∈ Dict.keys ap'
                  <-> p ∈ Dict.keys ap \/ exists k, k ∈ l /\ Py.slice_to n k = p)
    /\ (forall p, Dict.count ap' p = Dict.count ap p + Tally.gathered n mc l p)
    /\ sum (Dict.values ap') = sum (Dict.values ap) + sum (Dict.count mc <$> l).
Proof.
  revert ap. induction l as [|k l IH]; intros ap Hwf.
  - exists ap. split; [done|]. split; [done|]. split.
    { intros p. split; [by left|]. intros [H|(k & Hk & _)]; [done|]. by apply elem_of_nil in Hk. }
    split; [intros p; unfold Tally.gathered; simpl; lia | simpl; lia].
  - unfold Tally.loop. cbn [foldl mbind option_bind]. rewrite tally_step_total.
    set (q := Py.slice_to n k).
    set (ap1 := Dict.set ap q (Dict.count ap q + Dict.count mc k)).
    destruct (IH ap1) as (ap' & Hl & Hwf' & Hk & Hc & Hs); [by apply dict_wf_set|].
    exists ap'. split; [exact Hl|]. split; [exact Hwf'|]. split; [|split].
    + intros p. rewrite Hk. unfold ap1. rewrite dict_keys_set.
      split.
      * intros [Hin | (k' & Hk' & Hp)].
        -- destruct (Dict.mem ap q) eqn:E; [by left|].
           apply elem_of_app in Hin as [Hin|Hin]; [by left|].
           apply list_elem_of_singleton in Hin. right. exists k. split; [left|done].
        -- right. exists k'. split; [by right | done].
      * intros [Hin | (k' & Hk' & Hp)].
        -- left. destruct (Dict.mem ap q); [done|]. apply elem_of_app. by left.
        -- apply elem_of_cons in Hk' as [->|Hk'].
           ++ left. fold q in Hp. subst p. destruct (Dict.mem ap q) eqn:E.
              ** by apply dict_mem_keys.
              ** apply elem_of_app. right. by apply list_elem_of_singleton.
           ++ right. by exists k'.
    + intros p. rewrite Hc. unfold Tally.gathered. cbn [List.filter]. fold q.
      destruct (String.eqb q p) eqn:E.
      * apply String.eqb_eq in E. subst p. unfold ap1.
        rewrite dict_count_set_eq. cbn [fmap list_fmap sum foldr]. unfold sum. lia.
      * apply String.eqb_neq in E. unfold ap1. by rewrite dict_count_set_ne.
    + rewrite Hs. unfold ap1. rewrite dict_sum_values_set.
      cbn [fmap list_fmap sum foldr]. unfold sum. lia.
Qed.

Lemma gathered_items (p : string) (l : Dict.t Z) :
  Forall (fun kv => Dict.get mc (fst kv) = Some (snd kv)) l ->
  Tally.gathered n mc (fst <$> l) p
  = sum (snd <$> List.filter (fun kv => String.eqb (Py.slice_to n (fst kv)) p) l).
Proof.
  unfold Tally.gathered. induction l as [|[k c] l IH]; intros Hall; [done|].
  apply Forall_cons in Hall as [Hkc Hall]. simpl in Hkc.
  cbn [fmap list_fmap List.filter fst].
  destruct (String.eqb (Py.slice_to n k) p).
  - cbn [fmap list_fmap sum foldr snd]. unfold Dict.count at 1. rewrite Hkc. simpl.
    f_equal. apply IH, Hall.
  - apply IH, Hall.
Qed.

Lemma gathered_keys (p : string) :
  Dict.wf mc -> Tally.gathered n mc (Dict.keys mc) p = Tally.group_count n mc p.
Proof. intros Hwf. apply gathered_items, dict_get_items, Hwf. Qed.

Lemma sum_counts_items (l : Dict.t Z) :
  Forall (fun kv => Dict.get mc (fst kv) = Some (snd kv)) l ->
  sum (Dict.count mc <$> (fst <$> l)) = sum (snd <$> l).
Proof.
  induction l as [|[k c] l IH]; intros Hall; [done|].
  apply Forall_cons in Hall as [Hkc Hall]. simpl in Hkc.
  cbn [fmap list_fmap sum foldr fst snd]. unfold Dict.count at 1. rewrite Hkc. simpl.
  f_equal. apply IH, Hall.
Qed.

Lemma sum_counts_keys :
  Dict.wf mc -> sum (Dict.count mc <$> Dict.keys mc) = sum (Dict.values mc).
Proof. intros Hwf. apply sum_counts_items, dict_get_items, Hwf. Qed.

End TallyFacts.

Lemma slice_to_prefix (n : nat) (k : string) :
  (n <= String.length k)%nat ->
  String.length (Py.slice_to n k) = n /\ String.prefix (Py.slice_to n k) k = true.
Proof.
  unfold Py.slice_to. revert k. induction n as [|n IH]; intros k Hk.
  - destruct k; done.
  - destruct k as [|c k]; simpl in Hk; [lia|].
    destruct (IH k) as [Hl Hp]; [lia|]. simpl. rewrite Hl, Hp.
    split; [done|]. by destruct (ascii_dec c c).
Qed.

(** C5. The tally loop groups the result strings by their first [n]
    characters and preserves the counts: the keys of [answer_plot] are
    exactly the slices [k[:n]] of the observed strings [k] (their
    [n]-character prefixes when the strings have [2n] characters), each
    mapped to the sum of the counts of the strings with that slice, and the
    values of [answer_plot] add up to the values of [measurement_counts]. *)
Theorem tally_groups_by_prefix (n : nat) (measurement_counts : Dict.t Z) :
  Dict.wf measurement_counts ->
  exists answer_plot,
    Tally.tally n measurement_counts = Some answer_plot
    /\ Dict.wf answer_plot
    /\ (forall p, p ∈ Dict.keys answer_plot
                  <-> exists k, k ∈ Dict.keys measurement_counts /\ Py.slice_to n k = p)
    /\ (forall p, p ∈ Dict.keys answer_plot ->
                  Dict.get answer_plot p = Some (Tally.group_count n measurement_counts p))
    /\ (forall k, String.length k = (2 * n)%nat ->
                  String.length (Py.slice_to n k) = n
                  /\ String.prefix (Py.slice_to n k) k = true)
    /\ sum (Dict.values answer_plot) = sum (Dict.values measurement_counts).
Proof.
  intros Hwf.
  destruct (tally_loop_spec n measurement_counts (Dict.keys measurement_counts) [])
    as (ap & Hl & Hwf' & Hk & Hc & Hs); [apply NoDup_nil_2|].
  exists ap. split; [exact Hl|]. split; [exact Hwf'|]. split; [|split; [|split]].
  - intros p. rewrite Hk. split.
    + intros [H|H]; [by apply elem_of_nil in H | exact H].
    + intros H. by right.
  - intros p Hp. specialize (Hc p). rewrite gathered_keys in Hc by done.
    unfold Dict.count in Hc. simpl in Hc.
    destruct (Dict.get ap p) as [v|] eqn:E.
    + simpl in Hc. by rewrite Hc.
    + apply dict_get_None in E. done.
  - intros k Hlen. apply slice_to_prefix. lia.
  - rewrite Hs. simpl. by apply sum_counts_keys.
Qed.

Lemma tally_groups_by_prefix_witness :
  Dict.wf Tally.sample_counts
  /\ exists answer_plot,
       Tally.tally 5 Tally.sample_counts = Some answer_plot
       /\ sum (Dict.values answer_plot) = 9.
Proof.
  assert (Hwf : Dict.wf Tally.sample_counts).
  { by apply dict_wf_decide. }
  split; [exact Hwf|].
  destruct (tally_groups_by_prefix 5 Tally.sample_counts Hwf)
    as (ap & Hap & _ & _ & _ & _ & Hs).
  exists ap. split; [exact Hap|]. rewrite Hs. reflexivity.
Defined.

(** ** Recovery of the hidden string *)

Lemma unpack2_Some {A : Type} (l : list A) :
  is_Some (Recover.unpack2 l) <-> length l = 2%nat.
Proof.
  destruct l as [|a [|b [|c l]]]; simpl; split; intros H;
    try done; try (by destruct H); by eexists.
Qed.

Lemma two_distinct_keys (l : list string) :
  NoDup l ->
  length l = 2%nat
  <-> exists y1 y2, y1 <> y2 /\ forall y, y ∈ l <-> y = y1 \/ y = y2.
Proof.
  intros Hnd. split.
  - destruct l as [|a [|b [|c l]]]; try done. intros _.
    exists a, b. split.
    + intros ->. apply NoDup_cons in Hnd as [Ha _]. apply Ha. left.
    + intros y. rewrite !elem_of_cons. split; [|tauto].
      intros [?|[?|H]]; [tauto | tauto | by apply elem_of_nil in H].
  - intros (y1 & y2 & Hne & Hl).
    assert (Hp : l ≡ₚ [y1; y2]).
    { apply NoDup_Permutation; [done | |].
      - apply NoDup_cons. split; [|apply NoDup_singleton].
        intros H. apply list_elem_of_singleton in H. done.
      - intros y. rewrite Hl, !elem_of_cons. split; [tauto|].
        intros [?|[?|H]]; [tauto | tauto | by apply elem_of_nil in H]. }
    by rewrite Hp.
Qed.

Lemma int_digits_bitstring (s : string) (acc : Z) :
  is_bitstring s = true -> is_Some (Py.int_digits acc s).
Proof.
  revert acc. induction s as [|c s IH]; intros acc Hs; simpl; [by eexists|].
  apply is_bitstring_cons in Hs as [Hc Hs].
  rewrite (is_bit_int_of_char c Hc). by apply IH.
Qed.

Lemma int_bitstring (s : string) :
  s <> EmptyString -> is_bitstring s = true -> is_Some (Py.int s).
Proof.
  intros Hne Hs. unfold Py.int. destruct s as [|c s]; [done|].
  by apply int_digits_bitstring.
Qed.

(** C9. The unpacking [y1, y2 = answer_plot.keys()] succeeds exactly when
    the tally has two distinct keys; with fewer or more keys it raises and
    no [s_calc] is produced, and with two keys that are bit strings [s_calc]
    is produced. *)
Theorem unpack_needs_two_keys (answer_plot : Dict.t Z) :
  Dict.wf answer_plot ->
  (is_Some (Recover.unpack2 (Dict.keys answer_plot))
   <-> exists y1 y2, y1 <> y2
         /\ forall y, y ∈ Dict.keys answer_plot <-> y = y1 \/ y = y2)
  /\ (length (Dict.keys answer_plot) <> 2%nat ->
      Recover.unpack2 (Dict.keys answer_plot) = None
      /\ Recover.s_calc answer_plot = None)
  /\ (length (Dict.keys answer_plot) = 2%nat ->
      Forall (fun y => y <> EmptyString /\ is_bitstring y = true) (Dict.keys answer_plot) ->
      is_Some (Recover.s_calc answer_plot)).
Proof.
  intros Hwf. split; [|split].
  - rewrite unpack2_Some. by apply two_distinct_keys.
  - intros Hlen.
    assert (Hn : Recover.unpack2 (Dict.keys answer_plot) = None).
    { destruct (Recover.unpack2 (Dict.keys answer_plot)) eqn:E; [|done].
      exfalso. apply Hlen, unpack2_Some. by eexists. }
    split; [exact Hn|]. unfold Recover.s_calc. by rewrite Hn.
  - intros Hlen Hkeys. unfold Recover.s_calc.
    destruct (Dict.keys answer_plot) as [|y1 [|y2 [|y3 l]]]; try done.
    apply Forall_cons in Hkeys as [[Hn1 Hb1] Hkeys].
    apply Forall_cons in Hkeys as [[Hn2 Hb2] _]. simpl.
    destruct (int_bitstring y1 Hn1 Hb1) as [a ->].
    destruct (int_bitstring y2 Hn2 Hb2) as [b ->]. by eexists.
Qed.

Lemma unpack_needs_two_keys_witness :
  Recover.unpack2 (Dict.keys [("11011", 5); ("00000", 4)]) = Some ("11011", "00000")
  /\ Recover.s_calc [("11011", 9)] = None
  /\ Recover.s_calc [("110", 3); ("000", 2); ("100", 1)] = None
  /\ is_Some (Recover.s_calc [("11011", 5); ("00000", 4)]).
Proof.
  split; [reflexivity|]. split; [|split].
  - apply (unpack_needs_two_keys [("11011", 9)]); [by apply dict_wf_decide | simpl; lia].
  - apply (unpack_needs_two_keys [("110", 3); ("000", 2); ("100", 1)]);
      [by apply dict_wf_decide | simpl; lia].
  - apply (unpack_needs_two_keys [("11011", 5); ("00000", 4)]);
      [by apply dict_wf_decide | reflexivity | by repeat constructor].
Defined.

(** With the all-zero string as one of the two keys, as on the ideal
    simulator, [s_calc] is the decimal reading of the other key. *)
Lemma int_digits_repeat0 (n : nat) (acc : Z) :
  Py.int_digits acc (Py.repeat0 n) = Some (10 ^ Z.of_nat n * acc).
Proof.
  revert acc. induction n as [|n IH]; intros acc.
  - simpl. f_equal. lia.
  - cbn [Py.repeat0 Py.int_digits]. change (Py.int_of_char "0") with (Some 0).
    cbv iota beta. rewrite IH. f_equal. rewrite Nat2Z.inj_succ, Z.pow_succ_r by lia. lia.
Qed.

Lemma s_calc_with_zero_key (y : string) (n : nat) (c1 c2 v : Z) :
  Py.int y = Some v -> n <> 0%nat ->
  Recover.s_calc [(y, c1); (Py.repeat0 n, c2)] = Some v
  /\ Recover.s_calc [(Py.repeat0 n, c1); (y, c2)] = Some v.
Proof.
  intros Hy Hn.
  assert (H0 : Py.int (Py.repeat0 n) = Some 0).
  { destruct n as [|n]; [done|]. unfold Py.int. cbn [Py.repeat0].
    change (String "0" (Py.repeat0 n)) with (Py.repeat0 (S n)).
    rewrite int_digits_repeat0. f_equal. lia. }
  unfold Recover.s_calc. simpl. rewrite Hy, H0. simpl.
  by rewrite Z.lxor_0_r.
Qed.

(** Up to three bits the decimal readings XOR to the decimal reading of
    the bitwise XOR: the binary expansions of 1, 10 and 100 do not overlap. *)
Lemma decimal_xor_three_bits :
  Forall (fun y1 =>
    Forall (fun y2 => Recover.decimal_xor y1 y2 = Py.int (Recover.xor_strings y1 y2))
           (Recover.all_bitstrings 3))
    (Recover.all_bitstrings 3).
Proof. repeat constructor. Qed.

(** Beyond three bits the two readings part: for the keys '1000' and '0010'
    the XOR of the decimal readings is 994, while the bitwise XOR of the two
    bit strings is '1010', read 1010.  The tally of a run of the built circuit
    never has such a pair of keys: one of its two keys is the all-zero
    string. *)
Remark s_calc_decimal_xor_1000_0010 :
  Recover.s_calc [("1000", 3); ("0010", 2)] = Some 994
  /\ Recover.xor_strings "1000" "0010" = "1010"
  /\ Py.int (Recover.xor_strings "1000" "0010") = Some 1010.
Proof. repeat split; reflexivity. Qed.

(** ** Sympy numbers *)

Section Numbers.
Import Sympy.

Lemma this_of_Z (z : Z) : this (of_Z z) = inject_Z z.
Proof.
  unfold of_Z, Q2Qc. simpl. apply Qred_identity. simpl. apply Z.gcd_1_r.
Qed.

Lemma this_div (x y : Qc) : (this (x / y)%Qc == this x / this y)%Q.
Proof.
  unfold Qcdiv, Qcmult, Qcinv, Q2Qc. cbn [this].
  rewrite !Qred_correct. reflexivity.
Qed.

Lemma this_div_of_Z (z pv : Z) :
  (this (of_Z z / of_Z pv)%Qc == inject_Z z / inject_Z pv)%Q.
Proof. rewrite this_div, !this_of_Z. reflexivity. Qed.

Lemma numer_of_Z (z : Z) : numer (of_Z z) = z.
Proof. unfold numer. by rewrite this_of_Z. Qed.

Lemma denom_of_Z (z : Z) : denom (of_Z z) = 1.
Proof. unfold denom. by rewrite this_of_Z. Qed.

Lemma of_Z_inj (a b : Z) : of_Z a = of_Z b -> a = b.
Proof. intros H. apply (f_equal numer) in H. by rewrite !numer_of_Z in H. Qed.

Lemma of_Z_mul (a b : Z) : (of_Z a * of_Z b)%Qc = of_Z (a * b).
Proof.
  apply Qc_is_canon. unfold Qcmult, of_Z, Q2Qc. simpl.
  rewrite !Qred_correct. by rewrite inject_Z_mult.
Qed.

Lemma of_Z_sub (a b : Z) : (of_Z a - of_Z b)%Qc = of_Z (a - b).
Proof.
  apply Qc_is_canon. unfold Qcminus, Qcplus, Qcopp, of_Z, Q2Qc. simpl.
  rewrite !Qred_correct. unfold Z.sub. by rewrite inject_Z_plus, inject_Z_opp.
Qed.

Lemma eqb_of_Z (a b : Z) : eqb (of_Z a) (of_Z b) = (a =? b).
Proof.
  unfold eqb. rewrite !this_of_Z. unfold Qeq_bool, inject_Z. simpl.
  by rewrite !Z.mul_1_r.
Qed.

Lemma rmod_of_Z (z : Z) : rmod (of_Z z) (of_Z 2) = of_Z (z mod 2).
Proof.
  unfold rmod.
  assert (Hf : Qfloor (this (of_Z z / of_Z 2)%Qc) = z / 2).
  { transitivity (Qfloor (z # 2)); [|reflexivity].
    apply Qfloor_comp. rewrite this_div_of_Z.
    unfold Qeq, Qdiv, Qmult, Qinv, inject_Z. simpl. lia. }
  rewrite Hf, of_Z_mul, of_Z_sub. f_equal. rewrite Z.mod_eq by lia. lia.
Qed.

Lemma iszerofunc_of_Z (z : Z) : PostProcessing.iszerofunc (of_Z z) = Z.even z.
Proof.
  unfold PostProcessing.iszerofunc. rewrite rmod_of_Z, eqb_of_Z.
  rewrite Zmod_even. by destruct (Z.even z).
Qed.

Lemma canonical_gcd (x : Qc) : Z.gcd (numer x) (denom x) = 1.
Proof. unfold numer, denom. apply Qred_iff. apply (canon x). Qed.

(** A fraction with an odd denominator keeps one, and the parity of its
    numerator, when it is reduced. *)
Lemma reduced_parity (x : Qc) (a : Z) (b : positive) :
  (this x == a # b)%Q -> Z.odd (Zpos b) = true ->
  Z.odd (denom x) = true /\ Z.odd (numer x) = Z.odd a.
Proof.
  intros Heq Hb. unfold Qeq in Heq. simpl in Heq.
  fold (numer x) in Heq. fold (denom x) in Heq.
  pose proof (canonical_gcd x) as Hg.
  assert (Hd : Z.odd (denom x) = true).
  { destruct (Z.odd (denom x)) eqn:Hd; [done|]. exfalso.
    assert (Hn : Z.odd (numer x) = false).
    { apply (f_equal Z.odd) in Heq. rewrite !Z.odd_mul, Hb, Hd in Heq.
      by rewrite !andb_true_r, andb_false_r in Heq. }
    rewrite <- Z.negb_even in Hd, Hn.
    apply negb_false_iff, Z.even_spec in Hd, Hn.
    destruct Hd as [d Hd], Hn as [n Hn].
    assert (H2 : (2 | Z.gcd (numer x) (denom x))).
    { apply Z.gcd_greatest; [exists n | exists d]; lia. }
    rewrite Hg in H2. destruct H2 as [k Hk]. lia. }
  split; [exact Hd|].
  apply (f_equal Z.odd) in Heq. rewrite !Z.odd_mul, Hb, Hd in Heq.
  by rewrite !andb_true_r in Heq.
Qed.

(** Dividing an integer by an odd integer. *)
Lemma div_odd_parity (z pv : Z) :
  Z.odd pv = true ->
  Z.odd (denom (of_Z z / of_Z pv)%Qc) = true
  /\ Z.odd (numer (of_Z z / of_Z pv)%Qc) = Z.odd z.
Proof.
  intros Hpv.
  destruct pv as [|p|p]; [done| |].
  - apply (reduced_parity _ z p); [|exact Hpv].
    rewrite this_div_of_Z.
    unfold Qeq, Qdiv, Qmult, Qinv, inject_Z. simpl. lia.
  - destruct (reduced_parity (of_Z z / of_Z (Z.neg p))%Qc (- z) p) as [Hd Hn];
      [| exact Hpv | by rewrite Z.odd_opp in Hn].
    rewrite this_div_of_Z.
    unfold Qeq, Qdiv, Qmult, Qinv, inject_Z. simpl. lia.
Qed.

Lemma mod_inverse_2 (d : Z) :
  mod_inverse d 2 = if Z.odd d then Some 1 else None.
Proof.
  unfold mod_inverse. simpl. rewrite Z.mul_0_r, Z.mul_1_r. simpl.
  rewrite Zmod_odd. by destruct (Z.odd d).
Qed.

Lemma mod2_odd_denom (x : Qc) :
  Z.odd (denom x) = true ->
  PostProcessing.mod_ x 2 = Some (Z.b2z (Z.odd (numer x))).
Proof.
  intros Hd. unfold PostProcessing.mod_, as_numer_denom.
  rewrite mod_inverse_2, Hd. simpl. rewrite Z.mul_1_r, Zmod_odd.
  by destruct (Z.odd (numer x)).
Qed.

Lemma mod2_even_denom (x : Qc) :
  Z.odd (denom x) = false -> PostProcessing.mod_ x 2 = None.
Proof.
  intros Hd. unfold PostProcessing.mod_, as_numer_denom.
  by rewrite mod_inverse_2, Hd.
Qed.

End Numbers.

(** C10. The helper [mod(x, 2)] is partial.  On an entry with an odd
    denominator [mod_inverse(denom, 2)] is 1 and the helper returns
    [numer * mod_inverse(denom, 2) % 2], which is 0 or 1; on an entry with an
    even denominator [mod_inverse(denom, 2)] raises, and so does the helper.
    Hence [applyfunc] succeeds on a matrix exactly when every entry has an
    odd denominator. *)
Theorem mod2_is_partial (x : Qc) (M : Sympy.matrix) :
  (if Z.odd (Sympy.denom x)
   then exists inv v,
          Sympy.mod_inverse (Sympy.denom x) 2 = Some inv
          /\ PostProcessing.mod_ x 2 = Some v
          /\ v = (Sympy.numer x * inv) mod 2
          /\ (v = 0 \/ v = 1)
   else Sympy.mod_inverse (Sympy.denom x) 2 = None
        /\ PostProcessing.mod_ x 2 = None)
  /\ (is_Some (PostProcessing.applyfunc_mod2 M)
      <-> Forall (Forall (fun y => Z.odd (Sympy.denom y) = true)) M).
Proof.
  split.
  - destruct (Z.odd (Sympy.denom x)) eqn:Hd.
    + exists 1, (Z.b2z (Z.odd (Sympy.numer x))).
      rewrite mod_inverse_2, Hd, (mod2_odd_denom x Hd).
      split; [done|]. split; [done|]. rewrite Z.mul_1_r, Zmod_odd.
      destruct (Z.odd (Sympy.numer x)); simpl; split; auto.
    + by rewrite mod_inverse_2, Hd, (mod2_even_denom x Hd).
  - unfold PostProcessing.applyfunc_mod2. split.
    + intros [R HR]. apply mapM_Some in HR.
      induction HR as [|row r M R Hrow _ IH]; constructor; [|exact IH].
      apply mapM_Some in Hrow.
      induction Hrow as [|y v row r Hy _ IHr]; constructor; [|exact IHr].
      destruct (Z.odd (Sympy.denom y)) eqn:Hd; [done|].
      by rewrite (mod2_even_denom y Hd) in Hy.
    + intros HM. apply mapM_is_Some. eapply Forall_impl; [exact HM|].
      intros row Hrow. apply mapM_is_Some. eapply Forall_impl; [exact Hrow|].
      intros y Hy. simpl in Hy. unfold compose. rewrite (mod2_odd_denom y Hy). by eexists.
Qed.

Lemma mod2_is_partial_witness :
  PostProcessing.mod_ (Sympy.of_Z 2 / Sympy.of_Z 3)%Qc 2 = Some 0
  /\ PostProcessing.mod_ (Sympy.of_Z (-1)) 2 = Some 1
  /\ PostProcessing.mod_ (Sympy.of_Z 1 / Sympy.of_Z 2)%Qc 2 = None
  /\ is_Some (PostProcessing.applyfunc_mod2 [[Sympy.of_Z 1; Sympy.of_Z 2]]).
Proof.
  repeat split; try reflexivity.
  apply (mod2_is_partial (Sympy.of_Z 0) [[Sympy.of_Z 1; Sympy.of_Z 2]]).
  repeat constructor.
Defined.

(** ** Gaussian elimination over GF(2) *)

Section GF2Facts.
Import GF2.
Implicit Types (m : list (list bool)) (row : list bool).

Lemma bit_lookup m i j row : m !! i = Some row -> bit m i j = default false (row !! j).
Proof. intros H. unfold bit. by rewrite H. Qed.

Lemma bit_ge_rows m i j : (length m <= i)%nat -> bit m i j = false.
Proof. intros H. unfold bit. by rewrite lookup_ge_None_2. Qed.

Lemma rect_lookup {A : Type} ncols (l : list (list A)) i (r : list A) :
  rect ncols l -> l !! i = Some r -> length r = ncols.
Proof. unfold rect. rewrite Forall_lookup. eauto. Qed.

Lemma bit_ge_cols ncols m i j : rect ncols m -> (ncols <= j)%nat -> bit m i j = false.
Proof.
  intros Hr Hj. unfold bit. destruct (m !! i) as [row|] eqn:E; [|done]. simpl.
  assert (length row = ncols) by (eapply rect_lookup; eauto).
  rewrite lookup_ge_None_2; [done | lia].
Qed.

Lemma transp_lt (i j k n : nat) :
  (i < n)%nat -> (j < n)%nat -> (k < n)%nat -> (transp i j k < n)%nat.
Proof. intros. unfold transp. repeat case_decide; lia. Qed.

Lemma lookup_swap {A : Type} (l : list A) (i j k : nat) (ri rj : A) :
  l !! i = Some ri -> l !! j = Some rj ->
  <[j := ri]> (<[i := rj]> l) !! k = l !! transp i j k.
Proof.
  intros Hi Hj. pose proof (lookup_lt_Some _ _ _ Hi). pose proof (lookup_lt_Some _ _ _ Hj).
  unfold transp. rewrite !list_lookup_insert, length_insert.
  repeat case_decide; subst; try done; try lia; destruct_and?; subst; try done.
Qed.

Lemma swap_lookup m i j k :
  (i < length m)%nat -> (j < length m)%nat -> swap i j m !! k = m !! transp i j k.
Proof.
  intros Hi Hj. unfold swap.
  destruct (lookup_lt_is_Some_2 m i Hi) as [ri Hri].
  destruct (lookup_lt_is_Some_2 m j Hj) as [rj Hrj].
  rewrite Hri, Hrj. by apply lookup_swap.
Qed.

Lemma swap_length m i j : length (swap i j m) = length m.
Proof. unfold swap. repeat case_match; by rewrite ?length_insert. Qed.

Lemma swap_same m i : swap i i m = m.
Proof.
  unfold swap. destruct (m !! i) as [ri|] eqn:E; [|done].
  rewrite (list_insert_id m i ri E). apply list_insert_id, E.
Qed.

Lemma swap_rect ncols m i j : rect ncols m -> rect ncols (swap i j m).
Proof.
  intros Hr. unfold swap.
  destruct (m !! i) as [ri|] eqn:Ei; [|done]. destruct (m !! j) as [rj|] eqn:Ej; [|done].
  apply Forall_insert; [apply Forall_insert|]; try done.
  - eapply rect_lookup; eauto.
  - eapply rect_lookup; eauto.
Qed.

Lemma bit_swap m i j k c :
  (i < length m)%nat -> (j < length m)%nat -> bit (swap i j m) k c = bit m (transp i j k) c.
Proof. intros Hi Hj. unfold bit. by rewrite swap_lookup. Qed.

Lemma clear_column_length c r m : length (clear_column c r m) = length m.
Proof. unfold clear_column. case_match; by rewrite ?length_imap. Qed.

Lemma xor_row_length ncols row1 row2 :
  length row1 = ncols -> length row2 = ncols -> length (xor_row row1 row2) = ncols.
Proof. intros H1 H2. unfold xor_row. rewrite length_zip_with. lia. Qed.

Lemma clear_column_rect ncols c r m : rect ncols m -> rect ncols (clear_column c r m).
Proof.
  intros Hr. unfold clear_column. destruct (m !! r) as [pr|] eqn:E; [|done].
  assert (Hpr : length pr = ncols) by (eapply rect_lookup; eauto).
  apply Forall_lookup_2. intros i row. rewrite list_lookup_imap.
  destruct (m !! i) as [row0|] eqn:Ei; [|done]. simpl. intros [= <-].
  assert (length row0 = ncols) by (eapply rect_lookup; eauto).
  case_match; [by apply xor_row_length | done].
Qed.

Lemma xor_row_lookup ncols row1 row2 j :
  length row1 = ncols -> length row2 = ncols ->
  default false (xor_row row1 row2 !! j)
  = xorb (default false (row1 !! j)) (default false (row2 !! j)).
Proof.
  intros H1 H2. unfold xor_row. rewrite lookup_zip_with.
  destruct (row1 !! j) as [a|] eqn:E1; simpl.
  - destruct (lookup_lt_is_Some_2 row2 j) as [b Hb].
    { apply lookup_lt_Some in E1. lia. }
    by rewrite Hb.
  - apply lookup_ge_None_1 in E1. rewrite (lookup_ge_None_2 row2) by lia. done.
Qed.

Lemma bit_clear_column ncols c r m i j :
  rect ncols m -> (r < length m)%nat ->
  bit (clear_column c r m) i j
  = if (negb (i =? r)%nat && bit m i c)%bool
    then xorb (bit m i j) (bit m r j) else bit m i j.
Proof.
  intros Hr Hlt. unfold clear_column.
  destruct (lookup_lt_is_Some_2 m r Hlt) as [pr Hpr]. rewrite Hpr.
  unfold bit at 1. rewrite list_lookup_imap.
  destruct (m !! i) as [row|] eqn:Ei; simpl.
  - rewrite (bit_lookup m i c row Ei), (bit_lookup m i j row Ei), (bit_lookup m r j pr Hpr).
    case_match; [|done].
    apply (xor_row_lookup ncols); eapply rect_lookup; eauto.
  - rewrite (bit_ge_rows m i) by (by apply lookup_ge_None_1).
    rewrite andb_false_r. by rewrite bit_ge_rows by (by apply lookup_ge_None_1).
Qed.

Lemma find_row_None c r m :
  find_row c r m = None <-> forall i, (r <= i)%nat -> bit m i c = false.
Proof.
  unfold find_row. rewrite fmap_None, list_find_None, Forall_lookup. split.
  - intros H i Hi. unfold bit. destruct (m !! i) as [row|] eqn:E; [|done]. simpl.
    specialize (H (i - r)%nat row). rewrite lookup_drop in H.
    replace (r + (i - r))%nat with i in H by lia. specialize (H E).
    destruct (row !! c) as [[]|]; done.
  - intros H k row Hk. rewrite lookup_drop in Hk.
    specialize (H (r + k)%nat ltac:(lia)). rewrite (bit_lookup _ _ _ _ Hk) in H.
    intros Hc. by rewrite Hc in H.
Qed.

Lemma find_row_Some c r m i :
  find_row c r m = Some i -> (r <= i < length m)%nat /\ bit m i c = true.
Proof.
  unfold find_row. intros H. apply fmap_Some in H as ([k row] & Hf & ->).
  apply list_find_Some in Hf as (Hk & Hc & _). rewrite lookup_drop in Hk. simpl.
  split; [apply lookup_lt_Some in Hk; lia|].
  rewrite (bit_lookup _ _ _ _ Hk). by rewrite Hc.
Qed.

Lemma eliminate_done columns r m :
  (length m <= r)%nat -> eliminate columns r m = (m, []).
Proof.
  intros Hr. induction columns as [|c columns IH]; [done|]. simpl.
  assert (Hn : find_row c r m = None).
  { apply find_row_None. intros i Hi. apply bit_ge_rows. lia. }
  by rewrite Hn.
Qed.

Lemma eliminate_length columns r m : length (fst (eliminate columns r m)) = length m.
Proof.
  revert r m. induction columns as [|c columns IH]; intros r m; [done|]. simpl.
  destruct (find_row c r m) as [i|]; simpl; [|apply IH].
  by rewrite IH, clear_column_length, swap_length.
Qed.

Lemma eliminate_rect ncols columns r m :
  rect ncols m -> rect ncols (fst (eliminate columns r m)).
Proof.
  revert r m. induction columns as [|c columns IH]; intros r m Hm; [done|]. simpl.
  destruct (find_row c r m) as [i|]; simpl; [|by apply IH].
  by apply IH, clear_column_rect, swap_rect.
Qed.

End GF2Facts.

Section Echelon.
Import GF2.
Implicit Types (m : list (list bool)).

Lemma echelon_start m : echelon_upto 0 0 [] m.
Proof.
  unfold echelon_upto. split; [done|]. split; [lia|]. split; [constructor|].
  split; [constructor|]. split; [|intros; lia].
  intros i j0 H. by rewrite lookup_nil in H.
Qed.

Lemma echelon_step_none c r ps m :
  echelon_upto c r ps m -> find_row c r m = None -> echelon_upto (S c) r ps m.
Proof.
  intros (Hlen & Hr & Hs & Hlt & Hp & Hz) Hn.
  rewrite find_row_None in Hn.
  split; [done|]. split; [done|]. split; [done|]. split; [|split; [done|]].
  - eapply Forall_impl; [exact Hlt|]. simpl. lia.
  - intros i j Hi Hj. destruct (decide (j = c)) as [->|]; [by apply Hn|].
    apply Hz; lia.
Qed.

Lemma echelon_step_some ncols c r ps m i0 :
  rect ncols m -> echelon_upto c r ps m -> find_row c r m = Some i0 ->
  echelon_upto (S c) (S r) (ps ++ [c]) (clear_column c r (swap r i0 m)).
Proof.
  intros Hrect (Hlen & Hr & Hs & Hlt & Hp & Hz) Hf.
  apply find_row_Some in Hf as [Hi0 Hb0].
  set (m1 := swap r i0 m). set (m2 := clear_column c r m1).
  assert (Hrl : (r < length m)%nat) by lia.
  assert (H1 : forall k j, bit m1 k j = bit m (transp r i0 k) j).
  { intros k j. apply bit_swap; lia. }
  assert (H2 : forall i j, bit m2 i j
            = if (negb (i =? r)%nat && bit m1 i c)%bool
              then xorb (bit m1 i j) (bit m1 r j) else bit m1 i j).
  { intros i j. apply (bit_clear_column ncols).
    - by apply swap_rect.
    - unfold m1. by rewrite swap_length. }
  assert (Htr : transp r i0 r = i0) by (unfold transp; by rewrite decide_True).
  assert (Hrow : forall j, (j < c)%nat -> bit m1 r j = false).
  { intros j Hj. rewrite H1, Htr. apply Hz; lia. }
  assert (Hpiv : bit m2 r c = true).
  { rewrite H2, Nat.eqb_refl. simpl. by rewrite H1, Htr. }
  assert (Hlow : forall i j, (j < c)%nat -> bit m2 i j = bit m (transp r i0 i) j).
  { intros i j Hj. rewrite H2, (Hrow j Hj), xorb_false_r, H1. by case_match. }
  assert (Hcol : forall i, i <> r -> bit m2 i c = false).
  { intros i Hi. rewrite H2. apply Nat.eqb_neq in Hi. rewrite Hi. simpl.
    destruct (bit m1 i c) eqn:E; [|done].
    rewrite (H1 r c), Htr, Hb0. done. }
  assert (Hge : forall i, (r <= i)%nat -> (r <= transp r i0 i)%nat).
  { intros i Hi. unfold transp. repeat case_decide; lia. }
  assert (Hfix : forall i, (i < r)%nat -> transp r i0 i = i).
  { intros i Hi. unfold transp. repeat case_decide; lia. }
  split; [rewrite length_app; simpl; lia|].
  split; [unfold m2, m1; rewrite clear_column_length, swap_length; lia|].
  split.
  { apply StronglySorted_app_2; [|done|repeat constructor].
    intros x1 x2 Hx1 Hx2. apply list_elem_of_singleton in Hx2. subst x2.
    rewrite Forall_forall in Hlt. by apply Hlt. }
  split.
  { apply Forall_app. split; [|repeat constructor].
    eapply Forall_impl; [exact Hlt|]. simpl. lia. }
  split.
  - intros i j0 Hij. apply lookup_app_Some in Hij as [Hij | [Hge' Hij]].
    + pose proof (lookup_lt_Some _ _ _ Hij) as Hi. rewrite Hlen in Hi.
      assert (Hj0 : (j0 < c)%nat).
      { rewrite Forall_lookup in Hlt. by apply (Hlt i). }
      destruct (Hp i j0 Hij) as (Ha & Hb & Hc).
      split; [by rewrite Hlow, Hfix|].
      split.
      * intros j Hj. rewrite Hlow, Hfix by lia. by apply Hb.
      * intros i' Hi'. rewrite Hlow by done. apply Hc.
        destruct (decide (i' < r)%nat); [by rewrite Hfix|].
        pose proof (Hge i' ltac:(lia)). lia.
    + rewrite Hlen in Hge', Hij.
      destruct (i - r)%nat as [|k] eqn:Ek; simpl in Hij; [|by rewrite lookup_nil in Hij].
      injection Hij as <-. assert (i = r) by lia. subst i.
      split; [done|]. split; [|exact Hcol].
      intros j Hj. rewrite Hlow, Htr by done. apply Hz; lia.
  - intros i j Hi Hj. destruct (decide (j = c)) as [->|].
    + apply Hcol. lia.
    + rewrite Hlow by lia. apply Hz; [|lia]. apply Hge. lia.
Qed.

Lemma eliminate_echelon ncols k c r ps m :
  rect ncols m -> echelon_upto c r ps m ->
  echelon_upto (c + k) (r + length (snd (eliminate (seq c k) r m)))
    (ps ++ snd (eliminate (seq c k) r m)) (fst (eliminate (seq c k) r m)).
Proof.
  revert c r ps m. induction k as [|k IH]; intros c r ps m Hrect He.
  - simpl. by rewrite Nat.add_0_r, Nat.add_0_r, app_nil_r.
  - simpl. destruct (find_row c r m) as [i0|] eqn:Hf.
    + simpl. specialize (IH (S c) (S r) (ps ++ [c]) (clear_column c r (swap r i0 m))).
      rewrite <- app_assoc in IH. simpl in IH.
      replace (c + S k)%nat with (S c + k)%nat by lia.
      replace (r + S (length (snd (eliminate (seq (S c) k) (S r)
                 (clear_column c r (swap r i0 m))))))%nat
        with (S r + length (snd (eliminate (seq (S c) k) (S r)
                 (clear_column c r (swap r i0 m)))))%nat by lia.
      apply IH.
      * by apply clear_column_rect, swap_rect.
      * by apply (echelon_step_some ncols).
    + replace (c + S k)%nat with (S c + k)%nat by lia.
      apply IH; [done|]. by apply echelon_step_none.
Qed.

(** The elimination returns a matrix in reduced row-echelon form. *)
Lemma rref_is_rref ncols m :
  rect ncols m -> is_rref (pivots ncols m) (rref ncols m).
Proof.
  intros Hrect. unfold pivots, rref.
  pose proof (eliminate_echelon ncols ncols 0 0 [] m Hrect (echelon_start m)) as He.
  simpl in He. destruct He as (Hlen & Hr & Hs & Hlt & Hp & Hz).
  split; [done|]. split; [lia|]. split; [done|].
  intros i j Hi. destruct (decide (j < ncols)%nat).
  - apply Hz; lia.
  - apply (bit_ge_cols ncols); [by apply eliminate_rect | lia].
Qed.

End Echelon.

Section Solutions.
Import GF2.
Implicit Types (m : list (list bool)) (row s : list bool).

Lemma dot_xor_row row1 row2 s :
  length row1 = length row2 ->
  dot (xor_row row1 row2) s = xorb (dot row1 s) (dot row2 s).
Proof.
  revert row2 s. induction row1 as [|a row1 IH]; intros [|b row2] s Hlen; try done.
  destruct s as [|x s]; [done|]. unfold dot, xor_row in *. simpl.
  rewrite IH by (simpl in Hlen; lia).
  destruct a, b, x; simpl; by destruct (foldr _ _ _), (foldr _ _ _).
Qed.

Lemma transp_involutive (i j k : nat) : transp i j (transp i j k) = k.
Proof. unfold transp. repeat case_decide; congruence. Qed.

Lemma swap_solves m i j s : solves (swap i j m) s <-> solves m s.
Proof.
  unfold swap. destruct (m !! i) as [ri|] eqn:Ei; [|done].
  destruct (m !! j) as [rj|] eqn:Ej; [|done].
  unfold solves. rewrite !Forall_lookup. split; intros H k row Hk.
  - apply (H (transp i j k)). rewrite (lookup_swap m i j _ ri rj Ei Ej).
    by rewrite transp_involutive.
  - rewrite (lookup_swap m i j _ ri rj Ei Ej) in Hk. by apply (H _ _ Hk).
Qed.

Lemma clear_column_solves ncols c r m s :
  rect ncols m -> solves (clear_column c r m) s <-> solves m s.
Proof.
  intros Hrect. unfold clear_column. destruct (m !! r) as [pr|] eqn:Er; [|done].
  pose proof (rect_lookup _ _ _ _ Hrect Er) as Hlpr.
  unfold solves. rewrite !Forall_lookup. split; intros H.
  - assert (Hpr : dot pr s = false).
    { apply (H r). rewrite list_lookup_imap, Er. simpl.
      by rewrite Nat.eqb_refl. }
    intros i row Hi. pose proof (rect_lookup _ _ _ _ Hrect Hi) as Hlrow.
    specialize (H i). rewrite list_lookup_imap, Hi in H. simpl in H.
    specialize (H _ eq_refl). destruct (_ && _)%bool; [|done].
    rewrite dot_xor_row, Hpr, xorb_false_r in H by lia. done.
  - intros i row'. rewrite list_lookup_imap.
    destruct (m !! i) as [row|] eqn:Hi; [|done]. simpl. intros [= <-].
    pose proof (rect_lookup _ _ _ _ Hrect Hi) as Hlrow.
    destruct (_ && _)%bool; [|by apply (H i)].
    rewrite dot_xor_row by lia. by rewrite (H i row Hi), (H r pr Er).
Qed.

Lemma eliminate_solves ncols columns r m s :
  rect ncols m -> solves (fst (eliminate columns r m)) s <-> solves m s.
Proof.
  revert r m. induction columns as [|c columns IH]; intros r m Hrect; [done|].
  simpl. destruct (find_row c r m) as [i|]; simpl; [|by apply IH].
  rewrite IH by (by apply clear_column_rect, swap_rect).
  rewrite (clear_column_solves ncols) by (by apply swap_rect).
  apply swap_solves.
Qed.

(** The elimination keeps the solutions of the system. *)
Lemma rref_solves ncols m s :
  rect ncols m -> solves (rref ncols m) s <-> solves m s.
Proof. apply eliminate_solves. Qed.

End Solutions.

(** ** The sympy row reduction read modulo 2 *)

Section Parity.
Import Sympy.

Lemma is_int_of_Z (z : Z) : is_int (of_Z z).
Proof. apply denom_of_Z. Qed.

Lemma is_int_eq (x : Qc) : is_int x -> x = of_Z (numer x).
Proof.
  unfold is_int, denom, numer. intros Hd. apply Qc_is_canon.
  rewrite this_of_Z. destruct (this x) as [n d]. simpl in *.
  injection Hd as ->. reflexivity.
Qed.

Lemma parity_of_Z (z : Z) : parity (of_Z z) = Z.odd z.
Proof. unfold parity. by rewrite numer_of_Z. Qed.

Lemma iszerofunc_int (x : Qc) :
  is_int x -> PostProcessing.iszerofunc x = negb (parity x).
Proof.
  intros Hx. rewrite (is_int_eq x Hx), iszerofunc_of_Z, parity_of_Z.
  by rewrite Z.negb_odd.
Qed.

Lemma cross_int (a b x y : Qc) :
  is_int a -> is_int b -> is_int x -> is_int y ->
  is_int (a * x - b * y)%Qc
  /\ parity (a * x - b * y)%Qc
     = xorb (parity a && parity x) (parity b && parity y).
Proof.
  intros Ha Hb Hx Hy.
  rewrite (is_int_eq a Ha), (is_int_eq b Hb), (is_int_eq x Hx), (is_int_eq y Hy).
  rewrite !of_Z_mul, of_Z_sub, !parity_of_Z. split; [apply is_int_of_Z|].
  by rewrite Z.odd_sub, !Z.odd_mul.
Qed.

Lemma is_int_default (row : list Qc) (j : nat) :
  Forall is_int row -> is_int (default (of_Z 0) (row !! j)).
Proof.
  intros Hrow. destruct (row !! j) as [x|] eqn:E; simpl; [|apply is_int_of_Z].
  by apply (Forall_lookup_1 _ _ _ _ Hrow E).
Qed.

Lemma parity_default (row : list Qc) (j : nat) :
  parity (default (of_Z 0) (row !! j)) = default false ((parity <$> row) !! j).
Proof. rewrite list_lookup_fmap. by destruct (row !! j). Qed.

Lemma bits_lookup (mat : list (list Qc)) (i : nat) :
  bits_of_matrix mat !! i = (fun row : list Qc => parity <$> row) <$> mat !! i.
Proof. unfold bits_of_matrix. by rewrite list_lookup_fmap. Qed.

Lemma bits_length (mat : list (list Qc)) : length (bits_of_matrix mat) = length mat.
Proof. unfold bits_of_matrix. by rewrite length_fmap. Qed.

Lemma bits_rect ncols (mat : list (list Qc)) :
  rect ncols mat -> rect ncols (bits_of_matrix mat).
Proof.
  unfold rect, bits_of_matrix. intros H. apply Forall_fmap.
  eapply Forall_impl; [exact H|]. intros row Hrow. simpl. by rewrite length_fmap.
Qed.

Lemma bit_bits (mat : list (list Qc)) (i j : nat) :
  GF2.bit (bits_of_matrix mat) i j = parity (entry mat i j).
Proof.
  unfold GF2.bit, entry. rewrite bits_lookup.
  destruct (mat !! i) as [row|]; simpl; [|done].
  by rewrite parity_default.
Qed.

Lemma int_matrix_lookup (mat : list (list Qc)) (i : nat) (row : list Qc) :
  int_matrix mat -> mat !! i = Some row -> Forall is_int row.
Proof. unfold int_matrix. rewrite Forall_lookup. eauto. Qed.

Lemma is_int_entry (mat : list (list Qc)) (i j : nat) :
  int_matrix mat -> is_int (entry mat i j).
Proof.
  intros Hm. unfold entry. destruct (mat !! i) as [row|] eqn:E; simpl.
  - apply is_int_default. by eapply int_matrix_lookup.
  - apply is_int_of_Z.
Qed.

(** *** Finding the pivot *)

Lemma pivot_test_bits (mat : list (list Qc)) (r c k : nat) (row : list Qc) :
  int_matrix mat -> mat !! (r + k)%nat = Some row ->
  PostProcessing.iszerofunc (default (of_Z 0) (row !! c)) = false
  <-> (parity <$> row) !! c = Some true.
Proof.
  intros Hint Hk. pose proof (int_matrix_lookup _ _ _ Hint Hk) as Hrow.
  rewrite (iszerofunc_int _ (is_int_default row c Hrow)), parity_default.
  destruct ((parity <$> row) !! c) as [[]|]; simpl; naive_solver.
Qed.

Lemma find_pivot_bits (mat : list (list Qc)) (r c : nat) :
  int_matrix mat ->
  GF2.find_row c r (bits_of_matrix mat)
  = (fun p => (r + fst p)%nat)
      <$> find_reasonable_pivot PostProcessing.iszerofunc (drop r (get_col c mat)).
Proof.
  intros Hint. unfold GF2.find_row, find_reasonable_pivot.
  destruct (list_find _ (drop r (get_col c mat))) as [[off pv]|] eqn:Hf; simpl.
  - apply list_find_Some in Hf as (Hl & Hz & Hbefore).
    unfold get_col in Hl, Hbefore. rewrite lookup_drop, list_lookup_fmap in Hl.
    destruct (mat !! (r + off)%nat) as [row|] eqn:E; [|done]. simpl in Hl.
    injection Hl as <-.
    apply fmap_Some. exists (off, parity <$> row). split; [|done].
    apply list_find_Some. split; [|split].
    + by rewrite lookup_drop, bits_lookup, E.
    + by apply (pivot_test_bits mat r c off row).
    + intros j y Hj Hlt. rewrite lookup_drop, bits_lookup in Hj.
      destruct (mat !! (r + j)%nat) as [row'|] eqn:E'; [|done]. simpl in Hj.
      injection Hj as <-. rewrite <- (pivot_test_bits mat r c j row') by done.
      apply (Hbefore j); [|done].
      by rewrite lookup_drop, list_lookup_fmap, E'.
  - apply fmap_None. apply list_find_None. apply list_find_None in Hf.
    apply Forall_lookup_2. intros k y Hk. rewrite lookup_drop, bits_lookup in Hk.
    destruct (mat !! (r + k)%nat) as [row|] eqn:E; [|done]. simpl in Hk.
    injection Hk as <-. rewrite <- (pivot_test_bits mat r c k row) by done.
    apply (Forall_lookup_1 _ _ k _ Hf).
    unfold get_col. by rewrite lookup_drop, list_lookup_fmap, E.
Qed.

Lemma find_pivot_value (mat : list (list Qc)) (r c off : nat) (pv : Qc) :
  int_matrix mat ->
  find_reasonable_pivot PostProcessing.iszerofunc (drop r (get_col c mat)) = Some (off, pv) ->
  pv = entry mat (r + off) c /\ parity pv = true /\ is_int pv
  /\ (r + off < length mat)%nat.
Proof.
  intros Hint Hf. unfold find_reasonable_pivot in Hf.
  apply list_find_Some in Hf as (Hl & Hz & _).
  unfold get_col in Hl. rewrite lookup_drop, list_lookup_fmap in Hl.
  destruct (mat !! (r + off)%nat) as [row|] eqn:E; [|done]. simpl in Hl.
  injection Hl as <-.
  pose proof (is_int_default row c (int_matrix_lookup _ _ _ Hint E)) as Hi.
  split; [unfold entry; by rewrite E|].
  rewrite iszerofunc_int in Hz by done. apply negb_false_iff in Hz.
  split; [done|]. split; [done|]. by apply lookup_lt_Some in E.
Qed.

(** *** Exchanging two rows *)

Lemma row_swap_bits (mat : list (list Qc)) (i j : nat) :
  bits_of_matrix (row_swap i j mat) = GF2.swap i j (bits_of_matrix mat).
Proof.
  unfold row_swap, GF2.swap. rewrite !bits_lookup.
  destruct (mat !! i) as [ri|]; simpl; [|done].
  destruct (mat !! j) as [rj|]; simpl; [|done].
  unfold bits_of_matrix. by rewrite !list_fmap_insert.
Qed.

Lemma row_swap_int (mat : list (list Qc)) (i j : nat) :
  int_matrix mat -> int_matrix (row_swap i j mat).
Proof.
  intros Hm. unfold row_swap.
  destruct (mat !! i) as [ri|] eqn:Ei; [|done]. destruct (mat !! j) as [rj|] eqn:Ej; [|done].
  apply Forall_insert; [apply Forall_insert|]; try done.
  - by eapply int_matrix_lookup.
  - by eapply int_matrix_lookup.
Qed.

Lemma row_swap_rect ncols (mat : list (list Qc)) (i j : nat) :
  rect ncols mat -> rect ncols (row_swap i j mat).
Proof.
  intros Hm. unfold row_swap.
  destruct (mat !! i) as [ri|] eqn:Ei; [|done]. destruct (mat !! j) as [rj|] eqn:Ej; [|done].
  apply Forall_insert; [apply Forall_insert|]; try done.
  - by eapply rect_lookup.
  - by eapply rect_lookup.
Qed.

Lemma row_swap_length (mat : list (list Qc)) (i j : nat) :
  length (row_swap i j mat) = length mat.
Proof. unfold row_swap. repeat case_match; by rewrite ?length_insert. Qed.

End Parity.

Section ZeroLoop.
Import Sympy.
Variable iszerofunc : Qc -> bool.

Lemma zero_loop_lookup (mat : list (list Qc)) (r c : nat) (pv : Qc) (pr : list Qc) :
  mat !! r = Some pr ->
  forall k i,
    foldl (zero_row iszerofunc r c pv) mat (seq 0 k) !! i
    = if decide (i < k)%nat then zeroed_row iszerofunc r c pv pr i <$> mat !! i
      else mat !! i.
Proof.
  intros Hpr. induction k as [|k IH]; intros i.
  - cbn [seq foldl]. case_decide; [lia|done].
  - rewrite seq_S, foldl_snoc. cbn [Nat.add].
    set (cur := foldl (zero_row iszerofunc r c pv) mat (seq 0 k)) in *.
    assert (Hk : cur !! k = mat !! k).
    { rewrite IH. by rewrite decide_False by lia. }
    assert (Hr : cur !! r = Some pr).
    { rewrite IH. case_decide; [|done]. rewrite Hpr. simpl.
      unfold zeroed_row. by rewrite Nat.eqb_refl. }
    unfold zero_row, entry. rewrite Hk.
    destruct (decide (i = k)) as [->|Hne].
    + rewrite decide_True by lia. unfold zeroed_row.
      destruct (k =? r)%nat eqn:Ekr.
      { rewrite Hk. by destruct (mat !! k). }
      destruct (mat !! k) as [rk|] eqn:Emk; simpl.
      * destruct (iszerofunc (default (of_Z 0) (rk !! c))) eqn:Ez.
        { by rewrite Hk. }
        unfold cross_cancel. rewrite Hk, Hr.
        rewrite list_lookup_insert_eq; [done|].
        apply lookup_lt_is_Some. rewrite Hk. by eexists.
      * destruct (iszerofunc (of_Z 0)); [by rewrite Hk|].
        unfold cross_cancel. by rewrite Hk.
    + assert (Hcur : cur !! i
                     = if decide (i < S k)%nat
                       then zeroed_row iszerofunc r c pv pr i <$> mat !! i
                       else mat !! i).
      { rewrite IH. repeat case_decide; try done; lia. }
      destruct (k =? r)%nat; [done|].
      destruct (iszerofunc _); [done|].
      unfold cross_cancel. rewrite Hk, Hr.
      destruct (mat !! k); [|done].
      by rewrite list_lookup_insert_ne.
Qed.

Lemma zero_loop_imap (mat : list (list Qc)) (r c : nat) (pv : Qc) (pr : list Qc) :
  mat !! r = Some pr ->
  foldl (zero_row iszerofunc r c pv) mat (seq 0 (rows mat))
  = imap (zeroed_row iszerofunc r c pv pr) mat.
Proof.
  intros Hpr. apply list_eq. intros i.
  rewrite (zero_loop_lookup mat r c pv pr Hpr), list_lookup_imap.
  case_decide as Hi; [done|].
  unfold rows in Hi. rewrite (lookup_ge_None_2 mat i) by lia. done.
Qed.

End ZeroLoop.

Section ZeroLoopBits.
Import Sympy.

Lemma cancel_bits (pv val : Qc) (row pr : list Qc) :
  is_int pv -> is_int val -> parity pv = true -> parity val = true ->
  Forall is_int row -> Forall is_int pr ->
  Forall is_int (zip_with (fun x y => (pv * x - val * y)%Qc) row pr)
  /\ parity <$> zip_with (fun x y => (pv * x - val * y)%Qc) row pr
     = GF2.xor_row (parity <$> row) (parity <$> pr).
Proof.
  intros Hpv Hval Hppv Hpval Hrow. revert pr.
  induction Hrow as [|x row Hx Hrow IH]; intros pr Hpr; [by split|].
  destruct Hpr as [|y pr Hy Hpr]; [by split|].
  destruct (IH pr Hpr) as [IH1 IH2].
  destruct (cross_int pv val x y Hpv Hval Hx Hy) as [Hi Hp].
  split; [by constructor|].
  cbn [zip_with fmap list_fmap GF2.xor_row]. unfold GF2.xor_row in IH2.
  rewrite Hp, Hppv, Hpval. simpl. f_equal. exact IH2.
Qed.

Lemma zeroed_row_bits (r c i : nat) (pv : Qc) (row pr : list Qc) :
  is_int pv -> parity pv = true -> Forall is_int row -> Forall is_int pr ->
  Forall is_int (zeroed_row PostProcessing.iszerofunc r c pv pr i row)
  /\ parity <$> zeroed_row PostProcessing.iszerofunc r c pv pr i row
     = if (negb (i =? r)%nat && default false ((parity <$> row) !! c))%bool
       then GF2.xor_row (parity <$> row) (parity <$> pr)
       else parity <$> row.
Proof.
  intros Hpv Hppv Hrow Hpr. unfold zeroed_row.
  destruct (i =? r)%nat; [by split|]. simpl.
  pose proof (is_int_default row c Hrow) as Hval.
  rewrite (iszerofunc_int _ Hval), <- parity_default.
  destruct (parity (default (of_Z 0) (row !! c))) eqn:Hp; simpl; [|by split].
  by apply cancel_bits.
Qed.

Lemma zero_loop_bits (mat : list (list Qc)) (r c : nat) (pv : Qc) (pr : list Qc) :
  int_matrix mat -> mat !! r = Some pr -> is_int pv -> parity pv = true ->
  bits_of_matrix (imap (zeroed_row PostProcessing.iszerofunc r c pv pr) mat)
  = GF2.clear_column c r (bits_of_matrix mat)
  /\ int_matrix (imap (zeroed_row PostProcessing.iszerofunc r c pv pr) mat).
Proof.
  intros Hint Hpr Hpv Hppv.
  pose proof (int_matrix_lookup _ _ _ Hint Hpr) as Hipr. split.
  - apply list_eq. intros i. unfold GF2.clear_column.
    rewrite (bits_lookup mat r), Hpr. simpl.
    rewrite bits_lookup, !list_lookup_imap, bits_lookup.
    destruct (mat !! i) as [row|] eqn:E; [|done]. simpl. f_equal.
    apply zeroed_row_bits; try done. by eapply int_matrix_lookup.
  - apply Forall_lookup_2. intros i row. rewrite list_lookup_imap.
    destruct (mat !! i) as [row0|] eqn:E; [|done]. simpl. intros [= <-].
    apply zeroed_row_bits; try done. by eapply int_matrix_lookup.
Qed.

Lemma zeroed_row_length ncols (r c i : nat) (pv : Qc) (row pr : list Qc) :
  length row = ncols -> length pr = ncols ->
  length (zeroed_row PostProcessing.iszerofunc r c pv pr i row) = ncols.
Proof.
  intros H1 H2. unfold zeroed_row. repeat case_match; try done.
  rewrite length_zip_with. lia.
Qed.

Lemma zero_loop_rect ncols (mat : list (list Qc)) (r c : nat) (pv : Qc) (pr : list Qc) :
  rect ncols mat -> mat !! r = Some pr ->
  rect ncols (imap (zeroed_row PostProcessing.iszerofunc r c pv pr) mat).
Proof.
  intros Hrect Hpr. apply Forall_lookup_2. intros i row. rewrite list_lookup_imap.
  destruct (mat !! i) as [row0|] eqn:E; [|done]. simpl. intros [= <-].
  apply zeroed_row_length; by eapply rect_lookup.
Qed.

End ZeroLoopBits.

(** *** The main loop *)

Section MainLoop.
Import Sympy.
Variables nrows ncols : nat.


Lemma loop_exit (fuel : nat) (st : state) :
  ((piv_col st <? ncols)%nat && (piv_row st <? nrows)%nat)%bool = false ->
  loop PostProcessing.iszerofunc fuel nrows ncols st = Some st.
Proof. intros H. destruct fuel; simpl; by rewrite H. Qed.

Lemma loop_unfold (fuel : nat) (st : state) :
  ((piv_col st <? ncols)%nat && (piv_row st <? nrows)%nat)%bool = true ->
  loop PostProcessing.iszerofunc (S fuel) nrows ncols st = loop PostProcessing.iszerofunc fuel nrows ncols (step PostProcessing.iszerofunc st).
Proof. intros H. simpl. by rewrite H. Qed.

Lemma step_no_pivot (mat : list (list Qc)) (r c : nat) (pcs : list nat) :
  int_matrix mat ->
  GF2.find_row c r (bits_of_matrix mat) = None ->
  step PostProcessing.iszerofunc (State mat r c pcs) = State mat r (S c) pcs.
Proof.
  intros Hint Hf. rewrite find_pivot_bits in Hf by done.
  apply fmap_None in Hf. unfold step. simpl. by rewrite Hf.
Qed.

Lemma step_pivot (mat : list (list Qc)) (r c i0 : nat) (pcs : list nat) :
  int_matrix mat -> rect ncols mat ->
  GF2.find_row c r (bits_of_matrix mat) = Some i0 ->
  exists mat2,
    step PostProcessing.iszerofunc (State mat r c pcs) = State mat2 (S r) c (pcs ++ [c])
    /\ bits_of_matrix mat2
       = GF2.clear_column c r (GF2.swap r i0 (bits_of_matrix mat))
    /\ int_matrix mat2 /\ rect ncols mat2 /\ length mat2 = length mat.
Proof.
  intros Hint Hrect Hf. rewrite find_pivot_bits in Hf by done.
  apply fmap_Some in Hf as ([off pv] & Hf & ->). simpl.
  destruct (find_pivot_value mat r c off pv Hint Hf) as (Hpv & Hppv & Hipv & Hlt).
  set (mat1 := if (off =? 0)%nat then mat else row_swap r (off + r) mat).
  assert (Hb1 : bits_of_matrix mat1 = GF2.swap r (r + off) (bits_of_matrix mat)).
  { unfold mat1. destruct (off =? 0)%nat eqn:E.
    - apply Nat.eqb_eq in E. subst off. by rewrite Nat.add_0_r, swap_same.
    - by rewrite row_swap_bits, (Nat.add_comm off r). }
  assert (Hi1 : int_matrix mat1).
  { unfold mat1. destruct (off =? 0)%nat; [done | by apply row_swap_int]. }
  assert (Hr1 : rect ncols mat1).
  { unfold mat1. destruct (off =? 0)%nat; [done | by apply row_swap_rect]. }
  assert (Hl1 : length mat1 = length mat).
  { unfold mat1. destruct (off =? 0)%nat; [done | by apply row_swap_length]. }
  destruct (lookup_lt_is_Some_2 mat1 r) as [pr Hpr]; [lia|].
  destruct (zero_loop_bits mat1 r c pv pr Hi1 Hpr Hipv Hppv) as [Hb2 Hi2].
  exists (imap (zeroed_row PostProcessing.iszerofunc r c pv pr) mat1).
  split; [|split; [|split; [|split]]].
  - unfold step. cbn [st_mat piv_row piv_col pivot_cols]. rewrite Hf.
    fold mat1. f_equal.
    replace (rows mat) with (rows mat1) by exact Hl1.
    by apply zero_loop_imap.
  - by rewrite Hb2, Hb1.
  - exact Hi2.
  - by apply zero_loop_rect.
  - by rewrite length_imap.
Qed.

Lemma clear_column_no_pivot_below (m : list (list bool)) (c r : nat) :
  rect ncols m -> (r < length m)%nat -> GF2.bit m r c = true ->
  GF2.find_row c (S r) (GF2.clear_column c r m) = None.
Proof.
  intros Hrect Hr Hb. apply find_row_None. intros i Hi.
  rewrite (bit_clear_column ncols) by done.
  replace (i =? r)%nat with false by (symmetry; apply Nat.eqb_neq; lia). simpl.
  destruct (GF2.bit m i c) eqn:E; [|done]. by rewrite Hb.
Qed.

Lemma loop_simulates (k : nat) :
  forall (mat : list (list Qc)) (r c : nat) (pcs : list nat) (fuel : nat),
    int_matrix mat -> rect ncols mat -> length mat = nrows ->
    (c + k = ncols)%nat -> (r <= nrows)%nat -> (k + (nrows - r) <= fuel)%nat ->
    exists st',
      loop PostProcessing.iszerofunc fuel nrows ncols (State mat r c pcs) = Some st'
      /\ bits_of_matrix (st_mat st')
         = fst (GF2.eliminate (seq c k) r (bits_of_matrix mat))
      /\ pivot_cols st' = pcs ++ snd (GF2.eliminate (seq c k) r (bits_of_matrix mat))
      /\ int_matrix (st_mat st') /\ rect ncols (st_mat st').
Proof.
  induction k as [|k IH]; intros mat r c pcs fuel Hint Hrect Hlen Hc Hr Hfuel.
  - exists (State mat r c pcs). rewrite loop_exit.
    + simpl. by rewrite app_nil_r.
    + simpl. replace (c <? ncols)%nat with false; [done|].
      symmetry. apply Nat.ltb_ge. lia.
  - destruct (decide (r = nrows)) as [->|Hrn].
    { exists (State mat nrows c pcs). rewrite loop_exit.
      - rewrite eliminate_done by (rewrite bits_length; lia).
        simpl. by rewrite app_nil_r.
      - simpl. rewrite Nat.ltb_irrefl. apply andb_false_r. }
    assert (Hcond : ((c <? ncols)%nat && (r <? nrows)%nat)%bool = true).
    { apply andb_true_iff. split; apply Nat.ltb_lt; lia. }
    destruct fuel as [|fuel]; [lia|].
    rewrite loop_unfold by exact Hcond.
    cbn [seq GF2.eliminate].
    destruct (GF2.find_row c r (bits_of_matrix mat)) as [i0|] eqn:Hf.
    + destruct (step_pivot mat r c i0 pcs Hint Hrect Hf)
        as (mat2 & Hstep & Hb2 & Hi2 & Hr2 & Hl2).
      rewrite Hstep. rewrite <- Hb2. cbn [fst snd].
      destruct (decide (S r = nrows)) as [Hlast|Hmore].
      * exists (State mat2 (S r) c (pcs ++ [c])). rewrite loop_exit.
        -- rewrite eliminate_done by (rewrite bits_length; lia).
           simpl. by split.
        -- simpl. replace (S r <? nrows)%nat with false; [apply andb_false_r|].
           symmetry. apply Nat.ltb_ge. lia.
      * destruct fuel as [|fuel]; [lia|].
        rewrite loop_unfold.
        2:{ simpl. apply andb_true_iff. split; apply Nat.ltb_lt; lia. }
        rewrite step_no_pivot; [|done|].
        2:{ rewrite Hb2. apply find_row_Some in Hf as [Hi0 Hb0].
            rewrite bits_length in Hi0.
            apply clear_column_no_pivot_below.
            - by apply swap_rect, bits_rect.
            - rewrite swap_length, bits_length. lia.
            - rewrite bit_swap by (rewrite bits_length; lia).
              unfold transp. by rewrite decide_True. }
        destruct (IH mat2 (S r) (S c) (pcs ++ [c]) fuel)
          as (st' & Hloop & Hbits & Hpiv & Hint' & Hrect'); try done; try lia.
        exists st'. split; [exact Hloop|]. split; [exact Hbits|].
        split; [|by split]. rewrite Hpiv. by rewrite <- app_assoc.
    + rewrite step_no_pivot by done.
      destruct (IH mat r (S c) pcs fuel)
        as (st' & Hloop & Hbits & Hpiv & Hint' & Hrect'); try done; try lia.
      by exists st'.
Qed.

End MainLoop.

(** *** The final pass *)

Section Normalize.
Import Sympy.

Lemma normalize_snoc (pivots : list nat) (j : nat) (mat : list (list Qc)) :
  normalize (pivots ++ [j]) mat
  = alter (normalize_row j) (length pivots) (normalize pivots mat).
Proof.
  unfold normalize. rewrite imap_app, foldl_app. simpl.
  by rewrite Nat.add_0_r.
Qed.

Lemma normalize_lookup (pivots : list nat) (mat : list (list Qc)) (i : nat) :
  normalize pivots mat !! i = normalized_row pivots i <$> mat !! i.
Proof.
  revert i. induction pivots as [|j pivots IH] using rev_ind; intros i.
  - unfold normalize, normalized_row. simpl. by destruct (mat !! i).
  - rewrite normalize_snoc, list_lookup_alter. case_decide as Hi.
    + subst i. rewrite IH. unfold normalized_row.
      rewrite (lookup_ge_None_2 pivots) by lia.
      rewrite lookup_app_r by lia. rewrite Nat.sub_diag. simpl.
      by destruct (mat !! length pivots).
    + rewrite IH. unfold normalized_row.
      destruct (decide (i < length pivots)%nat).
      * by rewrite lookup_app_l.
      * rewrite (lookup_ge_None_2 pivots) by lia.
        rewrite lookup_app_r by lia.
        destruct (i - length pivots)%nat as [|d] eqn:E; [lia|]. done.
Qed.

Lemma is_int_odd_denom (x : Qc) : is_int x -> odd_denom x.
Proof. unfold is_int, odd_denom. by intros ->. Qed.

Lemma parity_one : parity one = true.
Proof. reflexivity. Qed.

Lemma odd_denom_one : odd_denom one.
Proof. reflexivity. Qed.

Lemma normalize_row_parity (j : nat) (row : list Qc) (pv : Qc) :
  Forall is_int row -> row !! j = Some pv -> parity pv = true ->
  Forall odd_denom (normalize_row j row)
  /\ parity <$> normalize_row j row = parity <$> row.
Proof.
  intros Hrow Hj Hpv. unfold normalize_row. rewrite Hj. simpl.
  assert (Hipv : is_int pv) by (by apply (Forall_lookup_1 _ _ _ _ Hrow Hj)).
  assert (Hstep : forall p x, row !! p = Some x ->
            let y := if (p <? j)%nat then x
                     else if (p =? j)%nat then one else (x / pv)%Qc in
            odd_denom y /\ parity y = parity x).
  { intros p x Hp. pose proof (Forall_lookup_1 _ _ _ _ Hrow Hp) as Hx. simpl in Hx.
    destruct (p <? j)%nat; [by split; [apply is_int_odd_denom|]|].
    destruct (p =? j)%nat eqn:E.
    - apply Nat.eqb_eq in E. subst p. rewrite Hj in Hp. injection Hp as ->.
      split; [apply odd_denom_one | by rewrite Hpv].
    - rewrite (is_int_eq x Hx), (is_int_eq pv Hipv).
      unfold odd_denom, parity. rewrite numer_of_Z.
      apply div_odd_parity. by rewrite <- parity_of_Z, <- is_int_eq. }
  split.
  - apply Forall_lookup_2. intros p y. rewrite list_lookup_imap.
    destruct (row !! p) as [x|] eqn:Hp; [|done]. simpl. intros [= <-].
    by apply (Hstep p x Hp).
  - apply list_eq. intros p. rewrite !list_lookup_fmap, list_lookup_imap.
    destruct (row !! p) as [x|] eqn:Hp; [|done]. simpl. f_equal.
    by apply (Hstep p x Hp).
Qed.

Lemma normalize_parity (pivots : list nat) (mat : list (list Qc)) :
  int_matrix mat ->
  (forall i j, pivots !! i = Some j -> GF2.bit (bits_of_matrix mat) i j = true) ->
  Forall (Forall odd_denom) (normalize pivots mat)
  /\ bits_of_matrix (normalize pivots mat) = bits_of_matrix mat.
Proof.
  intros Hint Hpiv.
  assert (Hrow : forall i row, mat !! i = Some row ->
            Forall odd_denom (normalized_row pivots i row)
            /\ parity <$> normalized_row pivots i row = parity <$> row).
  { intros i row Hi. pose proof (int_matrix_lookup _ _ _ Hint Hi) as Hrow.
    unfold normalized_row. destruct (pivots !! i) as [j|] eqn:Hj.
    - specialize (Hpiv i j Hj). rewrite bit_bits in Hpiv.
      unfold entry in Hpiv. rewrite Hi in Hpiv. simpl in Hpiv.
      destruct (row !! j) as [pv|] eqn:Hpv; [|done].
      by apply (normalize_row_parity j row pv).
    - split; [|done]. eapply Forall_impl; [exact Hrow|]. apply is_int_odd_denom. }
  split.
  - apply Forall_lookup_2. intros i row. rewrite normalize_lookup.
    destruct (mat !! i) as [row0|] eqn:Hi; [|done]. simpl. intros [= <-].
    by apply Hrow.
  - apply list_eq. intros i. rewrite !bits_lookup, normalize_lookup.
    destruct (mat !! i) as [row0|] eqn:Hi; [|done]. simpl. f_equal.
    by apply Hrow.
Qed.

Lemma applyfunc_odd_denom (M : list (list Qc)) :
  Forall (Forall odd_denom) M ->
  PostProcessing.applyfunc_mod2 M
  = Some ((fun row : list bool => Z.b2z <$> row) <$> bits_of_matrix M).
Proof.
  intros HM. unfold PostProcessing.applyfunc_mod2, bits_of_matrix.
  apply mapM_Some_2. rewrite <- list_fmap_compose. apply Forall2_fmap_r.
  apply Forall_Forall2_diag. eapply Forall_impl; [exact HM|].
  intros row Hrow. simpl. apply mapM_Some_2.
  rewrite <- list_fmap_compose. apply Forall2_fmap_r.
  apply Forall_Forall2_diag. eapply Forall_impl; [exact Hrow|].
  intros x Hx. simpl. by apply mod2_odd_denom.
Qed.

End Normalize.

(** *** The reduction of an integer matrix *)

Section Reduce.
Import Sympy.

Lemma Matrix_int (Y : list (list Z)) : int_matrix (Matrix Y).
Proof.
  unfold int_matrix, Matrix. apply Forall_fmap, Forall_true. intros row. simpl.
  apply Forall_fmap, Forall_true. intros z. apply is_int_of_Z.
Qed.

Lemma Matrix_rect ncols (Y : list (list Z)) : rect ncols Y -> rect ncols (Matrix Y).
Proof.
  unfold rect, Matrix. intros H. apply Forall_fmap.
  eapply Forall_impl; [exact H|]. intros row Hrow. simpl. by rewrite length_fmap.
Qed.

Lemma Matrix_bits (Y : list (list Z)) :
  bits_of_matrix (Matrix Y) = (fun row : list Z => Z.odd <$> row) <$> Y.
Proof.
  unfold bits_of_matrix, Matrix. rewrite <- list_fmap_compose.
  apply list_fmap_ext. intros _ row _. simpl. rewrite <- list_fmap_compose.
  apply list_fmap_ext. intros _ z _. simpl. apply parity_of_Z.
Qed.

Lemma rect_cols {A : Type} ncols (row : list A) (m : list (list A)) :
  rect ncols (row :: m) -> length row = ncols.
Proof. intros H. by apply Forall_cons in H as [H _]. Qed.

(** The sympy reduction of an integer matrix, read modulo 2, is the
    elimination over GF(2) of the matrix read modulo 2. *)
Lemma reduce_mod2_gf2 (ncols : nat) (Y : list (list Z)) :
  rect ncols Y ->
  PostProcessing.reduce_mod2 Y
  = Some ((fun row : list bool => Z.b2z <$> row)
            <$> GF2.rref ncols ((fun row : list Z => Z.odd <$> row) <$> Y)).
Proof.
  intros Hrect. unfold PostProcessing.reduce_mod2, rref.
  pose proof (Matrix_int Y) as Hint. pose proof (Matrix_rect ncols Y Hrect) as Hr.
  set (mat := Matrix Y) in *.
  assert (Hsim : exists st',
    loop PostProcessing.iszerofunc (rows mat + cols mat) (rows mat) (cols mat)
         (State mat 0 0 []) = Some st'
    /\ bits_of_matrix (st_mat st') = GF2.rref ncols (bits_of_matrix mat)
    /\ pivot_cols st' = GF2.pivots ncols (bits_of_matrix mat)
    /\ int_matrix (st_mat st')).
  { destruct mat as [|row mat'] eqn:Emat.
    - exists (State [] 0 0 []). split; [done|].
      unfold GF2.rref, GF2.pivots. by rewrite eliminate_done by (simpl; lia).
    - rewrite <- Emat in *. assert (Hcols : cols mat = ncols).
      { rewrite Emat in Hr |- *. simpl. by eapply rect_cols. }
      rewrite Hcols.
      destruct (loop_simulates (rows mat) ncols ncols mat 0 0 [] (rows mat + ncols))
        as (st' & Hloop & Hbits & Hpiv & Hint' & _); try done; try (unfold rows; lia).
      exists st'. by repeat split. }
  destruct Hsim as (st' & Hloop & Hbits & Hpiv & Hint').
  rewrite Hloop. simpl.
  destruct (normalize_parity (pivot_cols st') (st_mat st') Hint') as [Hodd Hnb].
  { intros i j Hij. rewrite Hbits. rewrite Hpiv in Hij.
    pose proof (rref_is_rref ncols (bits_of_matrix mat) (bits_rect _ _ Hr))
      as (_ & _ & Hp & _).
    by apply (Hp i j Hij). }
  rewrite (applyfunc_odd_denom _ Hodd), Hnb, Hbits. unfold mat.
  by rewrite Matrix_bits.
Qed.

End Reduce.

(** C2. On a 0/1 matrix [Y] the sympy row reduction with the zero test
    [x % 2 == 0], followed by [mod(x, 2)] on every entry, returns the matrix
    that Gaussian elimination under modulo-2 arithmetic computes from [Y]; this
    matrix is in reduced row-echelon form, has the solutions of [Y] over
    GF(2) and the shape of [Y], and its entries are 0 or 1. *)
Theorem rref_mod2_is_gf2_elimination (ncols : nat) (Y : list (list Z)) :
  rect ncols Y -> bit_matrix Y ->
  let Ybits := (fun row : list Z => Z.odd <$> row) <$> Y in
  exists Y_new,
    PostProcessing.reduce_mod2 Y = Some Y_new
    /\ Y_new = (fun row : list bool => Z.b2z <$> row) <$> GF2.rref ncols Ybits
    /\ GF2.is_rref (GF2.pivots ncols Ybits) (GF2.rref ncols Ybits)
    /\ (forall s, GF2.solves (GF2.rref ncols Ybits) s <-> GF2.solves Ybits s)
    /\ length Y_new = length Y /\ rect ncols Y_new
    /\ bit_matrix Y_new.
Proof.
  intros Hrect Hbits Ybits.
  assert (Hrb : rect ncols Ybits).
  { unfold Ybits, rect. apply Forall_fmap.
    eapply Forall_impl; [exact Hrect|]. intros row Hrow. simpl. by rewrite length_fmap. }
  eexists. split; [by apply reduce_mod2_gf2|].
  split; [done|]. split; [by apply rref_is_rref|].
  split; [intros s; by apply rref_solves|].
  split; [|split].
  - unfold GF2.rref, Ybits. by rewrite length_fmap, eliminate_length, length_fmap.
  - unfold rect. apply Forall_fmap.
    eapply Forall_impl; [apply (eliminate_rect ncols), Hrb|].
    intros row Hrow. simpl. by rewrite length_fmap.
  - unfold bit_matrix. apply Forall_fmap, Forall_true. intros row. simpl.
    apply Forall_fmap, Forall_true. intros b. simpl. destruct b; auto.
Qed.

Lemma rref_mod2_is_gf2_elimination_witness :
  PostProcessing.reduce_mod2 [[1; 1; 0]; [0; 1; 1]; [1; 0; 1]]
  = Some [[1; 0; 1]; [0; 1; 1]; [0; 0; 0]].
Proof.
  assert (Hr : rect 3 [[1; 1; 0]; [0; 1; 1]; [1; 0; 1]]) by (by repeat constructor).
  assert (Hb : bit_matrix [[1; 1; 0]; [0; 1; 1]; [1; 0; 1]])
    by (repeat constructor; auto).
  destruct (rref_mod2_is_gf2_elimination 3 _ Hr Hb) as (Y_new & HY & Heq & _).
  rewrite HY, Heq. reflexivity.
Defined.

(** ** The post-processing cell *)

Section PostProcessingFacts.
Import PostProcessing.

(** *** Sorting by count *)

Lemma insert_by_count_perm (x : string * Z) (l : list (string * Z)) :
  insert_by_count x l ≡ₚ x :: l.
Proof.
  induction l as [|y l IH]; [done|]. simpl.
  destruct (snd x <? snd y); [|done].
  rewrite IH. apply Permutation_swap.
Qed.

Lemma sort_by_count_perm (l : list (string * Z)) : sort_by_count l ≡ₚ l.
Proof.
  induction l as [|x l IH]; [done|]. unfold sort_by_count in *. simpl.
  by rewrite insert_by_count_perm, IH.
Qed.

Lemma insert_by_count_sorted (x : string * Z) (l : list (string * Z)) :
  StronglySorted by_count_desc l -> StronglySorted by_count_desc (insert_by_count x l).
Proof.
  induction 1 as [|y l Hl IH Hy]; [repeat constructor|]. simpl.
  destruct (snd x <? snd y) eqn:E.
  - apply Z.ltb_lt in E. constructor; [exact IH|].
    rewrite insert_by_count_perm. constructor; [|exact Hy].
    unfold by_count_desc. lia.
  - apply Z.ltb_ge in E. constructor; [by constructor|].
    constructor; [exact E|].
    eapply Forall_impl; [exact Hy|]. unfold by_count_desc. simpl. intros z Hz. lia.
Qed.

Lemma sort_by_count_sorted (l : list (string * Z)) :
  StronglySorted by_count_desc (sort_by_count l).
Proof.
  induction l as [|x l IH]; [constructor|]. by apply insert_by_count_sorted.
Qed.

(** *** The rows of [Y] *)

Lemma row_of_key_bits (k : string) :
  is_bitstring k = true ->
  row_of_key k = Some ((fun c => Z.b2z (bit_of_char c)) <$> Py.chars k).
Proof.
  unfold row_of_key, is_bitstring. intros Hk. apply mapM_Some_2.
  apply Forall2_fmap_r, Forall_Forall2_diag.
  pose proof (proj1 (forallb_forall is_bit (Py.chars k)) Hk) as Hk'.
  apply Forall_forall. intros c Hc.
  rewrite is_bit_int_of_char by (apply Hk'; by apply list_elem_of_In).
  unfold compose. by destruct (bit_of_char c).
Qed.

Lemma build_Y_rows (l : list (string * Z)) (acc : list (list Z)) :
  Forall (fun kv => is_bitstring (fst kv) = true) l ->
  foldl (fun oY kv => oY ≫= fun Y => row ← row_of_key (fst kv); Some (Y ++ [row]))
        (Some acc) l
  = Some (acc ++ ((fun kv => (fun c => Z.b2z (bit_of_char c)) <$> Py.chars (fst kv)) <$> l)).
Proof.
  intros Hl. revert acc. induction Hl as [|kv l Hkv _ IH]; intros acc; simpl.
  - by rewrite app_nil_r.
  - rewrite (row_of_key_bits _ Hkv). simpl. rewrite IH. by rewrite <- app_assoc.
Qed.

Lemma length_chars (k : string) : length (Py.chars k) = String.length k.
Proof. unfold Py.chars. induction k as [|c k IH]; simpl; [done | by rewrite IH]. Qed.

(** *** The printing loop *)

Lemma terms_ones_from (k : nat) (row : list Z) :
  omap (fun iv : nat * Z => if snd iv =? 1
                  then Some ("s[ " +:+ Py.str_nat (fst iv) +:+ " ]")
                  else None)
       (imap (fun i x => ((k + i)%nat, x)) row)
  = (fun i => "s[ " +:+ Py.str_nat i +:+ " ]")
      <$> List.filter (fun i => bool_decide (row !! (i - k)%nat = Some 1))
                      (seq k (length row)).
Proof.
  revert k. induction row as [|x row IH]; intros k; [done|].
  cbn [imap length seq List.filter fst snd].
  replace (k + 0)%nat with k by lia. replace (k - k)%nat with 0%nat by lia.
  rewrite (imap_ext _ (fun i x => ((S k + i)%nat, x))) by (intros; unfold compose; f_equal; lia).
  change (omap ?f ((k, x) :: ?l))
    with (match f (k, x) with Some y => y :: omap f l | None => omap f l end).
  rewrite IH.
  rewrite (filter_ext_in (fun i => bool_decide ((x :: row) !! (i - k)%nat = Some 1))
                         (fun i => bool_decide (row !! (i - S k)%nat = Some 1))).
  2:{ intros i Hi. apply in_seq in Hi.
      replace (i - k)%nat with (S (i - S k)) by lia. done. }
  simpl. destruct (x =? 1) eqn:E.
  - apply Z.eqb_eq in E. subst x. by rewrite bool_decide_eq_true_2.
  - apply Z.eqb_neq in E. rewrite bool_decide_eq_false_2; [done|]. congruence.
Qed.

Lemma terms_ones (row : list Z) :
  terms row = (fun i => "s[ " +:+ Py.str_nat i +:+ " ]") <$> ones row.
Proof.
  unfold terms, ones.
  change (imap pair row) with (imap (fun i x => ((0 + i)%nat, x)) row).
  rewrite terms_ones_from. f_equal. apply filter_ext_in.
  intros i _. by rewrite Nat.sub_0_r.
Qed.

Lemma ones_has_one (row : list Z) :
  (0 <? length (ones row))%nat = has_one row.
Proof.
  unfold ones, has_one.
  assert (H : forall k, (0 <? length (List.filter
              (fun i => bool_decide (row !! (i - k)%nat = Some 1%Z))
              (seq k (length row))))%nat = existsb (Z.eqb 1) row).
  { induction row as [|x row IH]; intros k; [done|].
    cbn [length seq List.filter existsb].
    replace (k - k)%nat with 0%nat by lia.
    rewrite (filter_ext_in (fun i => bool_decide ((x :: row) !! (i - k)%nat = Some 1))
                           (fun i => bool_decide (row !! (i - S k)%nat = Some 1))).
    2:{ intros i Hi. apply in_seq in Hi.
        replace (i - k)%nat with (S (i - S k)) by lia. done. }
    change ((x :: row) !! 0%nat) with (Some x).
    destruct (Z.eqb_spec 1 x) as [<-|E].
    - by rewrite bool_decide_eq_true_2.
    - rewrite bool_decide_eq_false_2 by congruence. cbn [orb]. apply IH. }
  rewrite <- (H 0%nat). f_equal. f_equal. apply filter_ext_in.
  intros i _. by rewrite Nat.sub_0_r.
Qed.

Lemma print_row_equation (out : list output) (row : list Z) :
  print_row out row
  = out ++ (if has_one row then [PrintLine (equation row)] else []).
Proof.
  unfold print_row, equation. rewrite terms_ones, length_fmap, ones_has_one.
  destruct (has_one row); [done | by rewrite app_nil_r].
Qed.

Lemma print_loop_equations (out : list output) (M : list (list Z)) :
  foldl print_row out M
  = out ++ ((fun row => PrintLine (equation row)) <$> List.filter has_one M).
Proof.
  revert out. induction M as [|row M IH]; intros out; simpl.
  - by rewrite app_nil_r.
  - rewrite IH, print_row_equation. rewrite <- app_assoc.
    by destruct (has_one row).
Qed.

End PostProcessingFacts.

(** C6. The post-processing cell, on a tally whose keys are bit strings of
    length [n]: [Y] has one row per key other than the all-zero string, the
    bits of the key, the keys being taken by descending count; [Y] is
    row-reduced to [Y_transformed] and the entries of the reduced matrix are
    mapped modulo 2, giving [Y_new], which is the reduced row-echelon form of
    [Y] over GF(2); the cell then prints one equation
    [s[ i1 ] + ... + s[ ik ] = 0] for every row of [Y_new] with an entry equal
    to 1, over the columns of these entries, and nothing for the other
    rows. *)
Theorem post_processing_prints_equations (n : nat) (answer_plot : Dict.t Z) :
  Forall (fun k => String.length k = n /\ is_bitstring k = true) (Dict.keys answer_plot) ->
  exists lAnswer Y Y_transformed Y_new,
    lAnswer ≡ₚ List.filter (fun kv => negb (String.eqb (fst kv) (Py.repeat0 n)))
                           (Dict.items answer_plot)
    /\ StronglySorted PostProcessing.by_count_desc lAnswer
    /\ Y = (fun kv => (fun c => Z.b2z (bit_of_char c)) <$> Py.chars (fst kv)) <$> lAnswer
    /\ Sympy.rref PostProcessing.iszerofunc (Sympy.Matrix Y) = Some Y_transformed
    /\ PostProcessing.applyfunc_mod2 (fst Y_transformed) = Some Y_new
    /\ Y_new = (fun row : list bool => Z.b2z <$> row)
                 <$> GF2.rref n ((fun row : list Z => Z.odd <$> row) <$> Y)
    /\ GF2.is_rref (GF2.pivots n ((fun row : list Z => Z.odd <$> row) <$> Y))
                   (GF2.rref n ((fun row : list Z => Z.odd <$> row) <$> Y))
    /\ PostProcessing.reduce_mod2 Y = Some Y_new
    /\ PostProcessing.post_processing n answer_plot
       = Some ([PostProcessing.PrintMatrix Y; PostProcessing.PrintMatrix Y_new;
                PostProcessing.PrintLine (PostProcessing.header n)]
               ++ ((fun row => PostProcessing.PrintLine (PostProcessing.equation row))
                     <$> List.filter PostProcessing.has_one Y_new)).
Proof.
  intros Hkeys.
  set (lAnswer := PostProcessing.sort_by_count (PostProcessing.nonzero_items n answer_plot)).
  set (Y := (fun kv : string * Z =>
               (fun c => Z.b2z (bit_of_char c)) <$> Py.chars (fst kv)) <$> lAnswer).
  assert (Hperm : lAnswer ≡ₚ PostProcessing.nonzero_items n answer_plot)
    by apply sort_by_count_perm.
  assert (Hall : Forall (fun kv : string * Z =>
                   String.length (fst kv) = n /\ is_bitstring (fst kv) = true) lAnswer).
  { rewrite Hperm. unfold PostProcessing.nonzero_items, Dict.items.
    apply Forall_forall. intros kv Hkv. apply list_elem_of_In, filter_In in Hkv as [Hkv _].
    rewrite Forall_forall in Hkeys. apply Hkeys. unfold Dict.keys.
    apply list_elem_of_fmap. exists kv. split; [done | by apply list_elem_of_In]. }
  assert (HY : PostProcessing.build_Y lAnswer = Some Y).
  { unfold PostProcessing.build_Y. rewrite build_Y_rows; [done|].
    eapply Forall_impl; [exact Hall|]. by intros kv [_ ?]. }
  assert (Hrect : rect n Y).
  { unfold rect, Y. apply Forall_fmap. eapply Forall_impl; [exact Hall|].
    intros kv [Hlen _]. simpl. by rewrite length_fmap, length_chars. }
  pose proof (reduce_mod2_gf2 n Y Hrect) as Hred.
  assert (Hrb : rect n ((fun row : list Z => Z.odd <$> row) <$> Y)).
  { unfold rect. apply Forall_fmap. eapply Forall_impl; [exact Hrect|].
    intros row Hrow. simpl. by rewrite length_fmap. }
  assert (Hsteps : exists Y_transformed,
             Sympy.rref PostProcessing.iszerofunc (Sympy.Matrix Y) = Some Y_transformed
             /\ PostProcessing.applyfunc_mod2 (fst Y_transformed)
                = Some ((fun row : list bool => Z.b2z <$> row)
                          <$> GF2.rref n ((fun row : list Z => Z.odd <$> row) <$> Y))).
  { pose proof Hred as Hsteps. unfold PostProcessing.reduce_mod2 in Hsteps.
    destruct (Sympy.rref PostProcessing.iszerofunc (Sympy.Matrix Y)) as [Y_transformed|];
      [|done].
    by exists Y_transformed. }
  destruct Hsteps as (Y_transformed & Hrref & Hmod).
  eexists lAnswer, Y, Y_transformed, _. split; [exact Hperm|].
  split; [apply sort_by_count_sorted|]. split; [done|]. split; [exact Hrref|].
  split; [exact Hmod|]. split; [done|]. split; [by apply rref_is_rref|].
  split; [exact Hred|].
  unfold PostProcessing.post_processing. fold lAnswer. rewrite HY. simpl.
  rewrite Hred. simpl. by rewrite print_loop_equations.
Qed.

Lemma post_processing_prints_equations_witness :
  (exists lAnswer Y Y_transformed Y_new,
     lAnswer ≡ₚ List.filter (fun kv => negb (String.eqb (fst kv) (Py.repeat0 3)))
                            (Dict.items
                               [("110", 5); ("000", 4); ("011", 5); ("101", 7)])
     /\ StronglySorted PostProcessing.by_count_desc lAnswer
     /\ Y = (fun kv => (fun c => Z.b2z (bit_of_char c)) <$> Py.chars (fst kv)) <$> lAnswer
     /\ Sympy.rref PostProcessing.iszerofunc (Sympy.Matrix Y) = Some Y_transformed
     /\ PostProcessing.applyfunc_mod2 (fst Y_transformed) = Some Y_new
     /\ Y_new = (fun row : list bool => Z.b2z <$> row)
                  <$> GF2.rref 3 ((fun row : list Z => Z.odd <$> row) <$> Y)
     /\ GF2.is_rref (GF2.pivots 3 ((fun row : list Z => Z.odd <$> row) <$> Y))
                    (GF2.rref 3 ((fun row : list Z => Z.odd <$> row) <$> Y))
     /\ PostProcessing.reduce_mod2 Y = Some Y_new
     /\ PostProcessing.post_processing 3
          [("110", 5); ("000", 4); ("011", 5); ("101", 7)]
        = Some ([PostProcessing.PrintMatrix Y; PostProcessing.PrintMatrix Y_new;
                 PostProcessing.PrintLine (PostProcessing.header 3)]
                ++ ((fun row => PostProcessing.PrintLine (PostProcessing.equation row))
                      <$> List.filter PostProcessing.has_one Y_new)))
  /\ PostProcessing.post_processing 3
          [("110", 5); ("000", 4); ("011", 5); ("101", 7)]
     = Some [PostProcessing.PrintMatrix [[1; 0; 1]; [1; 1; 0]; [0; 1; 1]];
             PostProcessing.PrintMatrix [[1; 0; 1]; [0; 1; 1]; [0; 0; 0]];
             PostProcessing.PrintLine (PostProcessing.header 3);
             PostProcessing.PrintLine "s[ 0 ] + s[ 2 ] = 0";
             PostProcessing.PrintLine "s[ 1 ] + s[ 2 ] = 0"].
Proof.
  split; [|reflexivity].
  apply (post_processing_prints_equations 3
           [("110", 5); ("000", 4); ("011", 5); ("101", 7)]).
  repeat constructor.
Defined.

(** ** The function computed by the oracle *)

Section OracleFunction.
Import Circuit.

Lemma run_app (c1 c2 : circuit) (st : list bool) :
  run (c1 ++ c2) st = run c1 st ≫= run c2.
Proof.
  unfold run. rewrite foldl_app.
  destruct (foldl _ (Some st) c1) as [st'|]; [done|].
  simpl. induction c2 as [|g c2 IH]; [done | exact IH].
Qed.

Lemma run_row_prefix (n i k : nat) (b : bool) (x y : list bool) :
  length x = n -> length y = n -> x !! i = Some b -> (k <= n)%nat ->
  run ((fun j => CNot i (n + j)) <$> seq 0 k) (x ++ y)
  = Some (x ++ ((fun v => xorb v b) <$> take k y) ++ drop k y).
Proof.
  intros Hx Hy Hi. induction k as [|k IH]; intros Hk.
  - simpl. by rewrite drop_0.
  - rewrite seq_S, fmap_app, run_app, IH by lia. cbn [Nat.add fmap list_fmap mbind option_bind].
    destruct (lookup_lt_is_Some_2 y k) as [yk Hyk]; [lia|].
    unfold run. cbn [foldl mbind option_bind apply_gate].
    rewrite (lookup_app_l x _ i) by (apply lookup_lt_Some in Hi; lia). rewrite Hi.
    cbn [mbind option_bind].
    rewrite lookup_app_r by lia. replace (n + k - length x)%nat with k by lia.
    rewrite lookup_app_r by (rewrite length_fmap, length_take; lia).
    rewrite length_fmap, length_take. replace (k - k `min` length y)%nat with 0%nat by lia.
    rewrite lookup_drop, Nat.add_0_r, Hyk. cbn [mbind option_bind]. f_equal.
    rewrite insert_app_r_alt by lia. f_equal.
    replace (n + k - length x)%nat with k by lia.
    rewrite insert_app_r_alt by (rewrite length_fmap, length_take; lia).
    rewrite length_fmap, length_take. replace (k - k `min` length y)%nat with 0%nat by lia.
    rewrite (take_S_r y k yk Hyk), fmap_app, <- app_assoc. f_equal.
    rewrite (drop_S y yk k Hyk). done.
Qed.

Lemma run_row (s : string) (n i : nat) (x y : list bool) :
  length x = n -> length y = n -> (i < n)%nat ->
  run (row_gates s n i) (x ++ y)
  = Some (x ++ ((fun v => xorb v (set_bit s i && default false (x !! i))) <$> y)).
Proof.
  intros Hx Hy Hi. unfold row_gates.
  destruct (lookup_lt_is_Some_2 x i) as [b Hb]; [lia|]. rewrite Hb. simpl.
  destruct (set_bit s i); simpl.
  - rewrite (run_row_prefix n i n b x y) by (done || lia).
    by rewrite take_ge, drop_ge, app_nil_r by lia.
  - f_equal. f_equal. rewrite <- (list_fmap_id y) at 1.
    apply list_fmap_ext. intros _ v _. by rewrite xorb_false_r.
Qed.

Lemma run_rows (s : string) (n : nat) (l : list nat) (x y : list bool) :
  length x = n -> length y = n -> Forall (fun i => i < n)%nat l ->
  run (concat (row_gates s n <$> l)) (x ++ y)
  = Some (x ++ ((fun v => xorb v (foldr xorb false
            ((fun i => (set_bit s i && default false (x !! i))%bool) <$> l))) <$> y)).
Proof.
  intros Hx. revert y. induction l as [|i l IH]; intros y Hy Hl.
  - simpl. f_equal. f_equal. rewrite <- (list_fmap_id y) at 1.
    apply list_fmap_ext. intros _ v _. by rewrite xorb_false_r.
  - apply Forall_cons in Hl as [Hi Hl]. cbn [fmap list_fmap concat].
    rewrite run_app, (run_row s n i x y Hx Hy Hi). cbn [mbind option_bind].
    rewrite IH by (by rewrite ?length_fmap). f_equal. f_equal.
    rewrite <- list_fmap_compose. apply list_fmap_ext. intros _ v _. simpl.
    by rewrite xorb_assoc.
Qed.

(** The oracle computes [n] copies of the parity of [s . x]. *)
Lemma oracle_f_parity (s : string) (x : list bool) :
  is_bitstring s = true -> length x = String.length s ->
  f s x = Some (replicate (String.length s) (dot_parity s x)).
Proof.
  intros Hs Hx. unfold f, oracle_loop. set (n := String.length s) in *.
  rewrite (oracle_loop_gates s n (seq 0 n) empty Hs).
  2:{ apply Forall_forall. intros i Hi. apply list_elem_of_In, in_seq in Hi. lia. }
  cbn [mbind option_bind]. unfold empty. rewrite app_nil_l.
  rewrite (run_rows s n (seq 0 n) x (replicate n false) Hx).
  - cbn [mbind option_bind]. f_equal.
    rewrite drop_app_length' by done. rewrite fmap_replicate. done.
  - by rewrite length_replicate.
  - apply Forall_forall. intros i Hi. apply list_elem_of_In, in_seq in Hi. lia.
Qed.

End OracleFunction.

(** C4 (on the code). The oracle adds every set bit of [s] to every qubit
    of the second register, so [f x] repeats the parity of [s . x].  For
    [s = '110'] the output 000 has four preimages, not two; for [s = '111']
    the inputs 000 and [000 XOR s] have different outputs. *)
Theorem oracle_is_not_two_to_one :
  Circuit.preimages "110" [false; false; false]
  = [[false; false; false]; [false; false; true]; [true; true; false]; [true; true; true]]
  /\ Circuit.preimages "110" [true; true; true]
     = [[false; true; false]; [false; true; true]; [true; false; false]; [true; false; true]]
  /\ Circuit.f "111" [false; false; false] = Some [false; false; false]
  /\ Circuit.f "111" (Circuit.xor_bits [false; false; false] (bits_of "111"))
     = Some [true; true; true].
Proof. repeat split; reflexivity. Qed.

(** ** Device runs *)

(** C7 (as stated) fails: the submission to the QPU passes a polling
    timeout of its own. *)
Lemma ionq_run_sets_poll_timeout :
  Script.leaves_polling_to_sdk Script.ionq_run = false.
Proof. reflexivity. Qed.

(** C7 (amended). The submission to the remote QPU passes an explicit
    polling timeout of 432000 seconds (5 days) and, besides the number of
    shots, no other keyword: no polling interval, retry or recovery
    configuration; the simulator run passes the number of shots only. *)
Theorem ionq_run_configuration :
  Dict.get (Script.run_keywords Script.ionq_run) "poll_timeout_seconds" = Some 432000
  /\ Dict.keys (Script.run_keywords Script.ionq_run) = ["shots"; "poll_timeout_seconds"]
  /\ Script.runs Script.simon_checkpoint
     = [Script.local_run 9; Script.Run Script.ionq_run]
  /\ Script.leaves_polling_to_sdk
       (Script.RunCall Script.LocalSimulator 1 [("shots", 9)]) = true.
Proof. repeat split; reflexivity. Qed.

(** C8 (as stated) fails: one execution of the checkpoint notebook makes
    two device runs. *)
Lemma checkpoint_runs_twice :
  ~ (length (Script.runs Script.simon_checkpoint) <= 1)%nat.
Proof. simpl. lia. Qed.

(** C8 (amended). One execution of the Simon notebook makes exactly one
    device run, on the local simulator; its checkpoint version makes two, on
    the local simulator and then on the remote QPU; the notebook on qubits
    and gates makes seven simulator runs; and no code cell of any of them
    makes more than one device run. *)
Theorem device_runs_per_notebook :
  Script.runs Script.simon = [Script.local_run 5]
  /\ Script.runs Script.simon_checkpoint
     = [Script.local_run 9; Script.Run Script.ionq_run]
  /\ length (Script.runs Script.basics) = 7%nat
  /\ Forall (Forall (fun cell => (length (List.filter Script.is_run cell) <= 1)%nat))
       [Script.simon; Script.simon_checkpoint; Script.basics].
Proof.
  split; [reflexivity|]. split; [reflexivity|]. split; [reflexivity|].
  repeat constructor.
Qed.


(** * Further properties of the cells *)

(** ** The oracle on basis states *)

Section OracleAction.
Import Circuit.

Lemma oracle_loop_rows (s : string) :
  is_bitstring s = true ->
  oracle_loop s (String.length s) empty
  = Some (concat (row_gates s (String.length s) <$> seq 0 (String.length s))).
Proof.
  intros Hs. unfold oracle_loop.
  rewrite (oracle_loop_gates s _ (seq 0 (String.length s)) empty Hs); [done|].
  apply Forall_forall. intros i Hi. apply list_elem_of_In, in_seq in Hi. lia.
Qed.

Lemma seq_below (n : nat) : Forall (fun i => i < n)%nat (seq 0 n).
Proof. apply Forall_forall. intros i Hi. apply list_elem_of_In, in_seq in Hi. lia. Qed.

Lemma xor_twice (p : bool) (y : list bool) :
  (fun v => xorb v p) <$> ((fun v => xorb v p) <$> y) = y.
Proof.
  rewrite <- list_fmap_compose. rewrite <- (list_fmap_id y) at 2.
  apply list_fmap_ext. intros _ v _. simpl. by destruct v, p.
Qed.

End OracleAction.

(** X1. On a basis state the oracle leaves the first register [x] as it
    is and adds the parity of [s . x] to every bit of the second register
    [y]. *)
Theorem oracle_adds_parity (s : string) (x y : list bool) :
  is_bitstring s = true ->
  length x = String.length s -> length y = String.length s ->
  exists c,
    Circuit.oracle_loop s (String.length s) Circuit.empty = Some c
    /\ Circuit.run c (x ++ y)
       = Some (x ++ ((fun v => xorb v (Circuit.dot_parity s x)) <$> y)).
Proof.
  intros Hs Hx Hy. eexists. split; [by apply oracle_loop_rows|].
  by apply run_rows; [| |apply seq_below].
Qed.

Lemma oracle_adds_parity_witness :
  exists c,
    Circuit.oracle_loop "110" 3 Circuit.empty = Some c
    /\ Circuit.run c ([true; false; true] ++ [false; true; false])
       = Some ([true; false; true] ++ [true; false; true]).
Proof. exact (oracle_adds_parity "110" [true; false; true] [false; true; false] eq_refl eq_refl eq_refl). Defined.

(** X2. The oracle is its own inverse on basis states: run twice, it gives
    back the state it started from. *)
Theorem oracle_twice_is_identity (s : string) (x y : list bool) :
  is_bitstring s = true ->
  length x = String.length s -> length y = String.length s ->
  exists c,
    Circuit.oracle_loop s (String.length s) Circuit.empty = Some c
    /\ (Circuit.run c (x ++ y) ≫= Circuit.run c) = Some (x ++ y).
Proof.
  intros Hs Hx Hy. eexists. split; [by apply oracle_loop_rows|].
  rewrite run_rows; [|done|done|apply seq_below]. simpl.
  rewrite run_rows; [|done|by rewrite length_fmap|apply seq_below].
  by rewrite xor_twice.
Qed.

Lemma oracle_twice_is_identity_witness :
  exists c,
    Circuit.oracle_loop "110" 3 Circuit.empty = Some c
    /\ (Circuit.run c ([true; false; true] ++ [false; true; false]) ≫= Circuit.run c)
       = Some ([true; false; true] ++ [false; true; false]).
Proof. exact (oracle_twice_is_identity "110" [true; false; true] [false; true; false] eq_refl eq_refl eq_refl). Defined.

(** ** The promise [f(x) = f(x XOR s)] *)

Section OraclePromise.
Import Circuit.

Lemma dot_parity_from (s : string) (x : list bool) (a : nat) :
  foldr xorb false
    ((fun i => (set_bit s (i - a) && default false (x !! (i - a)%nat))%bool)
       <$> seq a (String.length s))
  = GF2.dot (bits_of s) x.
Proof.
  revert x a. induction s as [|c s IH]; intros x a; [done|].
  cbn [String.length seq fmap list_fmap foldr].
  replace (a - a)%nat with 0%nat by lia. rewrite set_bit_0.
  rewrite (list_fmap_ext _
             (fun i => (set_bit s (i - S a) && default false (tail x !! (i - S a)%nat))%bool)
             (seq (S a) (String.length s))).
  2:{ intros k i Hi. apply lookup_seq in Hi as [-> _].
      replace (S a + k - a)%nat with (S (S a + k - S a)) by lia.
      rewrite set_bit_S. by destruct x. }
  rewrite IH. unfold bits_of, Py.chars, GF2.dot. cbn [list_ascii_of_string fmap list_fmap].
  destruct x as [|v x]; simpl.
  - rewrite andb_false_r. simpl. by destruct (bit_of_char <$> list_ascii_of_string s).
  - done.
Qed.

Lemma dot_parity_dot (s : string) (x : list bool) :
  dot_parity s x = GF2.dot (bits_of s) x.
Proof.
  unfold dot_parity. rewrite <- (dot_parity_from s x 0). f_equal.
  apply list_fmap_ext. intros k i _. by rewrite Nat.sub_0_r.
Qed.

Lemma dot_xor_right (bs x z : list bool) :
  length x = length bs -> length z = length bs ->
  GF2.dot bs (zip_with xorb x z) = xorb (GF2.dot bs x) (GF2.dot bs z).
Proof.
  revert x z. induction bs as [|b bs IH]; intros [|v x] [|w z] Hx Hz; try done.
  unfold GF2.dot in *. simpl. rewrite IH by (simpl in *; lia).
  destruct b, v, w; simpl; by destruct (foldr _ _ _), (foldr _ _ _).
Qed.

Lemma dot_self (bs : list bool) :
  GF2.dot bs bs = Nat.odd (length (List.filter id bs)).
Proof.
  induction bs as [|b bs IH]; [done|]. unfold GF2.dot in *. simpl. rewrite IH.
  destruct b; simpl; [|done].
  rewrite Nat.odd_succ, <- Nat.negb_odd. by destruct (Nat.odd _).
Qed.

Lemma popcount_bits (s : string) : length (List.filter id (bits_of s)) = popcount s.
Proof.
  unfold popcount, bits_of. generalize (Py.chars s). intros l.
  induction l as [|c l IH]; [done|]. cbn [fmap list_fmap List.filter].
  unfold id at 1. destruct (bit_of_char c); cbn [length]; by rewrite IH.
Qed.

Lemma length_bits_of (s : string) : length (bits_of s) = String.length s.
Proof. unfold bits_of. by rewrite length_fmap, length_chars. Qed.

Lemma dot_parity_shift (s : string) (x : list bool) :
  length x = String.length s ->
  dot_parity s (xor_bits x (bits_of s)) = xorb (dot_parity s x) (Nat.odd (popcount s)).
Proof.
  intros Hx. rewrite !dot_parity_dot. unfold xor_bits.
  rewrite dot_xor_right by (by rewrite ?length_bits_of).
  by rewrite dot_self, popcount_bits.
Qed.

Lemma replicate_eq {A : Type} (n : nat) (a b : A) :
  n <> 0%nat -> replicate n a = replicate n b -> a = b.
Proof. destruct n; [done|]. simpl. by intros _ [= ->]. Qed.

End OraclePromise.

(** X3. The oracle keeps the promise [f(x) = f(x XOR s)] exactly when [s]
    has an even number of ones. *)
Theorem oracle_promise_iff_even (s : string) (x : list bool) :
  is_bitstring s = true -> length x = String.length s ->
  Circuit.f s (Circuit.xor_bits x (bits_of s)) = Circuit.f s x
  <-> Nat.even (popcount s) = true.
Proof.
  intros Hs Hx.
  assert (Hxs : length (Circuit.xor_bits x (bits_of s)) = String.length s).
  { unfold Circuit.xor_bits. rewrite length_zip_with, length_bits_of. lia. }
  rewrite (oracle_f_parity s x Hs Hx), (oracle_f_parity s _ Hs Hxs).
  rewrite dot_parity_shift by done. rewrite <- Nat.negb_odd.
  destruct (Nat.odd (popcount s)) eqn:Hodd; simpl.
  - split; [|done]. intros [= H]. apply replicate_eq in H.
    + by destruct (Circuit.dot_parity s x).
    + intros Hn. unfold popcount, Py.chars in Hodd.
      destruct s; [done | done].
  - by rewrite xorb_false_r.
Qed.

Lemma oracle_promise_iff_even_witness :
  Circuit.f "110" (Circuit.xor_bits [true; false; true] (bits_of "110"))
  = Circuit.f "110" [true; false; true]
  /\ Circuit.f "111" (Circuit.xor_bits [true; false; true] (bits_of "111"))
     <> Circuit.f "111" [true; false; true].
Proof.
  split.
  - by apply (oracle_promise_iff_even "110" [true; false; true]).
  - intros H. by apply (oracle_promise_iff_even "111" [true; false; true]) in H.
Defined.

(** ** The gates of the circuit *)

Section CircuitShape.
Import Circuit.

Lemma int_of_char_one (c : ascii) (d : Z) :
  Py.int_of_char c = Some d -> (d =? 1) = bit_of_char c.
Proof.
  unfold Py.int_of_char, bit_of_char. intros H.
  destruct ((48 <=? Z.of_nat (nat_of_ascii c)) && (Z.of_nat (nat_of_ascii c) <=? 57))%bool;
    [|done].
  injection H as <-. destruct (Ascii.eqb_spec c "1") as [->|Hne]; [done|].
  apply Z.eqb_neq. intros Hk. apply Hne.
  rewrite <- (ascii_nat_embedding c).
  replace (nat_of_ascii c) with 49%nat by lia. reflexivity.
Qed.

Lemma index_chars (s : string) (i : nat) : Py.index s i = Py.chars s !! i.
Proof.
  unfold Py.index, Py.chars. revert i.
  induction s as [|c s IH]; intros [|i]; simpl; done.
Qed.

Lemma oracle_iter_digit (s : string) (n i : nat) (circ : circuit) (c : ascii) :
  Py.index s i = Some c -> is_Some (Py.int_of_char c) ->
  oracle_iter s n circ i = Some (circ ++ row_gates s n i).
Proof.
  intros Hc [d Hd]. unfold oracle_iter, row_gates, set_bit. rewrite Hc. simpl.
  rewrite Hd. simpl. rewrite (int_of_char_one c d Hd).
  destruct (bit_of_char c); simpl.
  - unfold inner_loop. apply f_equal, inner_loop_gates.
  - by rewrite app_nil_r.
Qed.

Lemma oracle_loop_digits (s : string) (n : nat) (l : list nat) (circ : circuit) :
  Forall (fun c => is_Some (Py.int_of_char c)) (Py.chars s) ->
  Forall (fun i => i < String.length s)%nat l ->
  foldl (fun oc i => oc ≫= fun c => oracle_iter s n c i) (Some circ) l
  = Some (circ ++ concat (row_gates s n <$> l)).
Proof.
  intros Hs. revert circ. induction l as [|i l IH]; intros circ Hl; simpl.
  - by rewrite app_nil_r.
  - apply Forall_cons in Hl as [Hi Hl].
    destruct (lookup_lt_is_Some_2 (Py.chars s) i) as [c Hc];
      [by rewrite length_chars|].
    rewrite (oracle_iter_digit s n i circ c);
      [| by rewrite index_chars | by apply (Forall_lookup_1 _ _ _ _ Hs Hc)].
    rewrite (IH _ Hl). by rewrite <- app_assoc.
Qed.

Lemma oracle_loop_raised (s : string) (n : nat) (l : list nat) :
  foldl (fun oc i => oc ≫= fun c => oracle_iter s n c i) None l = None.
Proof. induction l as [|i l IH]; [done | exact IH]. Qed.

Lemma oracle_loop_non_digit (s : string) (n i : nat) (c : ascii) (l1 l2 : list nat)
    (oc : option circuit) :
  Py.index s i = Some c -> Py.int_of_char c = None ->
  foldl (fun oc i => oc ≫= fun c => oracle_iter s n c i) oc (l1 ++ i :: l2) = None.
Proof.
  intros Hc Hd. rewrite foldl_app. simpl.
  destruct (foldl _ oc l1) as [circ|]; simpl.
  - unfold oracle_iter. rewrite Hc. simpl. rewrite Hd. simpl. apply oracle_loop_raised.
  - apply oracle_loop_raised.
Qed.

Lemma oracle_gates_in_range (s : string) :
  Forall (fun g => match g with
                   | H _ => False
                   | CNot c t =>
                       set_bit s c = true
                       /\ (c < String.length s <= t)%nat
                       /\ (t < 2 * String.length s)%nat
                   end) (oracle_gates s).
Proof.
  unfold oracle_gates, oracle_pairs. apply Forall_fmap, Forall_forall.
  intros [i j] Hij. apply list_elem_of_In, filter_In in Hij as [Hin Hset].
  apply in_prod_iff in Hin as [Hi Hj]. apply in_seq in Hi, Hj. simpl in *.
  split; [done|]. lia.
Qed.

Lemma seq_split_at (i n : nat) :
  (i < n)%nat -> seq 0 n = seq 0 i ++ i :: seq (S i) (n - S i).
Proof.
  intros Hi. replace n with (i + S (n - S i))%nat at 1 by lia.
  by rewrite seq_app.
Qed.

Lemma build_of_digits (s : string) :
  Forall (fun c => is_Some (Py.int_of_char c)) (Py.chars s) ->
  build s
  = Some ((H <$> seq 0 (String.length s)) ++ oracle_gates s
            ++ (H <$> seq 0 (String.length s))).
Proof.
  intros Hs. unfold build, oracle_loop.
  rewrite (oracle_loop_digits s _ _ _ Hs (seq_below _)). simpl.
  unfold h_range, empty. simpl.
  by rewrite oracle_gates_rows, <- app_assoc.
Qed.

Lemma build_of_non_digit (s : string) :
  Exists (fun c => Py.int_of_char c = None) (Py.chars s) -> build s = None.
Proof.
  intros Hex. apply Exists_exists in Hex as (c & Hc & Hd).
  apply list_elem_of_lookup in Hc as [i Hi].
  pose proof (lookup_lt_Some _ _ _ Hi) as Hlt. rewrite length_chars in Hlt.
  unfold build, oracle_loop. rewrite (seq_split_at i (String.length s) Hlt).
  rewrite (oracle_loop_non_digit s _ i c); [done | by rewrite index_chars | done].
Qed.

End CircuitShape.

Lemma is_digit_int_of_char (c : ascii) : is_digit c <-> is_Some (Py.int_of_char c).
Proof.
  unfold is_digit, Py.int_of_char. cbv zeta.
  destruct (Z.leb_spec 48 (Z.of_nat (nat_of_ascii c)));
    destruct (Z.leb_spec (Z.of_nat (nat_of_ascii c)) 57); simpl;
    (split; [intros ?; first [by eexists | lia] | intros [? ?]; first [lia | done]]).
Qed.

(** X4. On a string of ASCII characters the construction reads [s[i]]
    through [int(s[i]) == 1].  When every character is one of '0' .. '9' it
    builds the circuit and treats every digit other than 1 like 0: the two
    Hadamard layers around the CNOTs of the positions that hold '1'.  When
    some character is not one of '0' .. '9' it raises. *)
Theorem build_digits_and_errors (s : string) :
  Forall is_ascii (Py.chars s) ->
  (Forall is_digit (Py.chars s) ->
   Circuit.build s
   = Some ((Circuit.H <$> seq 0 (String.length s)) ++ Circuit.oracle_gates s
             ++ (Circuit.H <$> seq 0 (String.length s))))
  /\ (Exists (fun c => ~ is_digit c) (Py.chars s) -> Circuit.build s = None).
Proof.
  intros _. split.
  - intros Hd. apply build_of_digits. eapply Forall_impl; [exact Hd|].
    intros c. apply is_digit_int_of_char.
  - intros Hex. apply build_of_non_digit. eapply Exists_impl; [exact Hex|].
    intros c Hc. simpl in Hc. destruct (Py.int_of_char c) eqn:E; [|done].
    exfalso. apply Hc, is_digit_int_of_char. by eexists.
Qed.

Lemma build_digits_and_errors_witness :
  Circuit.build "120" = Circuit.build "100" /\ Circuit.build "1a0" = None.
Proof.
  assert (Hascii : forall s, forallb (fun c => (nat_of_ascii c <? 128)%nat) (Py.chars s) = true
                             -> Forall is_ascii (Py.chars s)).
  { intros s Hs. apply Forall_forall. intros c Hc. rewrite forallb_forall in Hs.
    apply Nat.ltb_lt, Hs. by apply list_elem_of_In. }
  destruct (build_digits_and_errors "120" (Hascii "120" eq_refl)) as [H120 _].
  destruct (build_digits_and_errors "100" (Hascii "100" eq_refl)) as [H100 _].
  destruct (build_digits_and_errors "1a0" (Hascii "1a0" eq_refl)) as [_ Ha].
  split.
  - rewrite H120, H100 by (repeat constructor; unfold is_digit; simpl; lia).
    reflexivity.
  - apply Ha. apply Exists_cons_tl, Exists_cons_hd. unfold is_digit.
    change (nat_of_ascii "a") with 97%nat. lia.
Defined.

(** X5. Every gate of the built circuit acts on the [2n] qubits of the two
    registers: a Hadamard on a qubit of the first register, a CNOT from a
    qubit of the first register where [s] has a '1' to a qubit of the second
    register (so never on a single qubit). *)
Theorem build_gates_in_range (s : string) (circ : Circuit.circuit) :
  Circuit.build s = Some circ ->
  Forall (fun g => match g with
                   | Circuit.H t => (t < String.length s)%nat
                   | Circuit.CNot c t =>
                       Circuit.set_bit s c = true
                       /\ (c < String.length s <= t)%nat
                       /\ (t < 2 * String.length s)%nat
                   end) circ.
Proof.
  intros Hb.
  destruct (decide (Forall (fun c => is_Some (Py.int_of_char c)) (Py.chars s)))
    as [Hs|Hs].
  - rewrite (build_of_digits s Hs) in Hb. injection Hb as <-.
    assert (Hh : Forall (fun g => match g with
                   | Circuit.H t => (t < String.length s)%nat
                   | Circuit.CNot c t =>
                       Circuit.set_bit s c = true
                       /\ (c < String.length s <= t)%nat
                       /\ (t < 2 * String.length s)%nat
                   end) (Circuit.H <$> seq 0 (String.length s))).
    { apply Forall_fmap. eapply Forall_impl; [apply seq_below|]. by intros i Hi. }
    apply Forall_app. split; [exact Hh|]. apply Forall_app. split; [|exact Hh].
    eapply Forall_impl; [apply oracle_gates_in_range|]. by intros [t|c t].
  - exfalso. apply not_Forall_Exists in Hs; [|intros c; apply _].
    rewrite (build_of_non_digit s) in Hb; [done|].
    eapply Exists_impl; [exact Hs|]. intros c Hc. simpl in Hc.
    destruct (Py.int_of_char c); [|done]. exfalso. apply Hc. by eexists.
Qed.

Lemma build_gates_in_range_witness :
  exists circ, Circuit.build "110" = Some circ
    /\ Forall (fun g => match g with
                        | Circuit.H t => (t < 3)%nat
                        | Circuit.CNot c t =>
                            Circuit.set_bit "110" c = true
                            /\ (c < 3 <= t)%nat /\ (t < 2 * 3)%nat
                        end) circ.
Proof.
  eexists. split; [reflexivity|].
  apply (build_gates_in_range "110"). reflexivity.
Defined.

(** ** More on the tally *)

Section TallyMore.

Lemma tally_loop_snoc (n : nat) (mc ap : Dict.t Z) (l : list string) (k : string) :
  Tally.loop n mc ap (l ++ [k]) = Tally.loop n mc ap l ≫= fun ap' => Tally.step n mc ap' k.
Proof. unfold Tally.loop. by rewrite foldl_snoc. Qed.

Lemma first_seen_snoc (l : list string) (q : string) :
  reverse (remove_dups (reverse (l ++ [q])))
  = if decide (q ∈ l) then reverse (remove_dups (reverse l))
    else reverse (remove_dups (reverse l)) ++ [q].
Proof.
  rewrite reverse_snoc. simpl.
  destruct (decide_rel elem_of q (reverse l)) as [Hin|Hin].
  - rewrite decide_True; [done|]. by apply elem_of_reverse.
  - rewrite decide_False; [|by rewrite <- elem_of_reverse]. by rewrite reverse_cons.
Qed.

Lemma tally_loop_keys (n : nat) (mc : Dict.t Z) (l : list string) :
  exists ap, Tally.loop n mc [] l = Some ap
    /\ Dict.keys ap = reverse (remove_dups (reverse (Py.slice_to n <$> l))).
Proof.
  induction l as [|k l IH] using rev_ind.
  - by exists [].
  - destruct IH as (ap & Hl & Hk). rewrite tally_loop_snoc, Hl. simpl.
    rewrite tally_step_total. eexists. split; [done|].
    rewrite dict_keys_set, fmap_app.
    change (Py.slice_to n <$> [k]) with [Py.slice_to n k].
    rewrite first_seen_snoc, <- Hk.
    destruct (Dict.mem ap (Py.slice_to n k)) eqn:E.
    + apply dict_mem_keys in E. rewrite decide_True; [done|].
      rewrite Hk in E.
      by rewrite elem_of_reverse, elem_of_remove_dups, elem_of_reverse in E.
    + rewrite decide_False; [done|]. intros Hin.
      assert (Dict.mem ap (Py.slice_to n k) = true); [|congruence].
      apply dict_mem_keys. rewrite Hk.
      by rewrite elem_of_reverse, elem_of_remove_dups, elem_of_reverse.
Qed.

Lemma dict_values_set (P : Z -> Prop) (d : Dict.t Z) (k : string) (v : Z) :
  Forall P (Dict.values d) -> P v -> Forall P (Dict.values (Dict.set d k v)).
Proof.
  intros Hd Hv. induction d as [|[k' v'] d IH]; simpl.
  - by repeat constructor.
  - unfold Dict.values in *. simpl in Hd. apply Forall_cons in Hd as [Hv' Hd].
    destruct (String.eqb k k'); simpl; constructor; auto.
Qed.

Lemma dict_get_values (P : Z -> Prop) (d : Dict.t Z) (k : string) (v : Z) :
  Forall P (Dict.values d) -> Dict.get d k = Some v -> P v.
Proof.
  intros Hd. induction d as [|[k' v'] d IH]; simpl; [done|].
  unfold Dict.values in *. simpl in Hd. apply Forall_cons in Hd as [Hv' Hd].
  destruct (String.eqb k k'); [by intros [= <-] | by apply IH].
Qed.

Lemma dict_get_key {V : Type} (d : Dict.t V) (k : string) :
  k ∈ Dict.keys d -> is_Some (Dict.get d k).
Proof.
  intros Hk. destruct (Dict.get d k) eqn:E; [by eexists|].
  apply dict_get_None in E. done.
Qed.

Lemma tally_loop_positive (n : nat) (mc : Dict.t Z) (l : list string) (ap : Dict.t Z) :
  Forall (fun v => 0 < v) (Dict.values mc) -> Forall (fun k => k ∈ Dict.keys mc) l ->
  Forall (fun v => 0 < v) (Dict.values ap) ->
  exists ap', Tally.loop n mc ap l = Some ap' /\ Forall (fun v => 0 < v) (Dict.values ap').
Proof.
  intros Hmc Hl. revert ap. induction Hl as [|k l Hk _ IH]; intros ap Hap.
  - by exists ap.
  - unfold Tally.loop. cbn [foldl mbind option_bind]. rewrite tally_step_total.
    apply IH. apply dict_values_set; [done|].
    destruct (dict_get_key mc k Hk) as [v Hv].
    assert (0 < Dict.count mc k).
    { unfold Dict.count. rewrite Hv. simpl. by apply (dict_get_values _ mc k). }
    assert (0 <= Dict.count ap (Py.slice_to n k)); [|lia].
    unfold Dict.count. destruct (Dict.get ap (Py.slice_to n k)) as [w|] eqn:E; simpl; [|lia].
    pose proof (dict_get_values _ ap _ w Hap E). simpl in *. lia.
Qed.

End TallyMore.

(** X6. The keys of [answer_plot] are the slices [k[:n]] of the measured
    strings in the order in which they are first met, each once. *)
Theorem tally_keys_in_first_seen_order (n : nat) (measurement_counts : Dict.t Z) :
  exists answer_plot,
    Tally.tally n measurement_counts = Some answer_plot
    /\ Dict.keys answer_plot
       = reverse (remove_dups (reverse (Py.slice_to n <$> Dict.keys measurement_counts))).
Proof. apply tally_loop_keys. Qed.

(** X7. When every measured count is positive, so is every count of the
    tally. *)
Theorem tally_counts_stay_positive (n : nat) (measurement_counts : Dict.t Z) :
  Forall (fun v => 0 < v) (Dict.values measurement_counts) ->
  exists answer_plot,
    Tally.tally n measurement_counts = Some answer_plot
    /\ Forall (fun v => 0 < v) (Dict.values answer_plot).
Proof.
  intros Hmc. apply tally_loop_positive; [done | | constructor].
  by apply Forall_forall.
Qed.

Lemma tally_counts_stay_positive_witness :
  exists answer_plot,
    Tally.tally 5 Tally.sample_counts = Some answer_plot
    /\ Forall (fun v => 0 < v) (Dict.values answer_plot).
Proof.
  apply (tally_counts_stay_positive 5 Tally.sample_counts).
  repeat constructor.
Defined.

Section TallyCompose.

Lemma slice_to_idem (n : nat) (k : string) :
  Py.slice_to n (Py.slice_to n k) = Py.slice_to n k.
Proof.
  unfold Py.slice_to. revert k. induction n as [|n IH]; intros [|c k]; simpl; try done.
  by rewrite IH.
Qed.

Lemma dict_set_new {V : Type} (d : Dict.t V) (k : string) (v : V) :
  k ∉ Dict.keys d -> Dict.set d k v = d ++ [(k, v)].
Proof.
  induction d as [|[k' v'] d IH]; intros Hk; simpl; [done|].
  unfold Dict.keys in Hk. simpl in Hk. apply not_elem_of_cons in Hk as [Hne Hk].
  apply String.eqb_neq in Hne. rewrite Hne. by rewrite IH.
Qed.

Lemma tally_loop_fixed (n : nat) (mc acc : Dict.t Z) (l : list string) :
  NoDup (Dict.keys acc ++ l) -> Forall (fun k => Py.slice_to n k = k) l ->
  Tally.loop n mc acc l = Some (acc ++ ((fun k => (k, Dict.count mc k)) <$> l)).
Proof.
  revert acc. induction l as [|k l IH]; intros acc Hnd Hfix.
  - simpl. by rewrite app_nil_r.
  - apply Forall_cons in Hfix as [Hk Hfix].
    unfold Tally.loop. cbn [foldl mbind option_bind]. rewrite tally_step_total, Hk.
    assert (Hnew : k ∉ Dict.keys acc).
    { apply NoDup_app in Hnd as (_ & Hno & _). intros Hin. apply (Hno k Hin). left. }
    assert (Hc : Dict.count acc k = 0).
    { unfold Dict.count. by rewrite (proj2 (dict_get_None acc k) Hnew). }
    rewrite Hc, Z.add_0_l, (dict_set_new acc k _ Hnew).
    fold (Tally.loop n mc (acc ++ [(k, Dict.count mc k)]) l). rewrite IH.
    + by rewrite <- app_assoc.
    + unfold Dict.keys. rewrite fmap_app. simpl. by rewrite <- app_assoc.
    + done.
Qed.

Lemma dict_items_of_keys (d : Dict.t Z) :
  Dict.wf d -> (fun k => (k, Dict.count d k)) <$> Dict.keys d = d.
Proof.
  intros Hwf. pose proof (dict_get_items d Hwf) as Hall.
  unfold Dict.keys. rewrite <- list_fmap_compose.
  rewrite <- (list_fmap_id d) at 2. apply list_fmap_ext.
  intros i [k v] Hi. simpl. unfold Dict.count.
  pose proof (Forall_lookup_1 _ _ _ _ Hall Hi) as Hkv. simpl in Hkv.
  by rewrite Hkv.
Qed.

Lemma sum_filter_perm (f : string * Z -> bool) (l l' : list (string * Z)) :
  l ≡ₚ l' -> sum (snd <$> List.filter f l) = sum (snd <$> List.filter f l').
Proof.
  unfold sum.
  induction 1 as [|x l l' _ IH|x y l|l l' l'' _ IH1 _ IH2]; cbn [List.filter].
  - done.
  - destruct (f x); cbn [fmap list_fmap foldr]; by rewrite ?IH.
  - destruct (f x), (f y); cbn [fmap list_fmap foldr]; lia.
  - by rewrite IH1.
Qed.

End TallyCompose.

(** X8. Tallying a tally again changes nothing: the keys of [answer_plot]
    are their own slices, so a second pass returns the same dictionary, in the
    same order. *)
Theorem tally_of_tally (n : nat) (measurement_counts answer_plot : Dict.t Z) :
  Dict.wf measurement_counts ->
  Tally.tally n measurement_counts = Some answer_plot ->
  Tally.tally n answer_plot = Some answer_plot.
Proof.
  intros Hwf Hap.
  destruct (tally_loop_spec n measurement_counts (Dict.keys measurement_counts) [])
    as (ap & Hl & Hwf' & Hk & _); [apply NoDup_nil_2|].
  unfold Tally.tally in Hap. rewrite Hl in Hap. injection Hap as ->.
  unfold Tally.tally. rewrite tally_loop_fixed.
  - simpl. by rewrite dict_items_of_keys.
  - done.
  - apply Forall_forall. intros p Hp. apply Hk in Hp as [Hp|(k & _ & <-)].
    + by apply elem_of_nil in Hp.
    + apply slice_to_idem.
Qed.

Lemma tally_of_tally_witness :
  Tally.tally 5 [("11011", 5); ("00000", 4)] = Some [("11011", 5); ("00000", 4)].
Proof.
  apply (tally_of_tally 5 Tally.sample_counts); [by apply dict_wf_decide | reflexivity].
Defined.

(** X9. The counts of the tally do not depend on the order in which the
    measured strings are listed: two orderings of the same measurement counts
    give every slice the same count. *)
Theorem tally_counts_order_independent (n : nat) (mc mc' : Dict.t Z) :
  Dict.wf mc -> mc ≡ₚ mc' ->
  exists ap ap',
    Tally.tally n mc = Some ap /\ Tally.tally n mc' = Some ap'
    /\ forall p, Dict.get ap p = Dict.get ap' p.
Proof.
  intros Hwf Hperm.
  assert (Hwf' : Dict.wf mc').
  { unfold Dict.wf, Dict.keys in *. by rewrite <- Hperm. }
  destruct (tally_loop_spec n mc (Dict.keys mc) []) as (ap & Hl & Hw & Hk & Hc & _);
    [apply NoDup_nil_2|].
  destruct (tally_loop_spec n mc' (Dict.keys mc') []) as (ap' & Hl' & Hw' & Hk' & Hc' & _);
    [apply NoDup_nil_2|].
  exists ap, ap'. split; [exact Hl|]. split; [exact Hl'|]. intros p.
  assert (Hkeys : p ∈ Dict.keys ap <-> p ∈ Dict.keys ap').
  { rewrite Hk, Hk'. unfold Dict.keys.
    split; (intros [H|(k & Hin & Hp)]; [by left | right; exists k; split; [|done]]).
    - by rewrite <- Hperm.
    - by rewrite Hperm. }
  assert (Hcount : Dict.count ap p = Dict.count ap' p).
  { rewrite Hc, Hc', !gathered_keys by done. unfold Tally.group_count.
    f_equal. by apply sum_filter_perm. }
  unfold Dict.count in Hcount.
  destruct (Dict.get ap p) as [v|] eqn:E, (Dict.get ap' p) as [v'|] eqn:E'; simpl in *.
  - by subst.
  - exfalso. apply dict_get_None in E'. apply E', Hkeys.
    destruct (decide (p ∈ Dict.keys ap)) as [|Hn]; [done|].
    apply dict_get_None in Hn. congruence.
  - exfalso. apply dict_get_None in E. apply E, Hkeys.
    destruct (decide (p ∈ Dict.keys ap')) as [|Hn]; [done|].
    apply dict_get_None in Hn. congruence.
  - done.
Qed.

Lemma tally_counts_order_independent_witness :
  exists ap ap',
    Tally.tally 5 Tally.sample_counts = Some ap
    /\ Tally.tally 5 (reverse Tally.sample_counts) = Some ap'
    /\ forall p, Dict.get ap p = Dict.get ap' p.
Proof.
  apply (tally_counts_order_independent 5 Tally.sample_counts (reverse Tally.sample_counts)).
  - by apply dict_wf_decide.
  - symmetry. apply reverse_Permutation.
Defined.

(** ** More on the recovery *)

Section RecoverMore.

Lemma bitstring_in_all (y : string) :
  is_bitstring y = true -> y ∈ Recover.all_bitstrings (String.length y).
Proof.
  induction y as [|c y IH]; intros Hy; simpl; [by left|].
  apply is_bitstring_cons in Hy as [Hc Hy]. specialize (IH Hy).
  unfold is_bit in Hc. apply orb_true_iff in Hc as [Hc|Hc];
    apply Ascii.eqb_eq in Hc; subst c; apply elem_of_app; [left|right];
    apply list_elem_of_fmap; by exists y.
Qed.

Lemma decimal_xor_short :
  Forall (fun n =>
    Forall (fun y1 =>
      Forall (fun y2 => Recover.decimal_xor y1 y2 = Py.int (Recover.xor_strings y1 y2))
             (Recover.all_bitstrings n))
      (Recover.all_bitstrings n))
    [0; 1; 2; 3]%nat.
Proof. repeat constructor. Qed.

Lemma keys_pair {V : Type} (d : Dict.t V) (a b : string) :
  Dict.keys d = [a; b] -> exists va vb, d = [(a, va); (b, vb)].
Proof.
  destruct d as [|[k1 v1] [|[k2 v2] [|? ?]]]; try done.
  intros [= -> ->]. by exists v1, v2.
Qed.

Lemma s_calc_keys (d : Dict.t Z) (a b : string) :
  Dict.keys d = [a; b] -> Recover.s_calc d = Recover.decimal_xor a b.
Proof. intros Hk. unfold Recover.s_calc. by rewrite Hk. Qed.

Lemma decimal_xor_comm (a b : string) :
  Recover.decimal_xor a b = Recover.decimal_xor b a.
Proof.
  unfold Recover.decimal_xor.
  destruct (Py.int a), (Py.int b); simpl; try done. by rewrite Z.lxor_comm.
Qed.

End RecoverMore.

(** X10. For two keys of equal length up to three bits, as with the
    hard-coded [s = '110'], [s_calc] is the decimal reading of the bitwise XOR
    of the two keys. *)
Theorem s_calc_is_bitwise_xor_up_to_3_bits (y1 y2 : string) (c1 c2 : Z) :
  is_bitstring y1 = true -> is_bitstring y2 = true ->
  String.length y1 = String.length y2 -> (String.length y1 <= 3)%nat ->
  Recover.s_calc [(y1, c1); (y2, c2)] = Py.int (Recover.xor_strings y1 y2).
Proof.
  intros H1 H2 Hlen H3.
  pose proof (bitstring_in_all y1 H1) as Hin1.
  pose proof (bitstring_in_all y2 H2) as Hin2. rewrite <- Hlen in Hin2.
  change (Recover.s_calc [(y1, c1); (y2, c2)]) with (Recover.decimal_xor y1 y2).
  pose proof decimal_xor_short as Hall. rewrite Forall_forall in Hall.
  assert (Hn : String.length y1 ∈ [0; 1; 2; 3]%nat).
  { destruct (String.length y1) as [|[|[|[|n]]]]; [| | | |lia];
      repeat (first [left | right]). }
  specialize (Hall _ Hn). rewrite Forall_forall in Hall.
  specialize (Hall _ Hin1). rewrite Forall_forall in Hall. by apply Hall.
Qed.

Lemma s_calc_is_bitwise_xor_up_to_3_bits_witness :
  Recover.s_calc [("011", 3); ("101", 2)] = Py.int (Recover.xor_strings "011" "101").
Proof.
  apply (s_calc_is_bitwise_xor_up_to_3_bits "011" "101" 3 2);
    first [reflexivity | simpl; lia].
Defined.

(** X11. [s_calc] does not depend on which of the two keys comes first in
    [answer_plot]: two tallies with the same keys, in any order, give the same
    result (or both raise). *)
Theorem s_calc_key_order_independent (ap ap' : Dict.t Z) :
  Dict.keys ap ≡ₚ Dict.keys ap' -> Recover.s_calc ap = Recover.s_calc ap'.
Proof.
  intros Hperm. pose proof (Permutation_length Hperm) as Hlen.
  destruct (Dict.keys ap) as [|a [|b [|c l]]] eqn:Hk;
    destruct (Dict.keys ap') as [|a' [|b' [|c' l']]] eqn:Hk'; try done;
    try (unfold Recover.s_calc; by rewrite Hk, Hk').
  rewrite (s_calc_keys ap a b Hk), (s_calc_keys ap' a' b' Hk').
  apply Permutation_length_2 in Hperm as [[-> ->]|[-> ->]]; [done|].
  apply decimal_xor_comm.
Qed.

Lemma s_calc_key_order_independent_witness :
  Recover.s_calc [("11011", 5); ("00000", 4)] = Recover.s_calc [("00000", 4); ("11011", 5)].
Proof.
  apply (s_calc_key_order_independent [("11011", 5); ("00000", 4)] [("00000", 4); ("11011", 5)]).
  apply Permutation_swap.
Defined.

(** X12. From measurement counts whose strings start with [s] or with the
    all-zero string, both occurring, as the ideal simulator returns them, the
    tally followed by the recovery yields the decimal reading of [s]. *)
Theorem recovery_from_ideal_counts (s : string) (measurement_counts : Dict.t Z) :
  let n := String.length s in
  is_bitstring s = true -> s <> Py.repeat0 n ->
  Forall (fun k => Py.slice_to n k = s \/ Py.slice_to n k = Py.repeat0 n)
         (Dict.keys measurement_counts) ->
  Exists (fun k => Py.slice_to n k = s) (Dict.keys measurement_counts) ->
  Exists (fun k => Py.slice_to n k = Py.repeat0 n) (Dict.keys measurement_counts) ->
  exists answer_plot,
    Tally.tally n measurement_counts = Some answer_plot
    /\ is_Some (Py.int s)
    /\ Recover.s_calc answer_plot = Py.int s.
Proof.
  intros n Hs Hnz Hall Hex1 Hex0.
  destruct (tally_loop_spec n measurement_counts (Dict.keys measurement_counts) [])
    as (ap & Hl & Hwf' & Hk & _); [apply NoDup_nil_2|].
  assert (Hn0 : n <> 0%nat).
  { intros H0. apply Hnz. rewrite H0. unfold n in H0. by destruct s. }
  assert (Hne : s <> EmptyString) by (intros ->; by apply Hn0).
  destruct (int_bitstring s Hne Hs) as [v Hv].
  exists ap. split; [exact Hl|]. split; [by eexists|].
  assert (Hkeys : forall y, y ∈ Dict.keys ap <-> y = s \/ y = Py.repeat0 n).
  { intros y. rewrite Hk. split.
    - intros [H|(k & Hin & <-)]; [by apply elem_of_nil in H|].
      rewrite Forall_forall in Hall. by apply Hall.
    - intros [->| ->]; right.
      + apply Exists_exists in Hex1 as (k & Hin & Hp). by exists k.
      + apply Exists_exists in Hex0 as (k & Hin & Hp). by exists k. }
  assert (Hlen : length (Dict.keys ap) = 2%nat).
  { apply two_distinct_keys; [exact Hwf'|]. by exists s, (Py.repeat0 n). }
  destruct (Dict.keys ap) as [|a [|b [|c l]]] eqn:Hkap; try done.
  destruct (keys_pair ap a b Hkap) as (va & vb & ->).
  assert (Ha : a = s \/ a = Py.repeat0 n) by (apply Hkeys; left).
  assert (Hb : b = s \/ b = Py.repeat0 n) by (apply Hkeys; right; left).
  assert (Hab : a <> b).
  { unfold Dict.wf in Hwf'. rewrite Hkap in Hwf'.
    apply NoDup_cons in Hwf' as [Hnin _]. intros ->. apply Hnin. left. }
  rewrite Hv.
  destruct Ha as [->| ->], Hb as [->| ->]; try done.
  - by apply s_calc_with_zero_key.
  - by apply s_calc_with_zero_key.
Qed.

Lemma recovery_from_ideal_counts_witness :
  exists answer_plot,
    Tally.tally 5 Tally.sample_counts = Some answer_plot
    /\ is_Some (Py.int "11011")
    /\ Recover.s_calc answer_plot = Py.int "11011".
Proof.
  apply (recovery_from_ideal_counts "11011" Tally.sample_counts).
  - reflexivity.
  - discriminate.
  - cbv [Tally.sample_counts Dict.keys fmap list_fmap fst].
    repeat (apply Forall_cons; split;
            [first [left; reflexivity | right; reflexivity]|]).
    apply Forall_nil_2.
  - cbv [Tally.sample_counts Dict.keys fmap list_fmap fst].
    apply Exists_cons_hd. reflexivity.
  - cbv [Tally.sample_counts Dict.keys fmap list_fmap fst].
    apply Exists_cons_tl, Exists_cons_hd. reflexivity.
Defined.

(** ** More on the post-processing cell *)

Section PostProcessingMore.
Import PostProcessing.

(** The rows of [Y], read as bit vectors. *)
Lemma odd_b2z_row (r : list bool) : Z.odd <$> (Z.b2z <$> r) = r.
Proof.
  rewrite <- list_fmap_compose. rewrite <- (list_fmap_id r) at 2.
  apply list_fmap_ext. intros _ b _. by destruct b.
Qed.

Lemma odd_b2z_matrix (m : GF2.matrix) :
  (fun row : list Z => Z.odd <$> row) <$> ((fun row : list bool => Z.b2z <$> row) <$> m) = m.
Proof.
  rewrite <- list_fmap_compose. rewrite <- (list_fmap_id m) at 2.
  apply list_fmap_ext. intros _ r _. apply odd_b2z_row.
Qed.

Lemma post_processing_unfold (n : nat) (answer_plot : Dict.t Z) :
  Forall (fun k => String.length k = n /\ is_bitstring k = true) (Dict.keys answer_plot) ->
  let lAnswer := sort_by_count (nonzero_items n answer_plot) in
  let Ybits := (fun kv : string * Z => bits_of (fst kv)) <$> lAnswer in
  let Y := (fun row : list bool => Z.b2z <$> row) <$> Ybits in
  let Y_new := (fun row : list bool => Z.b2z <$> row) <$> GF2.rref n Ybits in
  rect n Ybits
  /\ post_processing n answer_plot
     = Some ([PrintMatrix Y; PrintMatrix Y_new; PrintLine (header n)]
             ++ ((fun row => PrintLine (equation row)) <$> List.filter has_one Y_new)).
Proof.
  intros Hkeys lAnswer Ybits Y Y_new.
  assert (Hall : Forall (fun kv : string * Z =>
                   String.length (fst kv) = n /\ is_bitstring (fst kv) = true) lAnswer).
  { unfold lAnswer. rewrite sort_by_count_perm. unfold nonzero_items, Dict.items.
    apply Forall_forall. intros kv Hkv. apply list_elem_of_In, filter_In in Hkv as [Hkv _].
    rewrite Forall_forall in Hkeys. apply Hkeys. unfold Dict.keys.
    apply list_elem_of_fmap. exists kv. split; [done | by apply list_elem_of_In]. }
  assert (HYeq : Y = (fun kv : string * Z =>
                        (fun c => Z.b2z (bit_of_char c)) <$> Py.chars (fst kv)) <$> lAnswer).
  { unfold Y, Ybits. rewrite <- list_fmap_compose. apply list_fmap_ext.
    intros _ kv _. simpl. unfold bits_of. by rewrite <- list_fmap_compose. }
  assert (HY : build_Y lAnswer = Some Y).
  { unfold build_Y. rewrite build_Y_rows; [by rewrite HYeq|].
    eapply Forall_impl; [exact Hall|]. by intros kv [_ ?]. }
  assert (Hrb : rect n Ybits).
  { unfold rect, Ybits. apply Forall_fmap. eapply Forall_impl; [exact Hall|].
    intros kv [Hlen _]. simpl. unfold bits_of. by rewrite length_fmap, length_chars. }
  assert (Hrect : rect n Y).
  { unfold rect, Y. apply Forall_fmap. eapply Forall_impl; [exact Hrb|].
    intros row Hrow. simpl. by rewrite length_fmap. }
  split; [exact Hrb|].
  pose proof (reduce_mod2_gf2 n Y Hrect) as Hred.
  unfold Y in Hred at 2. rewrite odd_b2z_matrix in Hred. fold Y_new in Hred.
  unfold post_processing. fold lAnswer. rewrite HY. simpl.
  rewrite Hred. simpl. by rewrite print_loop_equations.
Qed.

(** The left-hand side of a printed equation is the dot product with the
    row. *)
Lemma lhs_from (r s : list bool) (k : nat) :
  foldr xorb false
    ((fun i => default false (s !! (i - k)%nat))
       <$> List.filter (fun i => bool_decide ((Z.b2z <$> r) !! (i - k)%nat = Some 1))
                       (seq k (length r)))
  = GF2.dot r s.
Proof.
  revert s k. induction r as [|b r IH]; intros s k; [done|].
  cbn [length seq List.filter].
  replace (k - k)%nat with 0%nat by lia.
  rewrite (filter_ext_in _ (fun i => bool_decide ((Z.b2z <$> r) !! (i - S k)%nat = Some 1))).
  2:{ intros i Hi. apply in_seq in Hi.
      replace (i - k)%nat with (S (i - S k)) by lia. done. }
  assert (Htl : forall l : list nat, Forall (fun i => S k <= i)%nat l ->
            (fun i => default false (s !! (i - k)%nat)) <$> l
            = (fun i => default false (tail s !! (i - S k)%nat)) <$> l).
  { intros l Hl. apply list_fmap_ext. intros j i Hi.
    rewrite Forall_forall in Hl. apply list_elem_of_lookup_2, Hl in Hi.
    replace (i - k)%nat with (S (i - S k)) by lia. by destruct s. }
  assert (Hge : Forall (fun i => S k <= i)%nat
            (List.filter (fun i => bool_decide ((Z.b2z <$> r) !! (i - S k)%nat = Some 1))
                         (seq (S k) (length r)))).
  { apply Forall_forall. intros i Hi. apply list_elem_of_In, filter_In in Hi as [Hi _].
    apply in_seq in Hi. lia. }
  unfold GF2.dot in *. destruct b; cbn [fmap list_fmap lookup list_lookup Z.b2z].
  - rewrite bool_decide_eq_true_2 by done. cbn [fmap list_fmap foldr].
    rewrite (Htl _ Hge), (IH (tail s) (S k)).
    replace (k - k)%nat with 0%nat by lia.
    destruct s as [|v s]; simpl; [|done].
    by destruct r.
  - rewrite bool_decide_eq_false_2 by done.
    rewrite (Htl _ Hge), (IH (tail s) (S k)).
    destruct s as [|v s]; simpl; [|done].
    by destruct r.
Qed.

Lemma lhs_dot (r s : list bool) : lhs_mod2 (Z.b2z <$> r) s = GF2.dot r s.
Proof.
  unfold lhs_mod2, ones. rewrite length_fmap. rewrite <- (lhs_from r s 0).
  f_equal.
  rewrite (filter_ext (fun i => bool_decide ((Z.b2z <$> r) !! (i - 0)%nat = Some 1))
                      (fun i => bool_decide ((Z.b2z <$> r) !! i = Some 1)))
    by (intros i; by rewrite Nat.sub_0_r).
  apply list_fmap_ext. intros _ i _. by rewrite Nat.sub_0_r.
Qed.

Lemma has_one_b2z (r : list bool) : has_one (Z.b2z <$> r) = existsb id r.
Proof. unfold has_one. induction r as [|[] r IH]; simpl; [done|done|exact IH]. Qed.

Lemma dot_no_one (r s : list bool) : existsb id r = false -> GF2.dot r s = false.
Proof.
  unfold GF2.dot. revert s. induction r as [|b r IH]; intros s H; [done|].
  simpl in H. apply orb_false_iff in H as [-> H]. destruct s as [|v s]; [done|].
  simpl. by apply IH.
Qed.

Lemma dot_repeat0 (n : nat) (s : list bool) : GF2.dot (bits_of (Py.repeat0 n)) s = false.
Proof.
  apply dot_no_one. induction n as [|n IH]; [done|]. exact IH.
Qed.

End PostProcessingMore.

(** X13. The equations printed by the post-processing cell have exactly the
    solutions [s] with [y . s = 0 (mod 2)] for every measured string [y]: the
    reduction loses no constraint and adds none. *)
Theorem printed_equations_same_solutions (n : nat) (answer_plot : Dict.t Z) :
  Forall (fun k => String.length k = n /\ is_bitstring k = true) (Dict.keys answer_plot) ->
  exists Y Y_new,
    PostProcessing.post_processing n answer_plot
    = Some ([PostProcessing.PrintMatrix Y; PostProcessing.PrintMatrix Y_new;
             PostProcessing.PrintLine (PostProcessing.header n)]
            ++ ((fun row => PostProcessing.PrintLine (PostProcessing.equation row))
                  <$> List.filter PostProcessing.has_one Y_new))
    /\ forall s : list bool,
         Forall (fun row => lhs_mod2 row s = false) (List.filter PostProcessing.has_one Y_new)
         <-> Forall (fun y => Circuit.dot_parity y s = false) (Dict.keys answer_plot).
Proof.
  intros Hkeys. destruct (post_processing_unfold n answer_plot Hkeys) as [Hrb Hout].
  set (lAnswer := PostProcessing.sort_by_count (PostProcessing.nonzero_items n answer_plot)) in *.
  set (Ybits := (fun kv : string * Z => bits_of (fst kv)) <$> lAnswer) in *.
  eexists _, _. split; [exact Hout|]. intros s.
  transitivity (GF2.solves (GF2.rref n Ybits) s).
  { unfold GF2.solves. rewrite !Forall_forall. split.
    - intros H r Hr. destruct (existsb id r) eqn:E; [|by apply dot_no_one].
      rewrite <- lhs_dot. apply H. apply list_elem_of_In, filter_In. split.
      + apply list_elem_of_In, list_elem_of_fmap. by exists r.
      + by rewrite has_one_b2z.
    - intros H row Hrow. apply list_elem_of_In, filter_In in Hrow as [Hrow _].
      apply list_elem_of_In, list_elem_of_fmap in Hrow as (r & -> & Hr).
      rewrite lhs_dot. by apply H. }
  rewrite (rref_solves n Ybits s Hrb).
  unfold GF2.solves, Ybits. rewrite Forall_fmap.
  unfold lAnswer. rewrite sort_by_count_perm.
  unfold PostProcessing.nonzero_items, Dict.items, Dict.keys.
  rewrite Forall_fmap, !Forall_forall. split.
  - intros H kv Hkv. simpl. rewrite dot_parity_dot.
    destruct (String.eqb (fst kv) (Py.repeat0 n)) eqn:E.
    + apply String.eqb_eq in E. rewrite E. apply dot_repeat0.
    + apply (H kv). apply list_elem_of_In, filter_In. split; [by apply list_elem_of_In|].
      by rewrite E.
  - intros H kv Hkv. apply list_elem_of_In, filter_In in Hkv as [Hkv _].
    simpl. rewrite <- dot_parity_dot. apply (H kv). by apply list_elem_of_In.
Qed.

Lemma printed_equations_same_solutions_witness :
  exists Y Y_new,
    PostProcessing.post_processing 3 [("110", 5); ("000", 4); ("011", 5); ("101", 7)]
    = Some ([PostProcessing.PrintMatrix Y; PostProcessing.PrintMatrix Y_new;
             PostProcessing.PrintLine (PostProcessing.header 3)]
            ++ ((fun row => PostProcessing.PrintLine (PostProcessing.equation row))
                  <$> List.filter PostProcessing.has_one Y_new))
    /\ forall s : list bool,
         Forall (fun row => lhs_mod2 row s = false) (List.filter PostProcessing.has_one Y_new)
         <-> Forall (fun y => Circuit.dot_parity y s = false)
                    (Dict.keys [("110", 5); ("000", 4); ("011", 5); ("101", 7)]).
Proof.
  apply (printed_equations_same_solutions 3 [("110", 5); ("000", 4); ("011", 5); ("101", 7)]).
  repeat constructor.
Defined.

Section Rank.
Import PostProcessing.

Lemma filter_take {A : Type} (f : A -> bool) (l : list A) (k : nat) :
  (forall i x, l !! i = Some x -> f x = bool_decide (i < k)%nat) ->
  List.filter f l = take k l.
Proof.
  revert k. induction l as [|x l IH]; intros k H; [by destruct k|].
  pose proof (H 0%nat x eq_refl) as H0. simpl. rewrite H0.
  destruct k as [|k].
  - rewrite bool_decide_eq_false_2 by lia. rewrite (IH 0%nat); [done|].
    intros i y Hy. rewrite (H (S i) y Hy). apply bool_decide_ext. lia.
  - rewrite bool_decide_eq_true_2 by lia. simpl. f_equal. apply IH.
    intros i y Hy. rewrite (H (S i) y Hy). apply bool_decide_ext. lia.
Qed.

Lemma sorted_length (ps : list nat) (a n : nat) :
  (a <= n)%nat ->
  StronglySorted lt ps -> Forall (fun j => a <= j)%nat ps -> Forall (fun j => j < n)%nat ps ->
  (length ps + a <= n)%nat.
Proof.
  revert a. induction ps as [|x ps IH]; intros a Han Hs Ha Hn; [simpl; lia|].
  apply StronglySorted_inv in Hs as [Hs Hx].
  apply Forall_cons in Ha as [Ha _]. apply Forall_cons in Hn as [Hxn Hn].
  assert (H : (length ps + S x <= n)%nat).
  { apply IH; [lia|exact Hs| |exact Hn]. eapply Forall_impl; [exact Hx|]. simpl. lia. }
  simpl. lia.
Qed.

Lemma pivots_lt (ncols : nat) (m : GF2.matrix) :
  rect ncols m -> Forall (fun j => j < ncols)%nat (GF2.pivots ncols m).
Proof.
  intros Hr.
  destruct (eliminate_echelon ncols ncols 0 0 [] m Hr (echelon_start m))
    as (_ & _ & _ & H & _).
  exact H.
Qed.

Lemma all_false_row (n : nat) (r : list bool) :
  length r = n -> (forall j, default false (r !! j) = false) -> r = replicate n false.
Proof.
  intros Hn H. apply list_eq. intros j. specialize (H j).
  destruct (decide (j < n)%nat) as [Hj|Hj].
  - rewrite (lookup_replicate_2 n false j Hj).
    destruct (r !! j) as [b|] eqn:E; [simpl in H; by subst|].
    apply lookup_ge_None in E. lia.
  - rewrite lookup_ge_None_2 by lia. symmetry. apply lookup_replicate_None. lia.
Qed.

(** The shape of a reduced matrix: its first [k] rows are the pivot rows,
    with [k] at most the number of rows and of columns, and the others are
    zero. *)
Lemma rref_shape (ncols : nat) (m : GF2.matrix) :
  rect ncols m ->
  let k := length (GF2.pivots ncols m) in
  (k <= ncols)%nat /\ (k <= length m)%nat
  /\ (forall i r, GF2.rref ncols m !! i = Some r ->
        existsb id r = bool_decide (i < k)%nat)
  /\ drop k (GF2.rref ncols m) = replicate (length m - k) (replicate ncols false).
Proof.
  intros Hr k.
  destruct (rref_is_rref ncols m Hr) as (Hs & Hlen & Hpiv & Hzero).
  assert (Hlm : length (GF2.rref ncols m) = length m) by apply eliminate_length.
  assert (Hrr : rect ncols (GF2.rref ncols m)) by by apply eliminate_rect.
  rewrite Hlm in Hlen. fold k in Hlen, Hzero.
  split.
  { pose proof (sorted_length (GF2.pivots ncols m) 0 ncols) as H. unfold k.
    rewrite Nat.add_0_r in H. apply H; [lia|exact Hs| |by apply pivots_lt].
    apply Forall_forall. intros; lia. }
  split; [exact Hlen|]. split.
  - intros i r Hi. destruct (decide (i < k)%nat) as [Hik|Hik].
    + rewrite bool_decide_eq_true_2 by done.
      destruct (lookup_lt_is_Some_2 (GF2.pivots ncols m) i Hik) as [c Hc].
      destruct (Hpiv i c Hc) as (Hb & _). rewrite (bit_lookup _ _ _ _ Hi) in Hb.
      apply existsb_exists. exists true. split; [|done].
      destruct (r !! c) as [b|] eqn:E; [|done]. simpl in Hb. subst b.
      apply list_elem_of_In. eapply list_elem_of_lookup_2. exact E.
    + rewrite bool_decide_eq_false_2 by done.
      rewrite (all_false_row ncols r).
      * clear. induction ncols; [done|]. done.
      * by apply (rect_lookup ncols (GF2.rref ncols m) i).
      * intros j. rewrite <- (bit_lookup _ _ j _ Hi). apply Hzero. lia.
  - apply list_eq. intros i. rewrite lookup_drop.
    destruct (decide (i < length m - k)%nat) as [Hi|Hi].
    + rewrite (lookup_replicate_2 _ _ i Hi).
      destruct (lookup_lt_is_Some_2 (GF2.rref ncols m) (k + i)) as [r Hri]; [lia|].
      rewrite Hri. f_equal. apply all_false_row.
      * by apply (rect_lookup ncols (GF2.rref ncols m) (k + i)%nat).
      * intros j. rewrite <- (bit_lookup _ _ j _ Hri). apply Hzero. lia.
    + rewrite lookup_ge_None_2 by lia. symmetry. apply lookup_replicate_None. lia.
Qed.

End Rank.

(** X14. The cell prints at most [n] equations and at most one per measured
    non-zero string: the rows of [Y_new] that give an equation are its first
    [k] rows, and the rows after them are zero. *)
Theorem equations_are_the_first_rows (n : nat) (answer_plot : Dict.t Z) :
  Forall (fun k => String.length k = n /\ is_bitstring k = true) (Dict.keys answer_plot) ->
  exists Y Y_new k,
    PostProcessing.post_processing n answer_plot
    = Some ([PostProcessing.PrintMatrix Y; PostProcessing.PrintMatrix Y_new;
             PostProcessing.PrintLine (PostProcessing.header n)]
            ++ ((fun row => PostProcessing.PrintLine (PostProcessing.equation row))
                  <$> take k Y_new))
    /\ length Y = length (PostProcessing.nonzero_items n answer_plot)
    /\ (k <= n)%nat /\ (k <= length Y)%nat
    /\ List.filter PostProcessing.has_one Y_new = take k Y_new
    /\ drop k Y_new = replicate (length Y - k) (replicate n 0).
Proof.
  intros Hkeys. destruct (post_processing_unfold n answer_plot Hkeys) as [Hrb Hout].
  set (lAnswer := PostProcessing.sort_by_count (PostProcessing.nonzero_items n answer_plot)) in *.
  set (Ybits := (fun kv : string * Z => bits_of (fst kv)) <$> lAnswer) in *.
  destruct (rref_shape n Ybits Hrb) as (Hkn & Hkm & Hrows & Hdrop).
  set (k := length (GF2.pivots n Ybits)) in *.
  assert (Hfilter : List.filter PostProcessing.has_one
            ((fun row : list bool => Z.b2z <$> row) <$> GF2.rref n Ybits)
          = take k ((fun row : list bool => Z.b2z <$> row) <$> GF2.rref n Ybits)).
  { apply filter_take. intros i row Hi. rewrite list_lookup_fmap in Hi.
    destruct (GF2.rref n Ybits !! i) as [r|] eqn:E; [|done].
    simpl in Hi. injection Hi as <-. rewrite has_one_b2z. by apply Hrows. }
  eexists _, _, k. split; [rewrite <- Hfilter; exact Hout|].
  assert (HlY : length ((fun row : list bool => Z.b2z <$> row) <$> Ybits)
                = length (PostProcessing.nonzero_items n answer_plot)).
  { unfold Ybits, lAnswer. rewrite !length_fmap. by rewrite sort_by_count_perm. }
  split; [exact HlY|]. split; [exact Hkn|].
  split; [by rewrite length_fmap|]. split; [exact Hfilter|].
  rewrite <- fmap_drop, Hdrop, !fmap_replicate. by rewrite !length_fmap.
Qed.

Lemma equations_are_the_first_rows_witness :
  exists Y Y_new k,
    PostProcessing.post_processing 3 [("110", 5); ("000", 4); ("011", 5); ("101", 7)]
    = Some ([PostProcessing.PrintMatrix Y; PostProcessing.PrintMatrix Y_new;
             PostProcessing.PrintLine (PostProcessing.header 3)]
            ++ ((fun row => PostProcessing.PrintLine (PostProcessing.equation row))
                  <$> take k Y_new))
    /\ length Y = length (PostProcessing.nonzero_items 3
                            [("110", 5); ("000", 4); ("011", 5); ("101", 7)])
    /\ (k <= 3)%nat /\ (k <= length Y)%nat
    /\ List.filter PostProcessing.has_one Y_new = take k Y_new
    /\ drop k Y_new = replicate (length Y - k) (replicate 3 0).
Proof.
  apply (equations_are_the_first_rows 3 [("110", 5); ("000", 4); ("011", 5); ("101", 7)]).
  repeat constructor.
Defined.

Section FixedPoint.
Import GF2.

Lemma clear_column_id (c r : nat) (m : matrix) :
  (forall i, i <> r -> bit m i c = false) -> clear_column c r m = m.
Proof.
  intros H. unfold clear_column. destruct (m !! r) as [pr|]; [|done].
  apply list_eq. intros i. rewrite list_lookup_imap.
  destruct (m !! i) as [row|] eqn:E; [|done]. simpl. f_equal.
  destruct (Nat.eqb_spec i r) as [->|Hne]; [done|]. simpl.
  specialize (H i Hne). rewrite (bit_lookup m i c row E) in H. by rewrite H.
Qed.

Lemma find_row_pivot (c r : nat) (m : matrix) :
  bit m r c = true -> (forall i, i <> r -> bit m i c = false) -> find_row c r m = Some r.
Proof.
  intros Hr Hother. destruct (find_row c r m) as [i|] eqn:E.
  - apply find_row_Some in E as [_ Hi]. f_equal.
    destruct (decide (i = r)) as [->|Hne]; [done|].
    rewrite (Hother i Hne) in Hi. done.
  - rewrite find_row_None in E. rewrite (E r) in Hr; [done | lia].
Qed.

(** On a reduced matrix the elimination changes nothing and finds the
    pivots again. *)
Lemma eliminate_fixed (ncols k c r : nat) (ps1 ps2 : list nat) (m : matrix) :
  rect ncols m -> is_rref (ps1 ++ ps2) m -> length ps1 = r ->
  Forall (fun j => c <= j < c + k)%nat ps2 ->
  eliminate (seq c k) r m = (m, ps2).
Proof.
  intros Hrect (Hs & Hlen & Hpiv & Hzero). revert c r ps1 ps2 Hs Hlen Hpiv Hzero.
  induction k as [|k IH]; intros c r ps1 ps2 Hs Hlen Hpiv Hzero Hr H2.
  - destruct ps2 as [|j ps2]; [done|]. apply Forall_cons in H2 as [H2 _]. lia.
  - cbn [seq eliminate].
    assert (Htail : forall c' ps2', ps2 = c' :: ps2' ->
              Forall (fun j => S c' <= j)%nat ps2').
    { intros c' ps2' ->. apply StronglySorted_app_1_r in Hs.
      apply StronglySorted_inv in Hs as [_ Hs]. eapply Forall_impl; [exact Hs|].
      simpl. lia. }
    destruct ps2 as [|c' ps2'].
    + rewrite (proj2 (find_row_None c r m)).
      * by apply (IH (S c) r ps1 []).
      * intros i Hi. apply Hzero. rewrite length_app. simpl. lia.
    + specialize (Htail c' ps2' eq_refl).
      pose proof H2 as H2'. apply Forall_cons in H2' as [Hc' H2'].
      destruct (decide (c' = c)) as [->|Hne].
      * assert (Hrc : (ps1 ++ c :: ps2') !! r = Some c).
        { rewrite lookup_app_r by lia. by replace (r - length ps1)%nat with 0%nat by lia. }
        destruct (Hpiv r c Hrc) as (Hb & _ & Hother).
        rewrite (find_row_pivot c r m Hb Hother). rewrite swap_same.
        rewrite (clear_column_id c r m Hother).
        rewrite (IH (S c) (S r) (ps1 ++ [c]) ps2'); [done|by rewrite <- app_assoc|
          by rewrite <- app_assoc|by rewrite <- app_assoc|by rewrite <- app_assoc|
          rewrite length_app; simpl; lia|].
        apply Forall_forall. intros j Hj. rewrite Forall_forall in Htail, H2'.
        specialize (Htail j Hj). specialize (H2' j Hj). lia.
      * rewrite (proj2 (find_row_None c r m)).
        { apply (IH (S c) r ps1 (c' :: ps2')); try done.
          apply Forall_cons. split; [lia|].
          apply Forall_forall. intros j Hj. rewrite Forall_forall in Htail, H2'.
          specialize (Htail j Hj). specialize (H2' j Hj). lia. }
        intros i Hi.
        destruct (decide (i < length (ps1 ++ c' :: ps2'))%nat) as [Hlt|Hge];
          [|apply Hzero; lia].
        destruct (lookup_lt_is_Some_2 _ i Hlt) as [j Hj].
        destruct (Hpiv i j Hj) as (_ & Hbefore & _). apply Hbefore.
        rewrite lookup_app_r in Hj by lia.
        apply list_elem_of_lookup_2 in Hj. apply elem_of_cons in Hj as [->|Hj]; [lia|].
        rewrite Forall_forall in Htail. specialize (Htail j Hj). lia.
Qed.

Lemma rref_fixed (ncols : nat) (ps : list nat) (m : matrix) :
  rect ncols m -> is_rref ps m -> rref ncols m = m /\ pivots ncols m = ps.
Proof.
  intros Hrect Hrref. unfold rref, pivots.
  rewrite (eliminate_fixed ncols ncols 0 0 [] ps m Hrect Hrref eq_refl); [done|].
  destruct Hrref as (_ & _ & Hpiv & _).
  apply Forall_forall. intros j Hj. apply list_elem_of_lookup_1 in Hj as [i Hi].
  destruct (Hpiv i j Hi) as (Hb & _).
  destruct (decide (j < ncols)%nat) as [|Hge]; [lia|].
  rewrite (bit_ge_cols ncols m i j Hrect) in Hb; [done | lia].
Qed.

Lemma eliminate_single (columns : list nat) (row : list bool) :
  fst (eliminate columns 0 [row]) = [row].
Proof.
  induction columns as [|c columns IH]; [done|]. cbn [eliminate].
  destruct (find_row c 0 [row]) as [i|] eqn:E; [|exact IH].
  apply find_row_Some in E as [Hi _]. simpl in Hi.
  assert (i = 0%nat) as -> by lia. rewrite swap_same. cbn [fst].
  change (clear_column c 0 [row]) with [row].
  by rewrite eliminate_done by (simpl; lia).
Qed.

End FixedPoint.

Lemma b2z_odd_matrix (Y : list (list Z)) :
  bit_matrix Y ->
  (fun row : list bool => Z.b2z <$> row) <$> ((fun row : list Z => Z.odd <$> row) <$> Y) = Y.
Proof.
  intros HY. rewrite <- list_fmap_compose. rewrite <- (list_fmap_id Y) at 2.
  apply list_fmap_ext. intros i row Hi. simpl. rewrite <- list_fmap_compose.
  rewrite <- (list_fmap_id row) at 2. apply list_fmap_ext. intros j v Hv. simpl.
  unfold bit_matrix in HY. rewrite Forall_lookup in HY. specialize (HY i row Hi).
  rewrite Forall_lookup in HY. by destruct (HY j v Hv) as [-> | ->].
Qed.

Lemma rect_odd (ncols : nat) (Y : list (list Z)) :
  rect ncols Y -> rect ncols ((fun row : list Z => Z.odd <$> row) <$> Y).
Proof.
  intros H. unfold rect. apply Forall_fmap. eapply Forall_impl; [exact H|].
  intros row Hrow. simpl. by rewrite length_fmap.
Qed.

Lemma rect_b2z (ncols : nat) (m : GF2.matrix) :
  rect ncols m -> rect ncols ((fun row : list bool => Z.b2z <$> row) <$> m).
Proof.
  intros H. unfold rect. apply Forall_fmap. eapply Forall_impl; [exact H|].
  intros row Hrow. simpl. by rewrite length_fmap.
Qed.

(** X15. Reducing twice is reducing once: the matrix [Y_new] that the row
    reduction and the map modulo 2 return is a fixed point of the two. *)
Theorem reduce_mod2_idempotent (ncols : nat) (Y Y_new : list (list Z)) :
  rect ncols Y ->
  PostProcessing.reduce_mod2 Y = Some Y_new ->
  PostProcessing.reduce_mod2 Y_new = Some Y_new.
Proof.
  intros Hrect HY. rewrite (reduce_mod2_gf2 ncols Y Hrect) in HY. injection HY as <-.
  set (Ybits := (fun row : list Z => Z.odd <$> row) <$> Y).
  assert (Hrb : rect ncols Ybits) by by apply rect_odd.
  rewrite (reduce_mod2_gf2 ncols).
  2:{ apply rect_b2z. by apply eliminate_rect. }
  rewrite odd_b2z_matrix.
  destruct (rref_fixed ncols _ (GF2.rref ncols Ybits)
              (eliminate_rect ncols _ 0 Ybits Hrb) (rref_is_rref ncols Ybits Hrb)) as [-> _].
  done.
Qed.

Lemma reduce_mod2_idempotent_witness :
  PostProcessing.reduce_mod2 [[1; 0; 1]; [0; 1; 1]; [0; 0; 0]]
  = Some [[1; 0; 1]; [0; 1; 1]; [0; 0; 0]].
Proof.
  apply (reduce_mod2_idempotent 3 [[1; 1; 0]; [0; 1; 1]; [1; 0; 1]]).
  - by repeat constructor.
  - reflexivity.
Defined.

(** X16. A 0/1 matrix that is already in reduced row-echelon form modulo 2
    comes back unchanged. *)
Theorem reduce_mod2_keeps_reduced (ncols : nat) (ps : list nat) (Y : list (list Z)) :
  rect ncols Y -> bit_matrix Y ->
  GF2.is_rref ps ((fun row : list Z => Z.odd <$> row) <$> Y) ->
  PostProcessing.reduce_mod2 Y = Some Y.
Proof.
  intros Hrect Hbits Hrref. rewrite (reduce_mod2_gf2 ncols Y Hrect).
  destruct (rref_fixed ncols ps _ (rect_odd ncols Y Hrect) Hrref) as [-> _].
  by rewrite b2z_odd_matrix.
Qed.

Lemma reduce_mod2_keeps_reduced_witness :
  PostProcessing.reduce_mod2 [[1; 0; 1]; [0; 1; 1]; [0; 0; 0]]
  = Some [[1; 0; 1]; [0; 1; 1]; [0; 0; 0]].
Proof.
  apply (reduce_mod2_keeps_reduced 3
           (GF2.pivots 3 [[true; false; true]; [false; true; true]; [false; false; false]])).
  - by repeat constructor.
  - repeat first [apply Forall_cons; split | apply Forall_nil_2
                 | left; reflexivity | right; reflexivity].
  - apply (rref_is_rref 3 [[true; false; true]; [false; true; true]; [false; false; false]]).
    by repeat constructor.
Defined.

Section EdgeCases.
Import PostProcessing.

Lemma bits_nonzero (y : string) :
  is_bitstring y = true -> y <> Py.repeat0 (String.length y) ->
  existsb id (bits_of y) = true.
Proof.
  induction y as [|c y IH]; intros Hy Hne; [done|].
  apply is_bitstring_cons in Hy as [Hc Hy].
  unfold is_bit in Hc. apply orb_true_iff in Hc as [Hc|Hc]; apply Ascii.eqb_eq in Hc; subst c.
  - change (existsb id (bits_of (String "0" y))) with (existsb id (bits_of y)).
    apply IH; [exact Hy|]. intros Heq. apply Hne. simpl. by rewrite <- Heq.
  - done.
Qed.

Lemma reduce_mod2_single (r : list bool) :
  reduce_mod2 [Z.b2z <$> r] = Some [Z.b2z <$> r].
Proof.
  rewrite (reduce_mod2_gf2 (length r)) by (repeat constructor; by rewrite length_fmap).
  cbn [fmap list_fmap]. rewrite odd_b2z_row. unfold GF2.rref.
  by rewrite eliminate_single.
Qed.

Lemma insert_by_count_filter (c : Z) (x : string * Z) (l : list (string * Z)) :
  List.filter (fun kv => snd kv =? c) (insert_by_count x l)
  = List.filter (fun kv => snd kv =? c) (x :: l).
Proof.
  induction l as [|y l IH]; [done|]. cbn [insert_by_count].
  destruct (Z.ltb_spec (snd x) (snd y)) as [Hlt|Hge]; [|done].
  cbn [List.filter] in *. rewrite IH.
  destruct (Z.eqb_spec (snd x) c) as [Hx|Hx]; [|done].
  destruct (Z.eqb_spec (snd y) c) as [Hy|Hy]; [lia|done].
Qed.

End EdgeCases.

(** X17. With no measured string other than the all-zero one the cell builds
    empty matrices and prints no equation; with exactly one, [y], both
    matrices are the row of the bits of [y] and the one equation printed is
    that of [y]. *)
Theorem post_processing_few_outcomes (n : nat) (answer_plot : Dict.t Z) :
  (PostProcessing.nonzero_items n answer_plot = [] ->
   PostProcessing.post_processing n answer_plot
   = Some [PostProcessing.PrintMatrix []; PostProcessing.PrintMatrix [];
           PostProcessing.PrintLine (PostProcessing.header n)])
  /\ (forall y c,
        PostProcessing.nonzero_items n answer_plot = [(y, c)] ->
        is_bitstring y = true -> String.length y = n ->
        let row := Z.b2z <$> bits_of y in
        PostProcessing.post_processing n answer_plot
        = Some [PostProcessing.PrintMatrix [row]; PostProcessing.PrintMatrix [row];
                PostProcessing.PrintLine (PostProcessing.header n);
                PostProcessing.PrintLine (PostProcessing.equation row)]).
Proof.
  split.
  - intros H. unfold PostProcessing.post_processing. rewrite H.
    cbn [PostProcessing.sort_by_count foldr PostProcessing.build_Y foldl mbind option_bind].
    rewrite (reduce_mod2_gf2 0 []) by constructor. reflexivity.
  - intros y c H Hy Hlen row.
    assert (Hne : y <> Py.repeat0 (String.length y)).
    { assert (Hin : In (y, c) (PostProcessing.nonzero_items n answer_plot))
        by (rewrite H; by left).
      apply filter_In in Hin as [_ Hin]. simpl in Hin. rewrite Hlen.
      intros Heq. rewrite <- Heq, String.eqb_refl in Hin. done. }
    unfold PostProcessing.post_processing. rewrite H.
    cbn [PostProcessing.sort_by_count foldr PostProcessing.insert_by_count].
    unfold PostProcessing.build_Y.
    rewrite build_Y_rows by (by repeat constructor).
    cbn [fmap list_fmap app fst mbind option_bind].
    assert (Hrow : (fun c0 => Z.b2z (bit_of_char c0)) <$> Py.chars y = row).
    { unfold row, bits_of. by rewrite <- list_fmap_compose. }
    rewrite Hrow. subst row. rewrite reduce_mod2_single.
    cbn [mbind option_bind]. rewrite print_loop_equations.
    cbn [List.filter]. rewrite has_one_b2z, (bits_nonzero y Hy Hne).
    done.
Qed.

Lemma post_processing_few_outcomes_witness :
  PostProcessing.post_processing 3 [("000", 9)]
  = Some [PostProcessing.PrintMatrix []; PostProcessing.PrintMatrix [];
          PostProcessing.PrintLine (PostProcessing.header 3)]
  /\ PostProcessing.post_processing 3 [("000", 5); ("011", 4)]
     = Some [PostProcessing.PrintMatrix [[0; 1; 1]]; PostProcessing.PrintMatrix [[0; 1; 1]];
             PostProcessing.PrintLine (PostProcessing.header 3);
             PostProcessing.PrintLine "s[ 1 ] + s[ 2 ] = 0"].
Proof.
  split.
  - apply (proj1 (post_processing_few_outcomes 3 [("000", 9)])). reflexivity.
  - apply (proj2 (post_processing_few_outcomes 3 [("000", 5); ("011", 4)]) "011" 4);
      reflexivity.
Defined.

(** X18. The sort by descending count is stable: the strings measured
    equally often keep the order they have in [answer_plot]. *)
Theorem sort_by_count_stable (lAnswer : list (string * Z)) (c : Z) :
  List.filter (fun kv => snd kv =? c) (PostProcessing.sort_by_count lAnswer)
  = List.filter (fun kv => snd kv =? c) lAnswer.
Proof.
  induction lAnswer as [|x l IH]; [done|].
  cbn [PostProcessing.sort_by_count foldr].
  rewrite insert_by_count_filter. cbn [List.filter].
  change (foldr PostProcessing.insert_by_count [] l) with (PostProcessing.sort_by_count l).
  by rewrite IH.
Qed.

(** X19. The zero test of the row reduction, [x % 2 == 0], accepts exactly
    the integers that the helper [mod(x, 2)] maps to 0; it rejects every
    fraction that is not an integer, also those that [mod] maps to 0. *)
Theorem iszerofunc_iff_even_integer (x : Qc) :
  PostProcessing.iszerofunc x = true
  <-> is_int x /\ PostProcessing.mod_ x 2 = Some 0.
Proof.
  split.
  - intros H. unfold PostProcessing.iszerofunc, Sympy.eqb in H.
    apply Qeq_bool_iff, Qc_is_canon in H. unfold Sympy.rmod in H.
    set (f := Qfloor (this (x / Sympy.of_Z 2))) in H.
    assert (Hx : x = Sympy.of_Z (2 * f)).
    { rewrite <- of_Z_mul.
      transitivity ((x - Sympy.of_Z 2 * Sympy.of_Z f) + Sympy.of_Z 2 * Sympy.of_Z f)%Qc;
        [ring|].
      rewrite H. change (Sympy.of_Z 0) with 0%Qc. ring. }
    rewrite Hx. split; [apply is_int_of_Z|].
    rewrite mod2_odd_denom by (by rewrite denom_of_Z).
    rewrite numer_of_Z, Z.odd_mul. done.
  - intros [Hint Hmod]. rewrite (iszerofunc_int x Hint).
    rewrite mod2_odd_denom in Hmod by (unfold is_int in Hint; by rewrite Hint).
    unfold parity. by destruct (Z.odd (Sympy.numer x)).
Qed.


(** * The outcomes of the circuit *)

Section Simulator.
Import Circuit Sim.

(** ** Sums over bit vectors *)







(** ** The two kinds of gate *)







End Simulator.

Section Outcomes.
Import Circuit Sim.







(** ** Measured strings and their first [n] characters *)









End Outcomes.


